(** * Kinvey js-sdk: the sync journal, the push engine and the local store

    A shallow embedding of [src/sync.js] (class [Sync]: [count],
    [createSaveOperation], [createDeleteOperation], [push]), of the
    [Store] constructor and of the WebSQL adapter ([execute], [clearAll]),
    together with the properties of the specification that concern them.

    Conventions of the embedding.
    - A JavaScript object that is mutated while other values still refer to
      it (the [entity] of a sync entity during [push]) lives in a heap and is
      named by its location; values that are only read are plain records.
    - The remote backend is an arbitrary deterministic environment: a
      function from the requests sent so far and the current request to a
      response.
    - [Promise.all(map(batch, f))] calls [f] on the elements of the batch in
      list order: each call runs up to [request.execute()], so the first
      requests of a batch go out in that order.  The handlers then run one
      [await] at a time, in the order in which the outstanding operations
      complete; that order is a parameter of the model ([schedule]), and
      the properties of [push] hold for every schedule.
    - A number is an IEEE 754 double; the sync key is one that holds an
      integer.
    - Local storage writes succeed (the adapters' I/O failures are outside
      the model). *)

From Stdlib Require Import ZArith String Ascii List Bool Lia.
From stdpp Require Import gmap strings list fin_maps.

Import ListNotations.
Local Open Scope string_scope.
Local Open Scope list_scope.

(** ** lodash: [orderBy] and [sortedUniqBy] *)

Module Lodash.
Section Collections.
Context {A : Type}.

(** [_.orderBy(xs, k, ['desc'])] is a stable sort; [x] is placed before the
    first element whose key is not larger than its own. *)
Fixpoint insert_desc (k : A -> Z) (x : A) (l : list A) : list A :=
  match l with
  | [] => [x]
  | y :: l' => if (k y <=? k x)%Z then x :: l else y :: insert_desc k x l'
  end.

Definition orderBy_desc (k : A -> Z) (l : list A) : list A :=
  foldr (insert_desc k) [] l.

(** [_.sortedUniqBy(xs, f)] ([baseSortedUniq]): an element is kept when it
    is the first one or when [f] of it differs from the last value seen. *)
Fixpoint baseSortedUniq {B : Type} `{EqDecision B}
    (f : A -> B) (seen : option B) (l : list A) : list A :=
  match l with
  | [] => []
  | value :: l' =>
      let computed := f value in
      match seen with
      | Some s =>
          if decide (computed = s) then baseSortedUniq f seen l'
          else value :: baseSortedUniq f (Some computed) l'
      | None => value :: baseSortedUniq f (Some computed) l'
      end
  end.

Definition sortedUniqBy {B : Type} `{EqDecision B} (f : A -> B) (l : list A) : list A :=
  baseSortedUniq f None l.
End Collections.
End Lodash.

(** ** Numbers *)

(** The double nearest to the integer [z], ties to the even mantissa: an
    integer of at most 53 bits is its own double, a larger one keeps its 53
    leading bits.  Integers beyond the largest finite double (about 2^1024),
    which a double rounds to [Infinity], are outside the model. *)
Definition to_double (z : Z) : Z :=
  let a := Z.abs z in
  if (a <? 2 ^ 53)%Z then z
  else
    let e := (Z.log2 a - 52)%Z in
    let q := Z.shiftr a e in
    let r := (a - Z.shiftl q e)%Z in
    let half := Z.shiftl 1 (e - 1) in
    let q := if (half <? r)%Z || ((r =? half)%Z && Z.odd q) then (q + 1)%Z else q in
    (Z.sgn z * Z.shiftl q e)%Z.

(** [a + b] on numbers that hold integers. *)
Definition js_add (a b : Z) : Z := to_double (a + b).

(** ** Enumerations and errors ([./enums], [./errors]) *)

Inductive HttpMethod := GET | POST | PUT | DELETE | PATCH.

(** Modelled from the spec: the error classes of [./errors] (section 7);
    [NotFoundError] and [InsufficientCredentialsError] are distinct classes,
    neither a subclass of the other. *)
Inductive KinveyError :=
  | NotFoundError
  | InsufficientCredentialsError
  | SyncError (message : string)
  | OtherError (name : string).

Definition instanceof_NotFoundError (error : KinveyError) : bool :=
  match error with NotFoundError => true | _ => false end.

Definition instanceof_InsufficientCredentialsError (error : KinveyError) : bool :=
  match error with InsufficientCredentialsError => true | _ => false end.

Definition instanceof_SyncError (error : KinveyError) : bool :=
  match error with SyncError _ => true | _ => false end.

#[global] Instance HttpMethod_eq_dec : EqDecision HttpMethod.
Proof. solve_decision. Defined.

#[global] Instance KinveyError_eq_dec : EqDecision KinveyError.
Proof. solve_decision. Defined.

(** ** Entities *)

(** The [_kmd] envelope: the [local] marker and the other metadata. *)
Record Kmd := mkKmd {
  kmd_local : option bool;
  kmd_rest : list (string * string)
}.

(** An entity: the [_id] attribute (absent or a string), the [_kmd]
    envelope (absent or an object) and the remaining attributes. *)
Record Entity := mkEntity {
  _id : option string;
  _kmd : option Kmd;
  attributes : list (string * string)
}.

#[global] Instance Kmd_eq_dec : EqDecision Kmd.
Proof. solve_decision. Defined.

#[global] Instance Entity_eq_dec : EqDecision Entity.
Proof. solve_decision. Defined.

#[global] Instance Entity_inhabited : Inhabited Entity :=
  populate (mkEntity None None []).

(** JavaScript truthiness of an optional string ([!id], [!collection]). *)
Definition truthy (s : option string) : bool :=
  match s with
  | Some s => negb (String.eqb s "")
  | None => false
  end.

(** [delete entity[idAttribute]] *)
Definition delete_id (e : Entity) : Entity :=
  mkEntity None (_kmd e) (attributes e).

(** [delete entity[kmdAttribute].local] *)
Definition delete_kmd_local (e : Entity) : Entity :=
  mkEntity (_id e)
           (match _kmd e with
            | Some k => Some (mkKmd None (kmd_rest k))
            | None => None
            end)
           (attributes e).

(** The entity object once both deletions have run. *)
Definition stripped (e : Entity) : Entity := delete_kmd_local (delete_id e).

(** Modelled from the spec: the class [Metadata] of [./metadata] (section
    4.F), a pure inspection of the entity handed to its constructor:
    [isLocal] is the truthiness of [entity._kmd.local] as it was when the
    [Metadata] was built.  The decision is taken once for a sync entity
    (section 4.E, step 4): a later [delete entity._kmd.local] does not change
    what [metadata.isLocal()] answers. *)
Record Metadata := mkMetadata { kmd : option Kmd }.

Definition new_Metadata (entity : Entity) : Metadata :=
  mkMetadata (_kmd entity).

Definition isLocal (metadata : Metadata) : bool :=
  match kmd metadata with
  | Some k => match kmd_local k with Some true => true | _ => false end
  | None => false
  end.

(** ** Sync entities *)

(** A sync entity [{key, entityId, collection, state: {method}, entity}].
    [E] is [Entity] for a stored row and a heap location while [push] holds
    the object in memory. *)
Record SyncEntity (E : Type) := mkSyncEntity {
  key : Z;
  entityId : string;
  collection : string;
  state_method : HttpMethod;
  entity : E
}.
Arguments mkSyncEntity {E}.
Arguments key {E}.
Arguments entityId {E}.
Arguments collection {E}.
Arguments state_method {E}.
Arguments entity {E}.

#[global] Instance SyncEntity_eq_dec {E : Type} `{EqDecision E} : EqDecision (SyncEntity E).
Proof. solve_decision. Defined.

Definition with_entity {E F : Type} (s : SyncEntity E) (e : F) : SyncEntity F :=
  mkSyncEntity (key s) (entityId s) (collection s) (state_method s) e.

(** A query is opaque: it selects rows of the sync table. *)
Definition Query := SyncEntity Entity -> bool.

Definition matches (query : option Query) (row : SyncEntity Entity) : bool :=
  match query with
  | Some q => q row
  | None => true
  end.

(** ** The device: counter, sync table and collection tables *)

(** Modelled from the spec: the local persistence behind [LocalRequest] and
    [getSyncKey]/[setSyncKey] ([./requests/local], [./utils/storage]):
    the sync table holds one row per [key] (section 4.C), a collection table
    is keyed by [_id] (section 4.A), the counter is one stored number. *)
Record Device := mkDevice {
  syncKey : option Z;
  sync_table : gmap Z (SyncEntity Entity);
  tables : gmap (string * string) Entity;
  generated : nat
}.

Definition set_sync_table (d : Device) (t : gmap Z (SyncEntity Entity)) : Device :=
  mkDevice (syncKey d) t (tables d) (generated d).

(** [LocalRequest GET] on the sync table: the matching rows. *)
Definition find_sync (query : option Query) (t : gmap Z (SyncEntity Entity))
  : list (SyncEntity Entity) :=
  filter (fun row => matches query row = true) (snd <$> map_to_list t).

Module Sync.

Import Lodash.

(** [count(query)] *)
Definition count (d : Device) (query : option Query) : nat :=
  let syncEntities := find_sync query (sync_table d) in
  let syncEntities := orderBy_desc key syncEntities in
  let syncEntities := sortedUniqBy entityId syncEntities in
  length syncEntities.

(** [count] as the specification words it: the number of distinct
    [entityId]s among the matching sync entities. *)
Definition distinct_entityIds (d : Device) (query : option Query) : nat :=
  length (remove_dups (entityId <$> find_sync query (sync_table d))).

(** The outcome of an [async] function. *)
Inductive Outcome (A : Type) :=
  | Resolved (value : A)
  | Rejected (error : KinveyError).
Arguments Resolved {A}.
Arguments Rejected {A}.

(** The [entities] argument: one entity or an array; [None] is a null or
    undefined entity. *)
Inductive Entities :=
  | One (entity : option Entity)
  | Many (entities : list (option Entity)).

Definition to_array (entities : Entities) : list (option Entity) :=
  match entities with
  | One e => [e]
  | Many l => l
  end.

Definition missing_collection : string :=
  "A name for a collection must be provided to add entities to the sync table.".

Definition missing_id : string :=
  "An entity is missing an _id. All entities must have an _id in order to be added to the sync table.".

(** The callback mapped over the entities by both enqueue operations; they
    differ only in [state.method]. *)
Definition enqueue_entity (method : HttpMethod) (collection : string)
    (d : Device) (entity : option Entity) : Device * Outcome unit :=
  match entity with
  | None => (d, Resolved tt)
  | Some entity =>
      let id := _id entity in
      if negb (truthy id) then (d, Rejected (SyncError missing_id))
      else
        let key := js_add (default 0%Z (syncKey d)) 1 in
        let syncEntity :=
          mkSyncEntity key (default "" id) collection method entity in
        (mkDevice (Some key) (<[key := syncEntity]> (sync_table d))
                  (tables d) (generated d),
         Resolved tt)
  end.

(** [Promise.all(map(entities, f))]: every callback runs; the promise
    rejects with the first rejection. *)
Fixpoint enqueue_all (method : HttpMethod) (collection : string)
    (d : Device) (entities : list (option Entity)) : Device * Outcome unit :=
  match entities with
  | [] => (d, Resolved tt)
  | e :: rest =>
      let '(d1, o1) := enqueue_entity method collection d e in
      let '(d2, o2) := enqueue_all method collection d1 rest in
      (d2, match o1 with Rejected err => Rejected err | Resolved _ => o2 end)
  end.

Definition createOperation (method : HttpMethod) (d : Device)
    (collection : option string) (entities : Entities)
  : Device * Outcome Entities :=
  if negb (truthy collection) then (d, Rejected (SyncError missing_collection))
  else
    let '(d', o) :=
      enqueue_all method (default "" collection) d (to_array entities) in
    (d', match o with
         | Rejected err => Rejected err
         | Resolved _ => Resolved entities
         end).

(** [createSaveOperation(collection, entities)] *)
Definition createSaveOperation := createOperation POST.

(** [createDeleteOperation(collection, entities)] *)
Definition createDeleteOperation := createOperation DELETE.

(** *** The push engine *)

(** Pathnames [/appdata/<appKey>/<collection>] and
    [/appdata/<appKey>/<collection>/<id>]. *)
Inductive Pathname :=
  | CollectionPath (collection : string)
  | EntityPath (collection : string) (id : string).

(** A [NetworkRequest] as it goes on the wire: the body is the entity as it
    is when [execute] is called. *)
Record NetworkRequest := mkRequest {
  method : HttpMethod;
  pathname : Pathname;
  body : option Entity
}.

Inductive Response :=
  | Ok (data : Entity)
  | Fail (error : KinveyError).

#[global] Instance Pathname_eq_dec : EqDecision Pathname.
Proof. solve_decision. Defined.

#[global] Instance NetworkRequest_eq_dec : EqDecision NetworkRequest.
Proof. solve_decision. Defined.

(** A template literal prints a missing id as [undefined]. *)
Definition render (id : option string) : string := default "undefined" id.

(** The [entity] of a result is the object of the sync entity or a value
    that only the result refers to. *)
Inductive EntityRef :=
  | Ref (l : nat)
  | Val (e : Entity).

Record Result := mkResult {
  res_id : option string;
  res_entity : EntityRef;
  res_error : option KinveyError
}.

(** What the caller of [push] reads from a result once [push] has resolved. *)
Record SyncResult := mkSyncResult {
  result_id : option string;
  result_entity : Entity;
  result_error : option KinveyError
}.

(** The state [push] works on: the entity objects, [failedSyncEntities], the
    network requests sent so far, the collection tables and the number of
    object ids generated so far. *)
Record Engine := mkEngine {
  heap : list Entity;
  failedSyncEntities : list (SyncEntity nat);
  sent : list NetworkRequest;
  local : gmap (string * string) Entity;
  drawn : nat
}.

Definition read (eng : Engine) (l : nat) : Entity := heap eng !!! l.

Definition write (eng : Engine) (l : nat) (e : Entity) : Engine :=
  mkEngine (<[l := e]> (heap eng)) (failedSyncEntities eng) (sent eng)
           (local eng) (drawn eng).

Definition push_failed (eng : Engine) (syncEntity : SyncEntity nat) : Engine :=
  mkEngine (heap eng) (failedSyncEntities eng ++ [syncEntity]) (sent eng)
           (local eng) (drawn eng).

Definition view (h : list Entity) (r : Result) : SyncResult :=
  mkSyncResult (res_id r)
               (match res_entity r with Ref l => h !!! l | Val e => e end)
               (res_error r).

(** *** The callbacks of a batch *)

(** How far the promise chain of one callback has run: the request is on
    the wire and [response] is what the remote answers; the repair GET of a
    [catch] handler is on the wire; the local PUT of a created entity is done
    and the local DELETE is to come; the chain has settled with a result. *)
Inductive Stage :=
  | Dispatched (response : Response)
  | Repairing (error : KinveyError) (response : Response)
  | Saved (saved : Entity)
  | Settled (result : Result).

(** A callback of [map(batch, ...)] once it has returned: its variables
    [syncEntity], [metadata] and [originalId], and the stage of the promise
    it returned. *)
Record Task := mkTask {
  task_syncEntity : SyncEntity nat;
  task_metadata : Metadata;
  task_originalId : option string;
  stage : Stage
}.

Definition proceed (task : Task) (st : Stage) : Task :=
  mkTask (task_syncEntity task) (task_metadata task) (task_originalId task) st.

Definition is_settled (task : Task) : bool :=
  match stage task with Settled _ => true | _ => false end.

(** The positions of the tasks that have not settled. *)
Definition outstanding (tasks : list Task) : list nat :=
  filter (fun j => is_settled <$> tasks !! j = Some false) (seq 0 (length tasks)).

(** What [Promise.all] resolves with, once every task has settled. *)
Definition results (tasks : list Task) : option (list Result) :=
  mapM (fun task => match stage task with Settled r => Some r | _ => None end) tasks.

(** The collection a request goes to, and the requests of a log that go
    to one collection. *)
Definition collection_of (p : Pathname) : string :=
  match p with
  | CollectionPath c => c
  | EntityPath c _ => c
  end.

Definition requests_for (c : string) (log : list NetworkRequest) : list NetworkRequest :=
  filter (fun r => collection_of (pathname r) = c) log.

(** Whether the handlers of [t0] push its sync entity on
    [failedSyncEntities], and whether they send the repair GET. *)
Definition reinstates (t0 : Task) : bool :=
  match stage t0 with
  | Dispatched (Fail error) =>
      match state_method (task_syncEntity t0) with
      | DELETE => negb (instanceof_NotFoundError error)
                  || negb (instanceof_InsufficientCredentialsError error)
      | _ => negb (instanceof_InsufficientCredentialsError error)
      end
  | _ => false
  end.

Definition repairs (t0 : Task) : bool :=
  match stage t0 with
  | Dispatched (Fail error) =>
      instanceof_InsufficientCredentialsError error
      && match state_method (task_syncEntity t0) with
         | DELETE => true
         | _ => negb (isLocal (task_metadata t0))
         end
  | _ => false
  end.

Definition handled (t : Task) : bool :=
  match stage t with Dispatched _ => false | _ => true end.

(** A task as a callback returns it: dispatched, or settled at once. *)
Definition fresh (t : Task) : Prop :=
  match stage t with
  | Dispatched _ => True
  | Settled _ => True
  | _ => False
  end.

(** The entity object of a sync entity once its callback has returned: a
    save of an entity created on the device has stripped it. *)
Definition after_dispatch (method : HttpMethod) (e : Entity) : Entity :=
  match method with
  | POST | PUT => if isLocal (new_Metadata e) then stripped e else e
  | _ => e
  end.

(** Two collection tables with the same rows of collection [c]. *)
Definition agree_on (c : string) (L L' : gmap (string * string) Entity) : Prop :=
  forall x, L !! (c, x) = L' !! (c, x).

(** The collection table once the handlers of [t0] have taken it to [st]
    without a repair, from the table [L0]: a save that the remote accepted
    puts the saved document and, for an entity created on the device,
    deletes the row of the original id. *)
Definition written (t0 : Task) (st : Stage) (L0 : gmap (string * string) Entity)
  : gmap (string * string) Entity :=
  let c := collection (task_syncEntity t0) in
  let put saved := <[(c, default "" (_id saved)) := saved]> L0 in
  match st with
  | Saved saved => put saved
  | Settled r =>
      match res_entity r with
      | Val saved =>
          if isLocal (task_metadata t0)
          then delete (c, render (task_originalId t0)) (put saved)
          else put saved
      | Ref _ => L0
      end
  | _ => L0
  end.

Section Push.
(** The remote backend: the requests already sent and the request. *)
Variable remote : list NetworkRequest -> NetworkRequest -> Response.
(** [generateObjectId]: the n-th id drawn. *)
Variable generateObjectId : nat -> string.
(** The order in which the outstanding operations of a batch complete: given
    the tasks, the one of the outstanding tasks (counted among them, modulo
    their number) whose handler runs next.  Every handler changes the stage
    of its task, so the tasks of a batch are never twice the same while it
    runs, and a function of the tasks can pick the handlers in any order. *)
Variable schedule : list Task -> nat.

Definition batchSize : nat := 100.

(** [request.execute()] of a [NetworkRequest]. *)
Definition execute (eng : Engine) (request : NetworkRequest) : Engine * Response :=
  (mkEngine (heap eng) (failedSyncEntities eng) (sent eng ++ [request])
            (local eng) (drawn eng),
   remote (sent eng) request).

(** Modelled from the spec: [LocalRequest] PUT of a document into a
    collection ([./requests/local], sections 4.A and 4.B): [save] assigns
    a generated [_id] when the document has none and upserts by [_id];
    the response carries the saved document. *)
Definition local_put (eng : Engine) (collection : string) (doc : Entity)
  : Engine * Entity :=
  if truthy (_id doc) then
    (mkEngine (heap eng) (failedSyncEntities eng) (sent eng)
              (<[(collection, default "" (_id doc)) := doc]> (local eng))
              (drawn eng),
     doc)
  else
    let id := generateObjectId (drawn eng) in
    let doc := mkEntity (Some id) (_kmd doc) (attributes doc) in
    (mkEngine (heap eng) (failedSyncEntities eng) (sent eng)
              (<[(collection, id) := doc]> (local eng))
              (S (drawn eng)),
     doc).

(** Modelled from the spec: [LocalRequest] DELETE of one row
    ([removeById], section 4.A). *)
Definition local_delete (eng : Engine) (collection : string) (id : string) : Engine :=
  mkEngine (heap eng) (failedSyncEntities eng) (sent eng)
           (delete (collection, id) (local eng)) (drawn eng).

(** The request built for a sync entity before [request.execute()], with
    the in-place stripping of a locally created entity. *)
Definition build_request (eng : Engine) (syncEntity : SyncEntity nat)
  : Engine * option NetworkRequest :=
  let collection := collection syncEntity in
  let entity := entity syncEntity in
  let metadata := new_Metadata (read eng entity) in
  let originalId := _id (read eng entity) in
  match state_method syncEntity with
  | DELETE =>
      (eng, Some (mkRequest DELETE (EntityPath collection (render originalId)) None))
  | POST | PUT =>
      if isLocal metadata then
        let eng := write eng entity (delete_id (read eng entity)) in
        let eng := write eng entity (delete_kmd_local (read eng entity)) in
        (eng, Some (mkRequest POST (CollectionPath collection)
                              (Some (read eng entity))))
      else
        (eng, Some (mkRequest PUT (EntityPath collection (render originalId))
                              (Some (read eng entity))))
  | _ => (eng, None)
  end.

Definition unrecognized : string :=
  "Unable to sync the entity since the method was not recognized.".

(** The callback mapped over a batch, up to the promise it returns: the
    request is built and sent, or, for a method that is not recognized, the
    result is returned at once. *)
Definition dispatch (eng : Engine) (syncEntity : SyncEntity nat) : Engine * Task :=
  let entity := entity syncEntity in
  let metadata := new_Metadata (read eng entity) in
  let originalId := _id (read eng entity) in
  match build_request eng syncEntity with
  | (eng, Some request) =>
      let '(eng, response) := execute eng request in
      (eng, mkTask syncEntity metadata originalId (Dispatched response))
  | (eng, None) =>
      (eng, mkTask syncEntity metadata originalId
                   (Settled (mkResult originalId (Ref entity)
                                      (Some (SyncError unrecognized)))))
  end.

(** [map(batch, callback)]: the callbacks are called in list order. *)
Fixpoint dispatchAll (eng : Engine) (batch : list (SyncEntity nat))
  : Engine * list Task :=
  match batch with
  | [] => (eng, [])
  | syncEntity :: rest =>
      let '(eng, task) := dispatch eng syncEntity in
      let '(eng, tasks) := dispatchAll eng rest in
      (eng, task :: tasks)
  end.

(** The [try] block of both [catch] handlers, up to its first [await]: the
    GET for the entity is sent. *)
Definition repair (eng : Engine) (task : Task) (error : KinveyError) : Engine * Task :=
  let collection := collection (task_syncEntity task) in
  let getNetworkRequest :=
    mkRequest GET (EntityPath collection (render (task_originalId task))) None in
  let '(eng, response) := execute eng getNetworkRequest in
  (eng, proceed task (Repairing error response)).

(** One handler of a task, from the completion it waited for up to the next
    [await] or to the result. *)
Definition step (eng : Engine) (task : Task) : Engine * Task :=
  let syncEntity := task_syncEntity task in
  let collection := collection syncEntity in
  let entity := entity syncEntity in
  let metadata := task_metadata task in
  let originalId := task_originalId task in
  match stage task with
  | Dispatched response =>
      match state_method syncEntity with
      | DELETE =>
          match response with
          | Ok _ => (eng, proceed task (Settled (mkResult originalId (Ref entity) None)))
          | Fail error =>
              let eng :=
                if negb (instanceof_NotFoundError error)
                   || negb (instanceof_InsufficientCredentialsError error)
                then push_failed eng syncEntity else eng in
              if instanceof_InsufficientCredentialsError error
              then repair eng task error
              else (eng, proceed task
                           (Settled (mkResult originalId (Ref entity) (Some error))))
          end
      | _ =>
          match response with
          | Ok data =>
              let '(eng, saved) := local_put eng collection data in
              if isLocal metadata
              then (eng, proceed task (Saved saved))
              else (eng, proceed task (Settled (mkResult originalId (Val saved) None)))
          | Fail error =>
              let eng :=
                if negb (instanceof_InsufficientCredentialsError error)
                then push_failed eng syncEntity else eng in
              if instanceof_InsufficientCredentialsError error
                 && negb (isLocal metadata)
              then repair eng task error
              else (eng, proceed task
                           (Settled (mkResult originalId (Ref entity) (Some error))))
          end
      end
  | Repairing error response =>
      let eng :=
        match response with
        | Ok originalEntity => fst (local_put eng collection originalEntity)
        | Fail _ => eng
        end in
      (eng, proceed task (Settled (mkResult originalId (Ref entity) (Some error))))
  | Saved saved =>
      (local_delete eng collection (render originalId),
       proceed task (Settled (mkResult originalId (Val saved) None)))
  | Settled _ => (eng, task)
  end.

(** The handlers of a batch, one at a time as [schedule] picks them, until
    no task is outstanding; [fuel] bounds the number of handlers. *)
Fixpoint run (fuel : nat) (eng : Engine) (tasks : list Task) : Engine * list Task :=
  match fuel with
  | O => (eng, tasks)
  | S fuel =>
      let waiting := outstanding tasks in
      match waiting !! (schedule tasks mod length waiting) with
      | Some j =>
          match tasks !! j with
          | Some task =>
              let '(eng, task) := step eng task in
              run fuel eng (<[j := task]> tasks)
          | None => (eng, tasks)
          end
      | None => (eng, tasks)
      end
  end.

(** [Promise.all(map(batch, callback))]: the tasks once the handlers have
    run; a task has at most two handlers. *)
Definition syncAll (eng : Engine) (batch : list (SyncEntity nat))
  : Engine * list Task :=
  let '(eng, tasks) := dispatchAll eng batch in
  run (2 * length tasks) eng tasks.

(** [batchSync(syncResults)]: [i] is the shared index into [syncEntities];
    [fuel] bounds the number of batches. *)
Fixpoint batchSync (fuel : nat) (syncEntities : list (SyncEntity nat)) (i : nat)
    (eng : Engine) (syncResults : list Result) : option (Engine * list Result) :=
  match fuel with
  | O => None
  | S fuel =>
      let batch := take batchSize (drop i syncEntities) in
      let i := (i + batchSize)%nat in
      let '(eng, tasks) := syncAll eng batch in
      match results tasks with
      | Some results =>
          let syncResults := syncResults ++ results in
          if (i <? length syncEntities)%nat
          then batchSync fuel syncEntities i eng syncResults
          else Some (eng, syncResults)
      | None => None
      end
  end.

(** [LocalRequest DELETE] on the sync table: the matching rows are removed
    and returned. *)
Definition drain (query : option Query) (t : gmap Z (SyncEntity Entity))
  : list (SyncEntity Entity) * gmap Z (SyncEntity Entity) :=
  (find_sync query t,
   filter (fun kv => matches query (snd kv) = false) t).

(** The drained rows as objects in memory: row [l] owns the entity object
    at location [l]. *)
Definition load (rows : list (SyncEntity Entity))
  : list (SyncEntity nat) * list Entity :=
  (imap (fun l row => with_entity row l) rows, entity <$> rows).

(** The sync entities [push] dispatches: drained, ordered and made unique. *)
Definition claimed (d : Device) (query : option Query) : list (SyncEntity nat) :=
  let syncEntities := fst (load (find_sync query (sync_table d))) in
  let syncEntities := orderBy_desc key syncEntities in
  sortedUniqBy entityId syncEntities.

Definition start (d : Device) (query : option Query) : Engine :=
  mkEngine (snd (load (find_sync query (sync_table d)))) [] []
           (tables d) (generated d).

(** [LocalRequest PUT] of [failedSyncEntities] into the sync table. *)
Definition reinstate (h : list Entity) (failed : list (SyncEntity nat))
    (t : gmap Z (SyncEntity Entity)) : gmap Z (SyncEntity Entity) :=
  foldl (fun t s => <[key s := with_entity s (h !!! entity s)]> t) t failed.

(** [push(query)]: the device afterwards, the results [push] resolves
    with, and the requests it has sent to the network. *)
Definition push (d : Device) (query : option Query)
  : option (Device * list SyncResult * list NetworkRequest) :=
  let '(rows, table) := drain query (sync_table d) in
  if (0 <? length rows)%nat then
    let syncEntities := claimed d query in
    match batchSync (S (length syncEntities)) syncEntities 0 (start d query) [] with
    | Some (eng, syncResults) =>
        Some (mkDevice (syncKey d)
                       (reinstate (heap eng) (failedSyncEntities eng) table)
                       (local eng) (drawn eng),
              view (heap eng) <$> syncResults,
              sent eng)
    | None => None
    end
  else Some (set_sync_table d table, [], []).

(** The [k]-th batch of the claimed sync entities and the engine when its
    callbacks are called: the batches before it have settled. *)
Definition batch (syncEntities : list (SyncEntity nat)) (k : nat)
  : list (SyncEntity nat) :=
  take batchSize (drop (k * batchSize) syncEntities).

Fixpoint batch_start (d : Device) (query : option Query) (k : nat) : Engine :=
  match k with
  | O => start d query
  | S k' => fst (syncAll (batch_start d query k') (batch (claimed d query) k'))
  end.

(** The results of the [k]-th batch, and those of the first [n] batches. *)
Definition batch_results (d : Device) (query : option Query) (k : nat) : list Result :=
  default [] (results (snd (syncAll (batch_start d query k)
                                    (batch (claimed d query) k)))).

Fixpoint results_upto (d : Device) (query : option Query) (n : nat) : list Result :=
  match n with
  | O => []
  | S n' => results_upto d query n' ++ batch_results d query n'
  end.

(** The engine state in which the callback of the [i]-th claimed sync
    entity is called, and the request sent for it with the remote's
    response. *)
Definition engine_before (d : Device) (query : option Query) (i : nat) : Engine :=
  let k := i / batchSize in
  fst (dispatchAll (batch_start d query k)
                   (take (i mod batchSize) (batch (claimed d query) k))).

(** The task the callback of the [i]-th claimed sync entity returns. *)
Definition task_of (d : Device) (query : option Query) (i : nat)
    (syncEntity : SyncEntity nat) : Task :=
  snd (dispatch (engine_before d query i) syncEntity).

Definition dispatched (d : Device) (query : option Query) (i : nat)
  : option (NetworkRequest * Response) :=
  match claimed d query !! i with
  | Some syncEntity =>
      match build_request (engine_before d query i) syncEntity with
      | (eng, Some request) => Some (request, remote (sent eng) request)
      | (_, None) => None
      end
  | None => None
  end.

(** The document a local PUT stores for [doc] when [n] ids have been drawn. *)
Definition saved_as (n : nat) (doc : Entity) : Entity :=
  if truthy (_id doc) then doc
  else mkEntity (Some (generateObjectId n)) (_kmd doc) (attributes doc).

(** The stages the handlers can take a task to from [t0], the task as its
    callback returned it. *)
Definition follows (t0 : Task) (st : Stage) : Prop :=
  let s := task_syncEntity t0 in
  let originalId := task_originalId t0 in
  match stage t0 with
  | Dispatched r0 =>
      match st with
      | Dispatched r => r = r0
      | Repairing error _ => r0 = Fail error
      | Saved saved =>
          exists data n,
            r0 = Ok data /\ state_method s <> DELETE /\
            isLocal (task_metadata t0) = true /\ saved = saved_as n data
      | Settled r =>
          match r0 with
          | Fail error => r = mkResult originalId (Ref (entity s)) (Some error)
          | Ok data =>
              if decide (state_method s = DELETE)
              then r = mkResult originalId (Ref (entity s)) None
              else exists n, r = mkResult originalId (Val (saved_as n data)) None
          end
      end
  | Settled r0 => st = Settled r0
  | _ => False
  end.

(** A task and the task its callback returned: the variables are the
    same, the stage is one the handlers lead to, and it is the first stage
    as long as no handler has run. *)
Definition same_task (t0 t : Task) : Prop :=
  task_syncEntity t = task_syncEntity t0 /\
  task_metadata t = task_metadata t0 /\
  task_originalId t = task_originalId t0 /\
  follows t0 (stage t) /\
  (handled t = false -> stage t = stage t0).

(** With no other task of the same collection: what the engine holds for
    the collection of [t0] when the handlers have taken its task to [st],
    from the requests [S0] for the collection and the table [L0] when the
    callbacks had returned. *)
Definition tracks (t0 : Task) (S0 : list NetworkRequest)
    (L0 : gmap (string * string) Entity) (st : Stage) (eng : Engine) : Prop :=
  let c := collection (task_syncEntity t0) in
  let get := mkRequest GET (EntityPath c (render (task_originalId t0))) None in
  let put saved := <[(c, default "" (_id saved)) := saved]> L0 in
  requests_for c (sent eng)
    = S0 ++ (if match st with Dispatched _ => false | _ => true end && repairs t0
             then [get] else []) /\
  match st with
  | Repairing _ response =>
      repairs t0 = true /\ agree_on c (local eng) L0 /\
      exists h rest, sent eng = h ++ get :: rest /\ response = remote h get
  | Settled r =>
      if repairs t0 then
        exists h rest,
          sent eng = h ++ get :: rest /\
          match remote h get with
          | Ok doc => exists n, agree_on c (local eng) (put (saved_as n doc))
          | Fail _ => agree_on c (local eng) L0
          end
      else agree_on c (local eng) (written t0 st L0)
  | _ => agree_on c (local eng) (written t0 st L0)
  end.
End Push.

(** The handlers a task still has to run, at most. *)
Definition weight (t : Task) : nat :=
  match stage t with
  | Dispatched _ => 2
  | Repairing _ _ => 1
  | Saved _ => 1
  | Settled _ => 0
  end.

(** The number of batches of [push]. *)
Definition batches (syncEntities : list (SyncEntity nat)) : nat :=
  S ((length syncEntities - 1) / batchSize).

(** Every row of the sync table is stored under its [key] (section 4.C). *)
Definition keyed (t : gmap Z (SyncEntity Entity)) : Prop :=
  map_Forall (fun k row => key row = k) t.

#[global] Instance keyed_dec (t : gmap Z (SyncEntity Entity)) : Decision (keyed t).
Proof. unfold keyed. apply _. Defined.

(** *** [clear] and the key counter *)

(** [clear(query)]: the [LocalRequest DELETE] that [push] starts with, on its
    own; the response holds the rows removed. *)
Definition clear (d : Device) (query : option Query)
  : Device * list (SyncEntity Entity) :=
  let '(rows, table) := drain query (sync_table d) in
  (set_sync_table d table, rows).

(** No key of the sync table is above the key counter. *)
Definition bounded (d : Device) : Prop :=
  map_Forall (fun k (_ : SyncEntity Entity) => (k <= default 0 (syncKey d))%Z)
             (sync_table d).

#[global] Instance bounded_dec (d : Device) : Decision (bounded d).
Proof. unfold bounded. apply _. Defined.

(** [getSyncKey(this.client) || 0] *)
Definition counter (d : Device) : Z := default 0%Z (syncKey d).

(** The entities of an [entities] argument that are not null. *)
Definition provided (entities : Entities) : list Entity :=
  omap id (to_array entities).

End Sync.

(** ** The name pattern of the local store and of the WebSQL adapter *)

Module Pattern.
Definition char_between (lo hi c : ascii) : bool :=
  (nat_of_ascii lo <=? nat_of_ascii c)%nat && (nat_of_ascii c <=? nat_of_ascii hi)%nat.

(** The class [[a-zA-Z0-9\-]]. *)
Definition in_class (c : ascii) : bool :=
  char_between "a" "z" c || char_between "A" "Z" c || char_between "0" "9" c
  || Ascii.eqb c "-".

(** [[a-zA-Z0-9\-]{1,128}], greedy: the number of characters consumed,
    at most [max]. *)
Fixpoint repeat_class (max : nat) (s : string) : nat :=
  match max, s with
  | S max', String c rest => if in_class c then S (repeat_class max' rest) else 0
  | _, _ => 0
  end.

(** [/^[a-zA-Z0-9\-]{1,128}/.test(s)]: anchored at the start only. *)
Definition validCollectionRegex_test (s : string) : bool :=
  (1 <=? repeat_class 128 s)%nat.

Fixpoint all_in_class (s : string) : bool :=
  match s with
  | EmptyString => true
  | String c rest => in_class c && all_in_class rest
  end.

(** The pattern of the specification, [^[A-Za-z0-9-]{1,128}$]: the whole
    name, one to 128 characters, all of the class. *)
Definition spec_name_pattern (s : string) : bool :=
  (1 <=? String.length s)%nat && (String.length s <=? 128)%nat && all_in_class s.
End Pattern.

(** ** The local store: the [Store] constructor *)

Module Store.
Import Pattern.

(** A value of the [name] or [collection] property of [dbInfo]. *)
Inductive JSValue :=
  | JUndefined
  | JNull
  | JNumber (n : Z)
  | JString (s : string).

(** The own properties of the [dbInfo] argument; [None] is an absent
    property. *)
Record DbInfo := mkDbInfo {
  name : option JSValue;
  collection : option JSValue
}.

(** [assign({name: 'kinvey', collection: 'data'}, dbInfo)] *)
Definition assign_defaults (dbInfo : DbInfo) : JSValue * JSValue :=
  (default (JString "kinvey") (name dbInfo),
   default (JString "data") (collection dbInfo)).

Definition valid_name (v : JSValue) : bool :=
  match v with
  | JString s => validCollectionRegex_test s
  | _ => false
  end.

Inductive AdapterClass := IndexedDBAdapter | LocalStorageAdapter | WebSQLAdapter.

(** An element of the [Adapters] argument: one of the three names of the
    [StoreAdapter] enumeration, another string, or an adapter class. *)
Inductive Adapter :=
  | StoreAdapter_IndexedDB
  | StoreAdapter_LocalStorage
  | StoreAdapter_WebSQL
  | OtherName (s : string)
  | Class (a : AdapterClass).

Inductive Constructed :=
  | Built (adapter : AdapterClass) (name collection : JSValue)
  | Thrown (message : string).

Section Constructor.
(** [Adapter.isSupported()] in the running browser. *)
Variable isSupported : AdapterClass -> bool.

(** The [for] loop over [Adapters]: the first supported adapter. *)
Fixpoint select (Adapters : list Adapter) : option AdapterClass :=
  match Adapters with
  | [] => None
  | Adapter :: rest =>
      let resolved :=
        match Adapter with
        | StoreAdapter_IndexedDB => Some IndexedDBAdapter
        | StoreAdapter_LocalStorage => Some LocalStorageAdapter
        | StoreAdapter_WebSQL => Some WebSQLAdapter
        | OtherName _ => None
        | Class a => Some a
        end in
      match resolved with
      | Some a => if isSupported a then Some a else select rest
      | None => select rest
      end
  end.

(** [new Store(Adapters, dbInfo)] *)
Definition constructor (Adapters : list Adapter) (dbInfo : DbInfo) : Constructed :=
  let '(name, collection) := assign_defaults dbInfo in
  if negb (valid_name name) then
    Thrown "The database name has an invalid format."
  else if negb (valid_name collection) then
    Thrown "The collection name has an invalid format."
  else
    match select Adapters with
    | Some adapter => Built adapter name collection
    | None => Thrown "Please provide a supported storage adapter."
    end.
End Constructor.
(** *** Object ids and the methods that check their arguments *)

(** [get objectIdPrefix] *)
Definition objectIdPrefix : string := "local_".

Definition chars : string := "abcdef0123456789".

(** The [for] loop of [generateObjectId]: [random i] is
    [Math.floor(Math.random() * j)] of iteration [i], [remaining] the number
    of iterations left. *)
Fixpoint generate_loop (random : nat -> nat) (i remaining : nat) (result : string)
  : string :=
  match remaining with
  | O => result
  | S remaining' =>
      let pos := random i in
      generate_loop random (S i) remaining'
                    (result +:+ String.substring pos 1 chars)
  end.

(** [generateObjectId(length)] *)
Definition generateObjectId (random : nat -> nat) (length : nat) : string :=
  objectIdPrefix +:+ generate_loop random 0 length EmptyString.

(** A character of [chars]. *)
Definition hex_digit (c : ascii) : bool :=
  char_between "a" "f" c || char_between "0" "9" c.

Fixpoint all_hex (s : string) : bool :=
  match s with
  | EmptyString => true
  | String c rest => hex_digit c && all_hex rest
  end.

(** What the [fn] argument of [findAndModify] is. *)
Inductive Callback := AFunction | AnArray | Neither.

Definition isArray (v : Callback) : bool :=
  match v with AnArray => true | _ => false end.

(** [const isFunction = require('lodash/lang/isArray')] *)
Definition isFunction : Callback -> bool := isArray.

(** The call a method hands to the adapter. *)
Inductive AdapterCall :=
  | adapter_findAndModify (id : string) (fn : Callback)
  | adapter_save (doc : Entity)
  | adapter_batch (docs : list Entity).

(** What a method returns: the adapter's promise, a rejected promise or a
    promise resolved with [null]. *)
Inductive Returned :=
  | Delegate (call : AdapterCall)
  | Reject (message : string)
  | ResolveNull.

(** The [doc] argument of [save]: an array, a falsy value or a document. *)
Inductive SaveArgument :=
  | Documents (docs : list Entity)
  | Nothing
  | Document (doc : Entity).

Section Methods.
(** [String(id)] for an id that is not a string. *)
Variable toString : JSValue -> string.
(** The draws of [Math.random] behind [generateObjectId]. *)
Variable random : nat -> nat.

(** [findAndModify(id, fn)] *)
Definition findAndModify (id : JSValue) (fn : Callback) : Returned :=
  let id := match id with JString s => s | _ => toString id end in
  if negb (isFunction fn) then Reject "fn argument must be a function"
  else Delegate (adapter_findAndModify id fn).

(** [batch(docs)] with an array. *)
Definition batch (docs : list Entity) : Returned := Delegate (adapter_batch docs).

(** [save(doc)] *)
Definition save (doc : SaveArgument) : Returned :=
  match doc with
  | Documents docs => batch docs
  | Nothing => ResolveNull
  | Document doc =>
      let id := if truthy (_id doc) then _id doc
                else Some (generateObjectId random 24) in
      Delegate (adapter_save (mkEntity id (_kmd doc) (attributes doc)))
  end.
End Methods.

(** The [switch] of the constructor: the class an element of [Adapters]
    stands for. *)
Definition resolve (x : Adapter) : option AdapterClass :=
  match x with
  | StoreAdapter_IndexedDB => Some IndexedDBAdapter
  | StoreAdapter_LocalStorage => Some LocalStorageAdapter
  | StoreAdapter_WebSQL => Some WebSQLAdapter
  | OtherName _ => None
  | Class a => Some a
  end.

End Store.

(** ** The WebSQL adapter: [execute] and [clearAll] *)

Module WebSQL.
Import Pattern.

Definition MASTER_TABLE_NAME : string := "sqlite_master".

(** A database: its tables by name, each a list of rows (key, value). *)
Record Database := mkDatabase { db_tables : gmap string (list (string * string)) }.

(** *** Strings *)

Definition quote : string := String (ascii_of_nat 34) EmptyString.

Definition strip_prefix (p s : string) : option string :=
  if String.prefix p s
  then Some (String.substring (String.length p) (String.length s - String.length p) s)
  else None.

Definition strip_suffix (p s : string) : option string :=
  let n := String.length s - String.length p in
  if (String.length p <=? String.length s)%nat
     && String.eqb (String.substring n (String.length p) s) p
  then Some (String.substring 0 n s)
  else None.

(** [s.replace(pattern, replacement)] with a string pattern: the first
    occurrence only. *)
Definition replace (pattern replacement s : string) : string :=
  match String.index 0 pattern s with
  | Some n =>
      String.substring 0 n s +:+ replacement
      +:+ String.substring (n + String.length pattern)
           (String.length s - (n + String.length pattern)) s
  | None => s
  end.

(** *** The SQL statements of the adapter, as the engine reads them *)

Inductive Statement :=
  | CreateTable (table : string)
  | SelectNames (table : string)
  | DropTable (table : string).

(** A table name in a statement: a double-quoted identifier. *)
Definition identifier (s : string) : option string :=
  match strip_prefix quote s with
  | Some rest =>
      match strip_suffix quote rest with
      | Some name => if String.eqb name EmptyString then None else Some name
      | None => None
      end
  | None => None
  end.

Definition create_prefix : string := "CREATE TABLE IF NOT EXISTS ".
Definition create_suffix : string :=
  " (key BLOB PRIMARY KEY NOT NULL, value BLOB NOT NULL)".
Definition select_names_prefix : string := "SELECT name AS value FROM ".
Definition select_names_suffix : string := " WHERE type = ?".
Definition drop_prefix : string := "DROP TABLE IF EXISTS '".
Definition drop_suffix : string := "'".

Definition between (p q s : string) : option string :=
  match strip_prefix p s with
  | Some rest => strip_suffix q rest
  | None => None
  end.

(** The statements [clear] and [clearAll] can send, and the CREATE of a
    write transaction; any other text, such as one that still holds a
    placeholder, is a syntax error ([None]). *)
Definition parse (sql : string) : option Statement :=
  match between create_prefix create_suffix sql with
  | Some t => CreateTable <$> identifier t
  | None =>
      match between select_names_prefix select_names_suffix sql with
      | Some t => SelectNames <$> identifier t
      | None =>
          match between drop_prefix drop_suffix sql with
          | Some t => Some (DropTable t)
          | None => None
          end
      end
  end.

Record ResultSet := mkResultSet {
  rowsAffected : nat;
  rows : list string
}.

(** [tx.executeSql(sql, parameters)]: the database afterwards and the
    result set, or [None] when the statement fails. *)
Definition executeSql (db : Database) (sql : string) (parameters : list string)
  : option (Database * ResultSet) :=
  match parse sql with
  | Some (CreateTable t) =>
      match db_tables db !! t with
      | Some _ => Some (db, mkResultSet 0 [])
      | None => Some (mkDatabase (<[t := []]> (db_tables db)), mkResultSet 0 [])
      end
  | Some (SelectNames t) =>
      if String.eqb t MASTER_TABLE_NAME then
        match parameters with
        | [type] =>
            Some (db, mkResultSet 0
                        (if String.eqb type "table"
                         then fst <$> map_to_list (db_tables db) else []))
        | _ => None
        end
      else None
  | Some (DropTable t) =>
      if String.eqb t MASTER_TABLE_NAME then None
      else Some (mkDatabase (delete t (db_tables db)), mkResultSet 0 [])
  | None => None
  end.

(** *** [execute] *)

Record Response := mkResponse {
  rowCount : nat;
  result : list string
}.

(** The state of a promise once the event loop is idle. *)
Inductive Promise (A : Type) :=
  | Resolved (value : A)
  | Rejected
  | Pending.
Arguments Resolved {A}.
Arguments Rejected {A}.
Arguments Pending {A}.

(** The statements of one transaction, in order; a failing statement
    fails the transaction. *)
Fixpoint run (escapedTableName : string) (db : Database)
    (sqlQueries : list (string * list string)) : option (Database * list Response) :=
  match sqlQueries with
  | [] => Some (db, [])
  | (sqlQuery, parameters) :: rest =>
      match executeSql db (replace "#{table}" escapedTableName sqlQuery) parameters with
      | Some (db, resultSet) =>
          match run escapedTableName db rest with
          | Some (db, responses) =>
              Some (db, mkResponse (rowsAffected resultSet) (rows resultSet) :: responses)
          | None => None
          end
      | None => None
      end
  end.

(** [execute(dbName, tableName, sqlQueries, write)].  The transaction's
    error callback is [reject]; no code path calls the [resolve] of the
    promise that [execute] returns, so a transaction that succeeds leaves
    it pending.  A failed transaction is rolled back. *)
Definition execute (db : Database) (tableName : string)
    (sqlQueries : list (string * list string)) (write : bool)
  : Database * Promise Response :=
  let escapedTableName := quote +:+ tableName +:+ quote in
  let isMaster := String.eqb tableName MASTER_TABLE_NAME in
  let created :=
    if write && negb isMaster
    then fst <$> executeSql db (create_prefix +:+ escapedTableName +:+ create_suffix) []
    else Some db in
  match created with
  | Some db1 =>
      match run escapedTableName db1 sqlQueries with
      | Some (db2, _) => (db2, Pending)
      | None => (db, Rejected)
      end
  | None => (db, Rejected)
  end.

(** The DROP statements [clearAll] builds from the table names. *)
Definition drop_queries (tables : list string) : list (string * list string) :=
  (fun table => (drop_prefix +:+ table +:+ drop_suffix, []))
    <$> filter (fun table => validCollectionRegex_test table = true) tables.

(** [clearAll(dbName)] *)
Definition clearAll (db : Database) : Database * Promise bool :=
  match execute db MASTER_TABLE_NAME
          [("SELECT name AS value FROM #{collection} WHERE type = ?", ["table"])]
          false with
  | (db, Resolved response) =>
      let tables := result response in
      if (0 <? length tables)%nat then
        match execute db MASTER_TABLE_NAME (drop_queries tables) true with
        | (db, Resolved _) => (db, Resolved true)
        | (db, Rejected) => (db, Rejected)
        | (db, Pending) => (db, Pending)
        end
      else (db, Resolved true)
  | (db, Rejected) => (db, Rejected)
  | (db, Pending) => (db, Pending)
  end.
(** [clear(dbName, tableName)] *)
Definition clear (db : Database) (tableName : string) : Database * Promise bool :=
  match execute db MASTER_TABLE_NAME
          [(drop_prefix +:+ tableName +:+ drop_suffix, [])] true with
  | (db, Resolved _) => (db, Resolved true)
  | (db, Rejected) => (db, Rejected)
  | (db, Pending) => (db, Pending)
  end.

End WebSQL.

(** ** Devices, remotes and databases used to run the model *)

Module Examples.
Import Sync.

Definition empty_device : Device := mkDevice None ∅ ∅ 0.

Definition generateObjectId (n : nat) : string := "local_5f1c".

Definition save (d : Device) (entity : Entity) : Device :=
  fst (createSaveOperation d (Some "books") (One (Some entity))).

Definition remove (d : Device) (entity : Entity) : Device :=
  fst (createDeleteOperation d (Some "books") (One (Some entity))).

Definition known (id v : string) : Entity := mkEntity (Some id) None [("v", v)].

Definition created (id v : string) : Entity :=
  mkEntity (Some id) (Some (mkKmd (Some true) [])) [("v", v)].

(** A remote that answers every DELETE, POST and PUT with [error] and
    every GET with [answer]. *)
Definition refusing (error : KinveyError) (answer : Response)
    (_ : list NetworkRequest) (request : NetworkRequest) : Response :=
  match method request with
  | GET => answer
  | _ => Fail error
  end.

(** A remote that stores what it is sent; a POST gets the id [srv7]. *)
Definition accepting (_ : list NetworkRequest) (request : NetworkRequest) : Response :=
  match method request, body request with
  | POST, Some e => Ok (mkEntity (Some "srv7") (_kmd e) (attributes e))
  | _, Some e => Ok e
  | _, None => Ok (mkEntity None None [])
  end.

(** Two schedules: the handler of the first outstanding task runs next, or
    that of the last one. *)
Definition first_outstanding (_ : list Task) : nat := 0.


(** Saves of [a], [b] and [a] again: keys 1, 2, 3. *)
Definition device_aba : Device :=
  save (save (save empty_device (known "a" "1")) (known "b" "1")) (known "a" "2").

Definition device_delete_e : Device := remove empty_device (known "e" "1").

Definition device_delete_local : Device := remove empty_device (created "local_ab" "2").

Definition device_save_c : Device := save empty_device (known "c" "1").

Definition device_save_local : Device := save empty_device (created "local_ab" "2").

Definition database_books : WebSQL.Database :=
  WebSQL.mkDatabase
    (<["books" := [("1", "one")]]> (<["__WebKitDatabaseInfoTable__" := []]> ∅)).

(** Two saves of [a]: keys 1 and 2. *)
Definition device_aa : Device :=
  save (save empty_device (known "a" "1")) (known "a" "2").

(** A sync table with a row whose method is neither DELETE, POST nor PUT. *)
Definition device_patch : Device :=
  mkDevice (Some 1%Z)
           {[ 1%Z := mkSyncEntity 1%Z "p" "books" PATCH (known "p" "1") ]} ∅ 0.

(** The device once the POST of [local_ab] has failed with a 500. *)
Definition device_after_failed_create : Device :=
  match Sync.push (refusing (OtherError "500") (Fail NotFoundError))
                  generateObjectId first_outstanding device_save_local None with
  | Some (d, _, _) => d
  | None => empty_device
  end.

(** Draws of [Math.random] for [Store.generateObjectId]. *)
Definition draws (i : nat) : nat := (i * 7) mod 16.

(** Saves of [a] and [b]: keys 1 and 2. *)
Definition device_ab : Device :=
  save (save empty_device (known "a" "1")) (known "b" "1").

(** The query that selects the sync entities of [a]. *)
Definition only_a : option Query :=
  Some (fun row => String.eqb (entityId row) "a").

(** A browser in which only WebSQL is supported. *)
Definition only_websql (a : Store.AdapterClass) : bool :=
  match a with Store.WebSQLAdapter => true | _ => false end.

(** The device with the collection tables [t]. *)
Definition with_tables (d : Device) (t : gmap (string * string) Entity) : Device :=
  mkDevice (syncKey d) (sync_table d) t (generated d).

(** [local_ab] was created on the device, in [books], and [k] is saved in
    [authors]: keys 1 and 2; both entities are in their collection tables. *)
Definition device_two_collections : Device :=
  with_tables
    (fst (createSaveOperation (save empty_device (created "local_ab" "2"))
                              (Some "authors") (One (Some (known "k" "1")))))
    (<[("books", "local_ab") := created "local_ab" "2"]>
       (<[("authors", "k") := known "k" "0"]> ∅)).

(** A DELETE of [e] in [books] and a save of [k] in [authors]: keys 1
    and 2. *)
Definition device_delete_and_save : Device :=
  with_tables
    (fst (createSaveOperation (remove empty_device (known "e" "1"))
                              (Some "authors") (One (Some (known "k" "1")))))
    (<[("books", "e") := known "e" "1"]> ∅).

(** A row with an unknown method in [books] and a save of [k] in [authors]. *)
Definition device_patch_and_save : Device :=
  fst (createSaveOperation device_patch (Some "authors") (One (Some (known "k" "1")))).


End Examples.

(** * Properties *)

Import Lodash Sync.

(** ** Ordering and deduplication *)

Section LodashFacts.
Context {A : Type}.
Implicit Types (k : A -> Z) (l : list A).

Lemma insert_desc_Permutation k x l : insert_desc k x l ≡ₚ x :: l.
Proof.
  induction l as [|y l IH]; simpl; [done|].
  destruct (k y <=? k x)%Z; [done|].
  rewrite IH. apply Permutation_swap.
Qed.

Lemma orderBy_desc_Permutation k l : orderBy_desc k l ≡ₚ l.
Proof.
  induction l as [|x l IH]; simpl; [done|].
  rewrite insert_desc_Permutation. by rewrite IH.
Qed.

Lemma baseSortedUniq_sublist {B} `{EqDecision B} (f : A -> B) seen l :
  baseSortedUniq f seen l `sublist_of` l.
Proof.
  revert seen. induction l as [|x l IH]; intros seen; simpl; [done|].
  destruct seen as [s|].
  - destruct (decide (f x = s)).
    + by apply sublist_cons.
    + by apply sublist_skip.
  - by apply sublist_skip.
Qed.

Lemma coalesce_NoDup {B C} `{EqDecision B} (f : A -> B) (g : A -> C) k l :
  NoDup (g <$> l) -> NoDup (g <$> sortedUniqBy f (orderBy_desc k l)).
Proof.
  intros Hnd. unfold sortedUniqBy.
  apply (sublist_NoDup _ (g <$> orderBy_desc k l)).
  - by rewrite orderBy_desc_Permutation.
  - apply fmap_sublist, baseSortedUniq_sublist.
Qed.

Lemma coalesce_elem_of {B} `{EqDecision B} (f : A -> B) k l x :
  x ∈ sortedUniqBy f (orderBy_desc k l) -> x ∈ l.
Proof.
  intros Hx. rewrite <- (orderBy_desc_Permutation k l).
  eapply elem_of_sublist; [exact Hx|]. apply baseSortedUniq_sublist.
Qed.

(** All elements share one value of [f]: a single element survives. *)
Lemma baseSortedUniq_constant {B} `{EqDecision B} (f : A -> B) b l :
  Forall (fun x => f x = b) l -> baseSortedUniq f (Some b) l = [].
Proof.
  induction 1 as [|x l Hx _ IH]; simpl; [done|].
  by rewrite decide_True.
Qed.

Lemma sortedUniqBy_constant {B} `{EqDecision B} (f : A -> B) b l :
  l <> [] -> Forall (fun x => f x = b) l -> length (sortedUniqBy f l) = 1.
Proof.
  destruct l as [|x l]; [done|]. intros _ Hall.
  apply Forall_cons in Hall as [Hx Hall]. unfold sortedUniqBy. simpl.
  rewrite Hx. by rewrite baseSortedUniq_constant.
Qed.
End LodashFacts.

Lemma NoDup_fmap_eq {A B} (f : A -> B) (l : list A) x y :
  NoDup (f <$> l) -> x ∈ l -> y ∈ l -> f x = f y -> x = y.
Proof.
  intros Hnd Hx Hy Hf.
  apply list_elem_of_lookup in Hx as [i Hi].
  apply list_elem_of_lookup in Hy as [j Hj].
  assert (i = j) as ->.
  { eapply NoDup_lookup; [exact Hnd| |].
    - rewrite list_lookup_fmap, Hi. reflexivity.
    - rewrite list_lookup_fmap, Hj. simpl. by rewrite Hf. }
  congruence.
Qed.

(** ** Numbers *)

Section Numbers.
Local Open Scope Z_scope.

Lemma to_double_exact z : - 2 ^ 53 <= z <= 2 ^ 53 -> to_double z = z.
Proof.
  intros Hz. unfold to_double.
  destruct (Z.ltb_spec (Z.abs z) (2 ^ 53)) as [Hlt|Hge]; [done|].
  assert (z = 2 ^ 53 \/ z = - 2 ^ 53) as [-> | ->] by lia; by vm_compute.
Qed.

Lemma js_add_exact a b : - 2 ^ 53 <= a + b <= 2 ^ 53 -> js_add a b = a + b.
Proof. apply to_double_exact. Qed.

(** Above 2^53 the next integer is not a double: adding 1 gives 2^53 again. *)
Lemma js_add_at_the_limit : js_add (2 ^ 53) 1 = 2 ^ 53.
Proof. by vm_compute. Qed.
End Numbers.

(** ** The push engine: what a callback and a handler change *)

Section EngineFacts.
Variable remote : list NetworkRequest -> NetworkRequest -> Response.
Variable generateObjectId : nat -> string.
Variable schedule : list Task -> nat.

Abbreviation local_put := (Sync.local_put generateObjectId).
Abbreviation saved_as := (Sync.saved_as generateObjectId).
Abbreviation repair := (Sync.repair remote).
Abbreviation step := (Sync.step remote generateObjectId).
Abbreviation dispatch := (Sync.dispatch remote).
Abbreviation dispatchAll := (Sync.dispatchAll remote).
Abbreviation run := (Sync.run remote generateObjectId schedule).
Abbreviation syncAll := (Sync.syncAll remote generateObjectId schedule).
Abbreviation follows := (Sync.follows generateObjectId).

Lemma local_put_eq eng c doc :
  local_put eng c doc =
    (mkEngine (heap eng) (failedSyncEntities eng) (sent eng)
       (<[(c, default EmptyString (_id (saved_as (drawn eng) doc)))
          := saved_as (drawn eng) doc]> (local eng))
       (if truthy (_id doc) then drawn eng else S (drawn eng)),
     saved_as (drawn eng) doc).
Proof. unfold Sync.local_put, Sync.saved_as. by destruct (truthy (_id doc)). Qed.

Lemma saved_as_id n doc id :
  _id doc = Some id -> id <> EmptyString -> saved_as n doc = doc.
Proof.
  intros Hid Hne. unfold Sync.saved_as. rewrite Hid. simpl.
  by destruct (String.eqb_spec id EmptyString).
Qed.

Lemma read_lookup eng l e : heap eng !! l = Some e -> read eng l = e.
Proof. intros H. by apply list_lookup_total_correct. Qed.

Lemma read_write eng l e x : heap eng !! l = Some e -> read (write eng l x) l = x.
Proof.
  intros H. unfold read, write. simpl.
  apply list_lookup_total_correct, list_lookup_insert_eq.
  by eapply lookup_lt_Some.
Qed.

Lemma write_write_heap eng l e x y :
  heap eng !! l = Some e ->
  heap (write (write eng l x) l y) !! l = Some y.
Proof.
  intros H. unfold write. simpl. apply list_lookup_insert_eq.
  rewrite length_insert. by eapply lookup_lt_Some.
Qed.

(** *** The request built for a sync entity whose object is [e] *)

Lemma build_request_delete eng s e :
  heap eng !! entity s = Some e -> state_method s = DELETE ->
  build_request eng s =
    (eng, Some (mkRequest DELETE (EntityPath (collection s) (render (_id e))) None)).
Proof.
  intros He Hm. unfold build_request. by rewrite Hm, (read_lookup _ _ _ He).
Qed.

Lemma build_request_known eng s e :
  heap eng !! entity s = Some e ->
  state_method s = POST \/ state_method s = PUT ->
  isLocal (new_Metadata e) = false ->
  build_request eng s =
    (eng, Some (mkRequest PUT (EntityPath (collection s) (render (_id e))) (Some e))).
Proof.
  intros He Hm Hl. unfold build_request.
  rewrite (read_lookup _ _ _ He), Hl. by destruct Hm as [-> | ->].
Qed.

Lemma build_request_local eng s e :
  heap eng !! entity s = Some e ->
  state_method s = POST \/ state_method s = PUT ->
  isLocal (new_Metadata e) = true ->
  build_request eng s =
    (write (write eng (entity s) (delete_id e)) (entity s) (stripped e),
     Some (mkRequest POST (CollectionPath (collection s)) (Some (stripped e)))).
Proof.
  intros He Hm Hl. unfold build_request.
  rewrite (read_lookup _ _ _ He), Hl.
  rewrite (read_write _ _ _ _ He).
  assert (heap (write eng (entity s) (delete_id e)) !! entity s = Some (delete_id e)) as He'.
  { unfold write. simpl. apply list_lookup_insert_eq. by eapply lookup_lt_Some. }
  rewrite (read_write _ _ _ _ He').
  by destruct Hm as [-> | ->].
Qed.

Lemma build_request_method eng s eng1 request :
  build_request eng s = (eng1, Some request) ->
  state_method s = DELETE \/ state_method s = POST \/ state_method s = PUT.
Proof. unfold build_request. destruct (state_method s); naive_solver. Qed.

Lemma build_request_None eng s eng1 :
  build_request eng s = (eng1, None) ->
  eng1 = eng /\
  state_method s <> DELETE /\ state_method s <> POST /\ state_method s <> PUT.
Proof.
  unfold build_request.
  destruct (state_method s); try destruct (isLocal _); naive_solver.
Qed.

Lemma build_request_sent eng s :
  sent (fst (build_request eng s)) = sent eng /\
  local (fst (build_request eng s)) = local eng /\
  failedSyncEntities (fst (build_request eng s)) = failedSyncEntities eng /\
  drawn (fst (build_request eng s)) = drawn eng.
Proof.
  unfold build_request.
  destruct (state_method s); simpl; auto; by destruct (isLocal _).
Qed.

Lemma build_request_collection eng s eng1 request :
  build_request eng s = (eng1, Some request) ->
  collection_of (pathname request) = collection s.
Proof.
  unfold build_request.
  destruct (state_method s); try destruct (isLocal _); intros [= <- <-]; done.
Qed.

Lemma build_request_heap_other eng s l :
  l <> entity s -> heap (fst (build_request eng s)) !! l = heap eng !! l.
Proof.
  intros Hl. unfold build_request.
  destruct (state_method s); simpl; auto; destruct (isLocal _); simpl; auto;
    by rewrite !list_lookup_insert_ne.
Qed.

Lemma build_request_heap_own eng s e :
  heap eng !! entity s = Some e ->
  heap (fst (build_request eng s)) !! entity s
    = Some (after_dispatch (state_method s) e).
Proof.
  intros He. unfold after_dispatch.
  destruct (isLocal (new_Metadata e)) eqn:Hl.
  - destruct (state_method s) eqn:Hm;
      try (unfold build_request; by rewrite Hm);
      (rewrite (build_request_local _ _ _ He) by auto);
      by apply (write_write_heap eng (entity s) e).
  - destruct (state_method s) eqn:Hm;
      try (unfold build_request; by rewrite Hm);
      by rewrite (build_request_known _ _ _ He) by auto.
Qed.

Lemma build_request_heap_length eng s :
  length (heap (fst (build_request eng s))) = length (heap eng).
Proof.
  unfold build_request.
  destruct (state_method s); simpl; auto; destruct (isLocal _); simpl; auto;
    by rewrite !length_insert.
Qed.

(** *** A callback *)

Lemma dispatch_eq eng s :
  dispatch eng s =
    let metadata := new_Metadata (read eng (entity s)) in
    let originalId := _id (read eng (entity s)) in
    let eng1 := fst (build_request eng s) in
    match snd (build_request eng s) with
    | Some request =>
        (mkEngine (heap eng1) (failedSyncEntities eng) (sent eng ++ [request])
                  (local eng) (drawn eng),
         mkTask s metadata originalId (Dispatched (remote (sent eng) request)))
    | None =>
        (eng, mkTask s metadata originalId
                     (Settled (mkResult originalId (Ref (entity s))
                                        (Some (SyncError unrecognized)))))
    end.
Proof.
  unfold Sync.dispatch.
  destruct (build_request_sent eng s) as (Hs & Hl & Hf & Hd).
  destruct (build_request eng s) as [eng1 [request|]] eqn:Hb; simpl in *.
  - unfold execute. by rewrite Hs, Hl, Hf, Hd.
  - by destruct (build_request_None _ _ _ Hb) as [-> _].
Qed.

Lemma dispatch_frame eng s :
  failedSyncEntities (fst (dispatch eng s)) = failedSyncEntities eng /\
  local (fst (dispatch eng s)) = local eng /\
  drawn (fst (dispatch eng s)) = drawn eng /\
  length (heap (fst (dispatch eng s))) = length (heap eng) /\
  task_syncEntity (snd (dispatch eng s)) = s.
Proof.
  rewrite dispatch_eq. cbn zeta.
  pose proof (build_request_heap_length eng s) as Hlen.
  destruct (snd (build_request eng s)) as [request|] eqn:Hb; simpl; [done|].
  destruct (build_request eng s) as [eng1 o] eqn:Hb'. simpl in Hb. subst o.
  by destruct (build_request_None _ _ _ Hb') as [-> _].
Qed.

Lemma dispatch_heap_other eng s l :
  l <> entity s -> heap (fst (dispatch eng s)) !! l = heap eng !! l.
Proof.
  intros Hl. rewrite dispatch_eq. cbn zeta.
  pose proof (build_request_heap_other eng s l Hl) as H.
  by destruct (snd (build_request eng s)).
Qed.

Lemma dispatch_heap_own eng s e :
  heap eng !! entity s = Some e ->
  heap (fst (dispatch eng s)) !! entity s = Some (after_dispatch (state_method s) e).
Proof.
  intros He. rewrite dispatch_eq. cbn zeta.
  pose proof (build_request_heap_own eng s e He) as H.
  destruct (snd (build_request eng s)) as [request|] eqn:Hb; simpl; [done|].
  destruct (build_request eng s) as [eng1 o] eqn:Hb'. simpl in Hb. subst o.
  destruct (build_request_None _ _ _ Hb') as (-> & H1 & H2 & H3).
  rewrite He. unfold after_dispatch. by destruct (state_method s).
Qed.

Lemma dispatch_sent eng s :
  sent (fst (dispatch eng s)) =
    sent eng ++ match snd (build_request eng s) with
                | Some request => [request]
                | None => []
                end.
Proof.
  rewrite dispatch_eq. cbn zeta.
  destruct (snd (build_request eng s)); simpl; [done|by rewrite app_nil_r].
Qed.

Lemma dispatch_sent_other eng s c :
  collection s <> c ->
  requests_for c (sent (fst (dispatch eng s))) = requests_for c (sent eng).
Proof.
  intros Hc. rewrite dispatch_sent. unfold requests_for.
  rewrite filter_app.
  destruct (build_request eng s) as [eng1 [request|]] eqn:Hb; simpl;
    [|by rewrite app_nil_r].
  rewrite filter_cons_False; [by rewrite app_nil_r|].
  by rewrite (build_request_collection _ _ _ _ Hb).
Qed.

(** *** A handler *)

Lemma repair_eq eng t error :
  repair eng t error =
    let get := mkRequest GET (EntityPath (collection (task_syncEntity t))
                                         (render (task_originalId t))) None in
    (mkEngine (heap eng) (failedSyncEntities eng) (sent eng ++ [get])
              (local eng) (drawn eng),
     proceed t (Repairing error (remote (sent eng) get))).
Proof. reflexivity. Qed.

Ltac step_cases t :=
  unfold Sync.step;
  destruct (stage t) as [[data|error]|error [doc|err]|saved|r]; simpl;
  [destruct (state_method (task_syncEntity t)); simpl;
   rewrite ?local_put_eq; simpl;
   try destruct (isLocal (task_metadata t)); simpl
  |destruct (state_method (task_syncEntity t)); simpl;
   destruct error; simpl;
   try destruct (isLocal (task_metadata t)); simpl
  |rewrite ?local_put_eq; simpl
  |
  |
  |].

Lemma step_closure eng t :
  task_syncEntity (snd (step eng t)) = task_syncEntity t /\
  task_metadata (snd (step eng t)) = task_metadata t /\
  task_originalId (snd (step eng t)) = task_originalId t.
Proof. step_cases t; done. Qed.

Lemma step_heap eng t : heap (fst (step eng t)) = heap eng.
Proof. step_cases t; done. Qed.

Lemma step_failed eng t :
  failedSyncEntities (fst (step eng t)) =
    if reinstates t then failedSyncEntities eng ++ [task_syncEntity t]
    else failedSyncEntities eng.
Proof. unfold reinstates. step_cases t; done. Qed.

Lemma step_sent eng t :
  sent (fst (step eng t)) =
    if repairs t
    then sent eng ++ [mkRequest GET (EntityPath (collection (task_syncEntity t))
                                                (render (task_originalId t))) None]
    else sent eng.
Proof. unfold repairs. step_cases t; done. Qed.

Lemma step_handled eng t :
  is_settled t = false -> handled (snd (step eng t)) = true.
Proof. unfold is_settled, handled. step_cases t; done. Qed.

Lemma step_weight eng t :
  is_settled t = false -> weight (snd (step eng t)) < weight t.
Proof. unfold is_settled, weight. step_cases t; (done || lia). Qed.

Lemma step_local_other eng t c :
  collection (task_syncEntity t) <> c ->
  agree_on c (local (fst (step eng t))) (local eng).
Proof.
  intros Hc x. step_cases t; try done;
    rewrite ?lookup_delete_ne, ?lookup_insert_ne by congruence; done.
Qed.
End EngineFacts.

(** ** The handlers of a batch, in any order *)

Section RunFacts.
Variable remote : list NetworkRequest -> NetworkRequest -> Response.
Variable generateObjectId : nat -> string.
Variable schedule : list Task -> nat.

Abbreviation saved_as := (Sync.saved_as generateObjectId).
Abbreviation step := (Sync.step remote generateObjectId).
Abbreviation dispatch := (Sync.dispatch remote).
Abbreviation dispatchAll := (Sync.dispatchAll remote).
Abbreviation run := (Sync.run remote generateObjectId schedule).
Abbreviation syncAll := (Sync.syncAll remote generateObjectId schedule).
Abbreviation follows := (Sync.follows generateObjectId).
Abbreviation tracks := (Sync.tracks remote generateObjectId).

Lemma follows_refl t0 : fresh t0 -> follows t0 (stage t0).
Proof. unfold Sync.follows, fresh. by destruct (stage t0). Qed.

Lemma step_follows eng t0 t :
  task_syncEntity t = task_syncEntity t0 ->
  task_metadata t = task_metadata t0 ->
  task_originalId t = task_originalId t0 ->
  follows t0 (stage t) -> follows t0 (stage (snd (step eng t))).
Proof.
  intros Hs Hm Ho. unfold Sync.follows, Sync.step. rewrite Hs, Hm, Ho.
  destruct (stage t0) as [r0|? ?|?|r0]; [|done|done|intros H; by rewrite H].
  destruct (stage t) as [r|error rg|saved|r] eqn:Hst; simpl; rewrite ?Hst.
  - intros ->.
    destruct (state_method (task_syncEntity t0)) eqn:Hmeth; simpl;
      destruct r0 as [data|error]; simpl;
      rewrite ?local_put_eq; simpl;
      try destruct (isLocal (task_metadata t0)) eqn:Hl; simpl;
      try destruct (instanceof_InsufficientCredentialsError error); simpl;
      rewrite ?Hmeth; try done;
      try (rewrite decide_False by done); eauto 10.
  - by intros ->.
  - intros (data & n & -> & Hmeth & Hl & ->).
    rewrite decide_False by done. eauto.
  - done.
Qed.

Lemma outstanding_elem tasks j :
  j ∈ outstanding tasks <-> exists t, tasks !! j = Some t /\ is_settled t = false.
Proof.
  unfold outstanding. rewrite list_elem_of_filter, elem_of_seq. split.
  - intros [H _]. destruct (tasks !! j) as [t|]; [|done].
    injection H as H. eauto.
  - intros (t & Ht & Hs). rewrite Ht. simpl. rewrite Hs. split; [done|].
    apply lookup_lt_Some in Ht. lia.
Qed.

Lemma outstanding_pick tasks n j :
  outstanding tasks !! (n mod length (outstanding tasks)) = Some j ->
  exists t, tasks !! j = Some t /\ is_settled t = false.
Proof. intros H. apply outstanding_elem. by eapply list_elem_of_lookup_2. Qed.

Lemma outstanding_none tasks n :
  outstanding tasks !! (n mod length (outstanding tasks)) = None ->
  Forall (fun t => is_settled t = true) tasks.
Proof.
  intros H. apply Forall_forall. intros t Ht.
  destruct (is_settled t) eqn:Hs; [done|]. exfalso.
  apply list_elem_of_lookup in Ht as [j Hj].
  assert (j ∈ outstanding tasks) as Hin by (apply outstanding_elem; eauto).
  apply lookup_ge_None in H.
  assert (0 < length (outstanding tasks)).
  { destruct (outstanding tasks); [by apply elem_of_nil in Hin|simpl; lia]. }
  pose proof (Nat.mod_upper_bound n (length (outstanding tasks))). lia.
Qed.

(** A property of the engine and the tasks that every handler keeps holds
    when the handlers have run. *)
Lemma run_invariant (I : Engine -> list Task -> Prop) :
  (forall eng tasks j t,
      I eng tasks -> tasks !! j = Some t -> is_settled t = false ->
      I (fst (step eng t)) (<[j := snd (step eng t)]> tasks)) ->
  forall fuel eng tasks,
    I eng tasks -> I (fst (run fuel eng tasks)) (snd (run fuel eng tasks)).
Proof.
  intros Hstep. induction fuel as [|fuel IH]; intros eng tasks HI; [done|].
  cbn [Sync.run].
  destruct (outstanding tasks !! _) as [j|] eqn:Hj; [|done].
  destruct (outstanding_pick _ _ _ Hj) as (t & Ht & Hs). rewrite Ht.
  specialize (Hstep eng tasks j t HI Ht Hs).
  destruct (step eng t) as [eng' t']. by apply IH.
Qed.

Lemma sum_list_with_insert {A} (f : A -> nat) (l : list A) j x y :
  l !! j = Some x ->
  sum_list_with f (<[j := y]> l) + f x = sum_list_with f l + f y.
Proof.
  revert j. induction l as [|a l IH]; intros [|j] H; simpl in *; try done.
  - injection H as ->. lia.
  - specialize (IH j H). lia.
Qed.

(** With a handler budget of two per task every task settles. *)
Lemma run_settles fuel eng tasks :
  sum_list_with weight tasks <= fuel ->
  Forall (fun t => is_settled t = true) (snd (run fuel eng tasks)).
Proof.
  revert eng tasks. induction fuel as [|fuel IH]; intros eng tasks Hw; cbn [Sync.run].
  - apply Forall_forall. intros t Ht. simpl.
    pose proof (sum_list_with_in _ weight _ Ht) as Hle.
    unfold weight, is_settled in *. destruct (stage t); simpl in *; (done || lia).
  - destruct (outstanding tasks !! _) as [j|] eqn:Hj;
      [|by eapply outstanding_none].
    destruct (outstanding_pick _ _ _ Hj) as (t & Ht & Hs). rewrite Ht.
    pose proof (step_weight remote generateObjectId eng t Hs) as Hlt.
    pose proof (sum_list_with_insert weight tasks j t (snd (step eng t)) Ht) as Hsum.
    destruct (step eng t) as [eng' t']. simpl in *. apply IH. lia.
Qed.

Lemma weight_le_2 tasks : sum_list_with weight tasks <= 2 * length tasks.
Proof.
  induction tasks as [|t tasks IH]; simpl; [lia|].
  assert (weight t <= 2) by (unfold weight; destruct (stage t); lia). lia.
Qed.

Lemma results_settled tasks :
  Forall (fun t => is_settled t = true) tasks ->
  exists rs, results tasks = Some rs /\
             Forall2 (fun t r => stage t = Settled r) tasks rs.
Proof.
  intros Hall. unfold results.
  induction Hall as [|t tasks Ht _ (rs & Hrs & H2)].
  - exists []. split; [done|constructor].
  - unfold is_settled in Ht. destruct (stage t) as [| | |r] eqn:Hst; try done.
    exists (r :: rs). split; [|by constructor].
    apply mapM_Some. constructor; [by rewrite Hst|]. by apply mapM_Some.
Qed.

Abbreviation same_task := (Sync.same_task generateObjectId).

Lemma same_task_refl t0 : fresh t0 -> same_task t0 t0.
Proof. intros H. unfold Sync.same_task. pose proof (follows_refl t0 H). naive_solver. Qed.

Lemma same_task_diag tasks0 : Forall fresh tasks0 -> Forall2 same_task tasks0 tasks0.
Proof.
  intros H. apply Forall_Forall2_diag. eapply Forall_impl; [exact H|].
  apply same_task_refl.
Qed.

Lemma same_task_eq t0 t : same_task t0 t -> handled t = false -> t = t0.
Proof.
  intros (Hs & Hm & Ho & _ & Hst) Hh. specialize (Hst Hh).
  destruct t, t0. simpl in *. congruence.
Qed.

Lemma step_same_task eng t0 t :
  same_task t0 t -> is_settled t = false -> same_task t0 (snd (step eng t)).
Proof.
  intros (Hs & Hm & Ho & Hf & Hst) Hset.
  destruct (step_closure remote generateObjectId eng t) as (Hs' & Hm' & Ho').
  unfold Sync.same_task. rewrite Hs', Hm', Ho'.
  split; [done|]. split; [done|]. split; [done|].
  split; [by apply step_follows|].
  by rewrite step_handled.
Qed.

Lemma run_same_task fuel eng tasks0 :
  Forall fresh tasks0 ->
  Forall2 same_task tasks0 (snd (run fuel eng tasks0)).
Proof.
  intros Hfresh.
  apply (run_invariant (fun _ tasks => Forall2 same_task tasks0 tasks)).
  - intros eng' tasks j t H2 Ht Hset.
    destruct (Forall2_lookup_r _ _ _ _ _ H2 Ht) as (t0 & Ht0 & Hsame).
    rewrite <- (list_insert_id tasks0 j t0 Ht0).
    apply Forall2_insert; [done|]. by apply step_same_task.
  - by apply same_task_diag.
Qed.

Lemma run_heap fuel eng tasks : heap (fst (run fuel eng tasks)) = heap eng.
Proof.
  apply (run_invariant (fun eng' _ => heap eng' = heap eng)); [|done].
  intros eng' tasks' j t H _ _. by rewrite step_heap.
Qed.

(** The sync entities on [failedSyncEntities]: those that were there and
    those of the tasks whose first handler has run and pushes them. *)
Lemma run_failed fuel eng tasks0 x :
  Forall fresh tasks0 ->
  x ∈ failedSyncEntities (fst (run fuel eng tasks0)) <->
  x ∈ failedSyncEntities eng \/
  exists j t0 t,
    tasks0 !! j = Some t0 /\ snd (run fuel eng tasks0) !! j = Some t /\
    handled t = true /\ reinstates t0 = true /\ x = task_syncEntity t0.
Proof.
  intros Hfresh. revert x.
  apply (run_invariant (fun eng' tasks =>
    Forall2 same_task tasks0 tasks /\
    forall x, x ∈ failedSyncEntities eng' <->
      x ∈ failedSyncEntities eng \/
      exists j t0 t,
        tasks0 !! j = Some t0 /\ tasks !! j = Some t /\
        handled t = true /\ reinstates t0 = true /\ x = task_syncEntity t0)).
  - intros eng' tasks j t [H2 Hinv] Ht Hset.
    destruct (Forall2_lookup_r _ _ _ _ _ H2 Ht) as (t0 & Ht0 & Hsame).
    split.
    { rewrite <- (list_insert_id tasks0 j t0 Ht0).
      apply Forall2_insert; [done|]. by apply step_same_task. }
    assert (j < length tasks) as Hlt by (by eapply lookup_lt_Some).
    intros x. rewrite step_failed. split.
    + intros Hx.
      assert (x ∈ failedSyncEntities eng' \/
              (reinstates t = true /\ x = task_syncEntity t)) as [Hold|[Hr ->]].
      { destruct (reinstates t); [|by left].
        apply elem_of_app in Hx as [Hx|Hx%list_elem_of_singleton]; auto. }
      * apply Hinv in Hold as [Hold|(k & t0' & t' & Hk0 & Hk & Hh & Hr & ->)];
          [by left|].
        right. destruct (decide (k = j)) as [->|Hne].
        -- exists j, t0', (snd (step eng' t)).
           rewrite list_lookup_insert_eq by done.
           rewrite step_handled by done. done.
        -- exists k, t0', t'. by rewrite list_lookup_insert_ne.
      * right. exists j, t0, (snd (step eng' t)).
        rewrite list_lookup_insert_eq by done.
        rewrite step_handled by done.
        assert (handled t = false) as Hh.
        { unfold reinstates, handled in *. by destruct (stage t). }
        pose proof (same_task_eq _ _ Hsame Hh) as Heq. subst t. done.
    + intros [Hold|(k & t0' & t' & Hk0 & Hk & Hh & Hr & ->)].
      * assert (x ∈ failedSyncEntities eng') as Hx by (apply Hinv; by left).
        destruct (reinstates t); [apply elem_of_app; by left|done].
      * destruct (decide (k = j)) as [->|Hne].
        -- rewrite Ht0 in Hk0. injection Hk0 as <-.
           destruct (handled t) eqn:Hht.
           ++ assert (task_syncEntity t0 ∈ failedSyncEntities eng') as Hx.
              { apply Hinv. right. exists j, t0, t. done. }
              destruct (reinstates t); [apply elem_of_app; by left|done].
           ++ rewrite (same_task_eq _ _ Hsame Hht), Hr.
              apply elem_of_app. right. by left.
        -- rewrite list_lookup_insert_ne in Hk by done.
           assert (task_syncEntity t0' ∈ failedSyncEntities eng') as Hx.
           { apply Hinv. right. exists k, t0', t'. done. }
           destruct (reinstates t); [apply elem_of_app; by left|done].
  - split.
    + by apply same_task_diag.
    + intros x. split; [by left|].
      intros [H|(j & t0 & t & Hj0 & Hj & Hh & Hr & _)]; [done|].
      rewrite Hj0 in Hj. injection Hj as <-.
      unfold reinstates, handled in *. by destruct (stage t0).
Qed.

(** The log only grows, by at most one request per first handler. *)
Lemma run_sent fuel eng tasks0 :
  sent eng `prefix_of` sent (fst (run fuel eng tasks0)) /\
  length (sent (fst (run fuel eng tasks0))) <= length (sent eng) + length tasks0.
Proof.
  set (unhandled := fun t => if handled t then 0 else 1).
  assert (sum_list_with unhandled tasks0 <= length tasks0) as Hle.
  { clear. induction tasks0 as [|t l IH]; simpl; [lia|].
    unfold unhandled at 1. destruct (handled t); lia. }
  cut (sent eng `prefix_of` sent (fst (run fuel eng tasks0)) /\
       length (sent (fst (run fuel eng tasks0)))
         + sum_list_with unhandled (snd (run fuel eng tasks0))
       <= length (sent eng) + sum_list_with unhandled tasks0).
  { intros [H1 H2]. split; [done|lia]. }
  apply (run_invariant (fun eng' tasks =>
    sent eng `prefix_of` sent eng' /\
    length (sent eng') + sum_list_with unhandled tasks
      <= length (sent eng) + sum_list_with unhandled tasks0)); [|done].
  intros eng' tasks j t [Hp Hl] Ht Hset.
  pose proof (sum_list_with_insert unhandled tasks j t (snd (step eng' t)) Ht) as Hsum.
  rewrite step_sent.
  assert (unhandled (snd (step eng' t)) = 0) as H0
    by (unfold unhandled; by rewrite step_handled).
  destruct (repairs t) eqn:Hr.
  - assert (unhandled t = 1) as H1.
    { unfold unhandled, repairs, handled in *. by destruct (stage t). }
    split; [by apply prefix_app_r|]. rewrite length_app. simpl. lia.
  - split; [done|]. lia.
Qed.

(** A handler of a task of another collection leaves the requests for [c]
    and the rows of [c] as they are. *)
Lemma step_requests_other eng t c :
  collection (task_syncEntity t) <> c ->
  requests_for c (sent (fst (step eng t))) = requests_for c (sent eng).
Proof.
  intros Hc. rewrite step_sent. destruct (repairs t); [|done].
  unfold requests_for. rewrite filter_app, filter_cons_False; [|done].
  by rewrite app_nil_r.
Qed.

Lemma agree_on_trans c L1 L2 L3 :
  agree_on c L1 L2 -> agree_on c L2 L3 -> agree_on c L1 L3.
Proof. intros H1 H2 x. by rewrite H1. Qed.

Lemma agree_on_insert c k v L L' :
  agree_on c L L' -> agree_on c (<[k := v]> L) (<[k := v]> L').
Proof.
  intros H x. destruct (decide (k = (c, x))) as [->|Hne].
  - by rewrite !lookup_insert_eq.
  - by rewrite !lookup_insert_ne.
Qed.

Lemma agree_on_delete c k L L' :
  agree_on c L L' -> agree_on c (delete k L) (delete k L').
Proof.
  intros H x. destruct (decide (k = (c, x))) as [->|Hne].
  - by rewrite !lookup_delete_eq.
  - by rewrite !lookup_delete_ne.
Qed.

Lemma run_other fuel eng tasks c :
  Forall (fun t => collection (task_syncEntity t) <> c) tasks ->
  requests_for c (sent (fst (run fuel eng tasks))) = requests_for c (sent eng) /\
  agree_on c (local (fst (run fuel eng tasks))) (local eng).
Proof.
  intros Hall.
  apply (run_invariant (fun eng' tasks' =>
    Forall (fun t => collection (task_syncEntity t) <> c) tasks' /\
    requests_for c (sent eng') = requests_for c (sent eng) /\
    agree_on c (local eng') (local eng))); [|done].
  intros eng' tasks' j t (Hall' & Hreq & Hloc) Ht Hset.
  assert (collection (task_syncEntity t) <> c) as Hc.
  { rewrite Forall_forall in Hall'. apply Hall'. by eapply list_elem_of_lookup_2. }
  split; [|split].
  - apply Forall_insert; [done|].
    by rewrite (proj1 (step_closure remote generateObjectId eng' t)).
  - by rewrite step_requests_other.
  - eapply agree_on_trans; [by apply step_local_other|done].
Qed.
End RunFacts.
(** ** A task that is alone in its collection *)

Section Tracking.
Variable remote : list NetworkRequest -> NetworkRequest -> Response.
Variable generateObjectId : nat -> string.
Variable schedule : list Task -> nat.

Abbreviation saved_as := (Sync.saved_as generateObjectId).
Abbreviation step := (Sync.step remote generateObjectId).
Abbreviation run := (Sync.run remote generateObjectId schedule).
Abbreviation same_task := (Sync.same_task generateObjectId).
Abbreviation tracks := (Sync.tracks remote generateObjectId).

Lemma step_sent_app eng t :
  exists extra, sent (fst (step eng t)) = sent eng ++ extra.
Proof.
  rewrite step_sent. destruct (repairs t); [eauto|].
  exists []. by rewrite app_nil_r.
Qed.

Lemma step_tracks_other eng t t0 S0 L0 st :
  collection (task_syncEntity t) <> collection (task_syncEntity t0) ->
  tracks t0 S0 L0 st eng -> tracks t0 S0 L0 st (fst (step eng t)).
Proof.
  intros Hc [Hreq Hloc]. split; [by rewrite step_requests_other|].
  pose proof (step_local_other remote generateObjectId eng t _ Hc) as Hag.
  destruct (step_sent_app eng t) as [extra Hext].
  destruct st as [r|error rg|saved|r].
  - by eapply agree_on_trans.
  - destruct Hloc as (Hr & Hl & h & rest & Hs & Hrg).
    split; [done|]. split; [by eapply agree_on_trans|].
    exists h, (rest ++ extra). rewrite Hext, Hs. by rewrite <- app_assoc.
  - by eapply agree_on_trans.
  - destruct (repairs t0); [|by eapply agree_on_trans].
    destruct Hloc as (h & rest & Hs & Hl).
    exists h, (rest ++ extra). split; [rewrite Hext, Hs; by rewrite <- app_assoc|].
    destruct (remote h _) as [doc|err].
    + destruct Hl as [n Hl]. exists n. by eapply agree_on_trans.
    + by eapply agree_on_trans.
Qed.

Lemma requests_for_snoc c log r :
  requests_for c (log ++ [r]) =
    requests_for c log ++ (if decide (collection_of (pathname r) = c) then [r] else []).
Proof.
  unfold requests_for. rewrite filter_app.
  destruct (decide _) as [H|H];
    [by rewrite filter_cons_True by done|by rewrite filter_cons_False by done].
Qed.

Lemma step_repairing eng t error rg :
  stage t = Repairing error rg ->
  step eng t =
    (match rg with
     | Ok originalEntity =>
         fst (Sync.local_put generateObjectId eng
                (collection (task_syncEntity t)) originalEntity)
     | Fail _ => eng
     end,
     proceed t (Settled (mkResult (task_originalId t)
                                  (Ref (entity (task_syncEntity t))) (Some error)))).
Proof. intros H. unfold Sync.step. by rewrite H. Qed.

Lemma step_saved eng t saved :
  stage t = Saved saved ->
  step eng t =
    (local_delete eng (collection (task_syncEntity t)) (render (task_originalId t)),
     proceed t (Settled (mkResult (task_originalId t) (Val saved) None))).
Proof. intros H. unfold Sync.step. by rewrite H. Qed.

Lemma step_settled eng t r : stage t = Settled r -> step eng t = (eng, t).
Proof. intros H. unfold Sync.step. by rewrite H. Qed.

Lemma repairs_Ok t data : stage t = Dispatched (Ok data) -> repairs t = false.
Proof. intros H. unfold repairs. by rewrite H. Qed.

Lemma step_tracks_own eng t0 t S0 L0 :
  same_task t0 t -> tracks t0 S0 L0 (stage t) eng ->
  tracks t0 S0 L0 (stage (snd (step eng t))) (fst (step eng t)).
Proof.
  intros Hsame Htr.
  destruct (handled t) eqn:Hh.
  - destruct Hsame as (Hs & Hm & Ho & Hf & _).
    unfold Sync.tracks in *.
    set (c := collection (task_syncEntity t0)) in *.
    set (get := mkRequest GET (EntityPath c (render (task_originalId t0))) None) in *.
    destruct (stage t) as [r|error rg|saved|r] eqn:Hst; [by unfold handled in Hh; rewrite Hst in Hh| | |].
    + rewrite (step_repairing _ _ _ _ Hst). cbn [fst snd stage proceed].
      destruct Htr as (Hreq & Hrep & Hag & h & rest & Hsent & Hrg).
      rewrite Hrep in *. rewrite Hs. fold c.
      assert (sent (match rg with
                    | Ok originalEntity =>
                        fst (Sync.local_put generateObjectId eng c originalEntity)
                    | Fail _ => eng
                    end) = sent eng) as Hsame_sent.
      { destruct rg; [by rewrite local_put_eq|done]. }
      rewrite Hsame_sent. split; [done|].
      exists h, rest. split; [done|]. rewrite <- Hrg.
      destruct rg as [doc|err]; [|done].
      exists (drawn eng). rewrite local_put_eq. cbn [fst local].
      by apply agree_on_insert.
    + rewrite (step_saved _ _ _ Hst). cbn [fst snd stage proceed].
      destruct Htr as (Hreq & Hag).
      unfold Sync.follows in Hf.
      destruct (stage t0) as [r0| | |] eqn:Hst0; [|done|done|done].
      destruct Hf as (data & n & -> & Hmeth & Hl & ->).
      rewrite (repairs_Ok _ _ Hst0) in *.
      split; [done|]. unfold written in *. cbn [res_entity]. rewrite Hl.
      rewrite Hs, Ho. fold c. cbn [local local_delete].
      by apply agree_on_delete.
    + rewrite (step_settled _ _ _ Hst). cbn [fst snd]. by rewrite Hst.
  - pose proof (same_task_eq _ _ _ Hsame Hh) as ->. clear Hsame.
    unfold Sync.tracks in *.
    set (c := collection (task_syncEntity t0)) in *.
    set (get := mkRequest GET (EntityPath c (render (task_originalId t0))) None) in *.
    destruct (stage t0) as [r| | |] eqn:Hst;
      try (by unfold handled in Hh; rewrite Hst in Hh).
    destruct Htr as [Hreq Hag]. cbn [andb] in Hreq. rewrite app_nil_r in Hreq.
    unfold written in Hag.
    assert (collection_of (pathname get) = c) as Hget by done.
    unfold Sync.step. rewrite Hst. fold c.
    unfold repairs, written. rewrite Hst.
    destruct (state_method (task_syncEntity t0)) eqn:Hmeth;
      destruct r as [data|error]; cbn [fst snd stage proceed];
      rewrite ?local_put_eq; cbn [fst snd stage proceed];
      try destruct (isLocal (task_metadata t0)) eqn:Hl;
      try destruct (instanceof_InsufficientCredentialsError error) eqn:Hice;
      cbn [fst snd stage proceed andb negb orb res_entity];
      rewrite ?repair_eq; cbn [fst snd stage proceed andb negb sent local];
      try (destruct (negb (instanceof_NotFoundError error)); cbn [orb]);
      fold c; fold get.
    all: try (split; [by rewrite ?app_nil_r|]; first [done|by apply agree_on_insert]).
    all: try (split; [by rewrite requests_for_snoc, decide_True, Hreq by done|]).
    all: cbn [push_failed sent local];
      try (split; [by rewrite requests_for_snoc, decide_True, Hreq by done|]);
      split; [done|]; split; [done|]; by exists (sent eng), [].
Qed.

Lemma run_tracked fuel eng tasks0 j t0 S0 L0 :
  Forall fresh tasks0 ->
  tasks0 !! j = Some t0 ->
  (forall k t, tasks0 !! k = Some t -> k <> j ->
     collection (task_syncEntity t) <> collection (task_syncEntity t0)) ->
  tracks t0 S0 L0 (stage t0) eng ->
  exists t,
    snd (run fuel eng tasks0) !! j = Some t /\
    tracks t0 S0 L0 (stage t) (fst (run fuel eng tasks0)).
Proof.
  intros Hfresh Hj Hothers Htr.
  cut (Forall2 same_task tasks0 (snd (run fuel eng tasks0)) /\
       exists t, snd (run fuel eng tasks0) !! j = Some t /\
                 tracks t0 S0 L0 (stage t) (fst (run fuel eng tasks0))).
  { by intros [_ H]. }
  apply (run_invariant remote generateObjectId schedule (fun eng' tasks =>
    Forall2 same_task tasks0 tasks /\
    exists t, tasks !! j = Some t /\ tracks t0 S0 L0 (stage t) eng')).
  - intros eng' tasks k tk [H2 (t & Ht & Htr')] Hk Hset.
    destruct (Forall2_lookup_r _ _ _ _ _ H2 Hk) as (tk0 & Hk0 & Hsame).
    assert (k < length tasks) as Hlt by (by eapply lookup_lt_Some).
    split.
    { rewrite <- (list_insert_id tasks0 k tk0 Hk0).
      apply Forall2_insert; [done|]. by apply step_same_task. }
    destruct (decide (k = j)) as [->|Hne].
    + rewrite Hj in Hk0. injection Hk0 as <-.
      rewrite Ht in Hk. injection Hk as <-.
      exists (snd (step eng' t)). split; [by apply list_lookup_insert_eq|].
      by apply step_tracks_own.
    + exists t. split; [by rewrite list_lookup_insert_ne|].
      apply step_tracks_other; [|done].
      destruct Hsame as (-> & _). by apply (Hothers k).
  - split; [by apply same_task_diag|]. by exists t0.
Qed.
End Tracking.
(** ** A batch: the callbacks, then the handlers *)

Section BatchFacts.
Variable remote : list NetworkRequest -> NetworkRequest -> Response.
Variable generateObjectId : nat -> string.
Variable schedule : list Task -> nat.

Abbreviation dispatch := (Sync.dispatch remote).
Abbreviation dispatchAll := (Sync.dispatchAll remote).
Abbreviation run := (Sync.run remote generateObjectId schedule).
Abbreviation syncAll := (Sync.syncAll remote generateObjectId schedule).
Abbreviation follows := (Sync.follows generateObjectId).
Abbreviation tracks := (Sync.tracks remote generateObjectId).

Lemma dispatchAll_app eng l1 l2 :
  dispatchAll eng (l1 ++ l2) =
    let '(eng1, t1) := dispatchAll eng l1 in
    let '(eng2, t2) := dispatchAll eng1 l2 in
    (eng2, t1 ++ t2).
Proof.
  revert eng. induction l1 as [|s l1 IH]; intros eng; simpl.
  - by destruct (dispatchAll eng l2).
  - destruct (dispatch eng s) as [eng1 t]. rewrite IH.
    destruct (dispatchAll eng1 l1) as [eng2 ts].
    by destruct (dispatchAll eng2 l2).
Qed.

Lemma dispatch_fresh eng s : fresh (snd (dispatch eng s)).
Proof.
  rewrite dispatch_eq. cbn zeta. unfold fresh.
  by destruct (snd (build_request eng s)).
Qed.

(** A property of the engine that every callback keeps. *)
Lemma dispatchAll_invariant (I : Engine -> Prop) batch :
  (forall eng s, s ∈ batch -> I eng -> I (fst (dispatch eng s))) ->
  forall eng, I eng -> I (fst (dispatchAll eng batch)).
Proof.
  induction batch as [|s batch IH]; intros Hstep eng HI; [done|]. simpl.
  assert (I (fst (dispatch eng s))) as H1 by (apply Hstep; [by left|done]).
  destruct (dispatch eng s) as [eng1 t]. simpl in H1.
  assert (I (fst (dispatchAll eng1 batch))) as H2.
  { apply IH; [|done]. intros eng' s' Hs'. apply Hstep. by right. }
  by destruct (dispatchAll eng1 batch).
Qed.

Lemma dispatchAll_frame eng batch :
  failedSyncEntities (fst (dispatchAll eng batch)) = failedSyncEntities eng /\
  local (fst (dispatchAll eng batch)) = local eng /\
  length (heap (fst (dispatchAll eng batch))) = length (heap eng).
Proof.
  apply (dispatchAll_invariant (fun eng' =>
    failedSyncEntities eng' = failedSyncEntities eng /\
    local eng' = local eng /\ length (heap eng') = length (heap eng)));
    [|done].
  intros eng' s _ (Hf & Hl & Hh).
  destruct (dispatch_frame remote eng' s) as (Hf' & Hl' & _ & Hh' & _).
  by rewrite Hf', Hl', Hh'.
Qed.

Lemma dispatchAll_heap_other eng batch l :
  l ∉ entity <$> batch ->
  heap (fst (dispatchAll eng batch)) !! l = heap eng !! l.
Proof.
  intros Hl.
  apply (dispatchAll_invariant (fun eng' => heap eng' !! l = heap eng !! l));
    [|done].
  intros eng' s Hs H. rewrite dispatch_heap_other; [done|].
  intros ->. apply Hl. by apply list_elem_of_fmap_2.
Qed.

Lemma dispatchAll_sent eng batch :
  sent eng `prefix_of` sent (fst (dispatchAll eng batch)) /\
  length (sent (fst (dispatchAll eng batch))) <= length (sent eng) + length batch.
Proof.
  revert eng. induction batch as [|s batch IH]; intros eng; simpl.
  - split; [done|lia].
  - pose proof (dispatch_sent remote eng s) as Hs.
    destruct (dispatch eng s) as [eng1 t]. simpl in Hs.
    destruct (IH eng1) as [Hp Hl].
    destruct (dispatchAll eng1 batch) as [eng2 ts]. simpl in *.
    rewrite Hs in Hp, Hl. split.
    + by eapply prefix_app_l.
    + rewrite length_app in Hl.
      destruct (snd (build_request eng s)); simpl in Hl; lia.
Qed.

Lemma dispatchAll_requests_other eng batch c :
  Forall (fun s => collection s <> c) batch ->
  requests_for c (sent (fst (dispatchAll eng batch))) = requests_for c (sent eng).
Proof.
  intros Hall.
  apply (dispatchAll_invariant (fun eng' =>
    requests_for c (sent eng') = requests_for c (sent eng))); [|done].
  intros eng' s Hs H. rewrite dispatch_sent_other; [done|].
  rewrite Forall_forall in Hall. by apply Hall.
Qed.

Lemma dispatchAll_tasks eng batch :
  Forall fresh (snd (dispatchAll eng batch)) /\
  task_syncEntity <$> snd (dispatchAll eng batch) = batch.
Proof.
  revert eng. induction batch as [|s batch IH]; intros eng; simpl; [done|].
  pose proof (dispatch_fresh eng s) as Hf.
  destruct (dispatch_frame remote eng s) as (_ & _ & _ & _ & Hs).
  destruct (dispatch eng s) as [eng1 t]. destruct (IH eng1) as [Hfs Hss].
  destruct (dispatchAll eng1 batch) as [eng2 ts]. simpl in *.
  split; [by constructor|]. f_equal; [done|exact Hss].
Qed.

Lemma dispatchAll_length eng batch :
  length (snd (dispatchAll eng batch)) = length batch.
Proof.
  rewrite <- (proj2 (dispatchAll_tasks eng batch)) at 2. by rewrite length_fmap.
Qed.

Lemma dispatchAll_middle eng l1 s l2 :
  snd (dispatchAll eng (l1 ++ s :: l2)) !! length l1
    = Some (snd (dispatch (fst (dispatchAll eng l1)) s)) /\
  fst (dispatchAll eng (l1 ++ s :: l2))
    = fst (dispatchAll (fst (dispatch (fst (dispatchAll eng l1)) s)) l2).
Proof.
  rewrite dispatchAll_app.
  pose proof (dispatchAll_length eng l1) as Hlen.
  destruct (dispatchAll eng l1) as [eng1 t1]. simpl in *.
  destruct (dispatch eng1 s) as [eng2 t]. simpl.
  destruct (dispatchAll eng2 l2) as [eng3 t3]. simpl.
  split; [|done].
  rewrite lookup_app_r by lia. by replace (length l1 - length t1) with 0 by lia.
Qed.

(** The task at position [j] is the one the callback returns in the engine
    that the callbacks before it have left. *)
Lemma dispatchAll_lookup eng batch j s :
  batch !! j = Some s ->
  snd (dispatchAll eng batch) !! j
    = Some (snd (dispatch (fst (dispatchAll eng (take j batch))) s)) /\
  fst (dispatchAll eng batch)
    = fst (dispatchAll (fst (dispatch (fst (dispatchAll eng (take j batch))) s))
                       (drop (S j) batch)).
Proof.
  intros Hj.
  pose proof (dispatchAll_middle eng (take j batch) s (drop (S j) batch)) as H.
  rewrite (take_drop_middle _ _ _ Hj) in H.
  rewrite length_take in H. apply lookup_lt_Some in Hj.
  by replace (j `min` length batch) with j in H by lia.
Qed.

(** *** [Promise.all] *)

Lemma syncAll_eq eng batch :
  syncAll eng batch =
    run (2 * length batch) (fst (dispatchAll eng batch)) (snd (dispatchAll eng batch)).
Proof.
  unfold Sync.syncAll. rewrite <- (dispatchAll_length eng batch).
  by destruct (dispatchAll eng batch).
Qed.

(** Every task settles, with a result its first stage leads to. *)
Lemma syncAll_results eng batch :
  exists rs,
    results (snd (syncAll eng batch)) = Some rs /\
    Forall2 (fun t0 r => follows t0 (Settled r)) (snd (dispatchAll eng batch)) rs.
Proof.
  rewrite syncAll_eq.
  destruct (dispatchAll_tasks eng batch) as [Hfresh _].
  set (eng1 := fst (dispatchAll eng batch)).
  set (tasks0 := snd (dispatchAll eng batch)) in *.
  assert (Forall (fun t => is_settled t = true)
            (snd (run (2 * length batch) eng1 tasks0))) as Hall.
  { apply run_settles. unfold tasks0.
    rewrite <- (dispatchAll_length eng batch). apply weight_le_2. }
  destruct (results_settled _ Hall) as (rs & Hrs & H2).
  exists rs. split; [done|].
  pose proof (run_same_task remote generateObjectId schedule
                (2 * length batch) eng1 tasks0 Hfresh) as Hsame.
  eapply Forall2_trans; [|exact Hsame|exact H2].
  intros t0 t r (_ & _ & _ & Hf & _) Hst. simpl in *. by rewrite <- Hst.
Qed.

Lemma syncAll_heap eng batch :
  heap (fst (syncAll eng batch)) = heap (fst (dispatchAll eng batch)).
Proof. rewrite syncAll_eq. apply run_heap. Qed.

Lemma syncAll_failed eng batch x :
  x ∈ failedSyncEntities (fst (syncAll eng batch)) <->
  x ∈ failedSyncEntities eng \/
  exists j t0,
    snd (dispatchAll eng batch) !! j = Some t0 /\
    reinstates t0 = true /\ x = task_syncEntity t0.
Proof.
  rewrite syncAll_eq.
  destruct (dispatchAll_tasks eng batch) as [Hfresh _].
  rewrite run_failed by done.
  rewrite (proj1 (dispatchAll_frame eng batch)).
  split; (intros [H|H]; [by left|right]).
  - destruct H as (j & t0 & t & Hj0 & _ & _ & Hr & ->). eauto.
  - destruct H as (j & t0 & Hj0 & Hr & ->).
    set (eng1 := fst (dispatchAll eng batch)) in *.
    set (tasks0 := snd (dispatchAll eng batch)) in *.
    pose proof (run_same_task remote generateObjectId schedule
                  (2 * length batch) eng1 tasks0 Hfresh) as Hsame.
    destruct (Forall2_lookup_l _ _ _ _ _ Hsame Hj0) as (t & Ht & _).
    assert (is_settled t = true) as Hset.
    { assert (Forall (fun t => is_settled t = true)
                (snd (run (2 * length batch) eng1 tasks0))) as Hall.
      { apply run_settles. unfold tasks0.
        rewrite <- (dispatchAll_length eng batch). apply weight_le_2. }
      rewrite Forall_forall in Hall. apply Hall. by eapply list_elem_of_lookup_2. }
    exists j, t0, t. repeat split; try done.
    unfold is_settled, handled in *. by destruct (stage t).
Qed.

Lemma syncAll_sent eng batch :
  sent (fst (dispatchAll eng batch)) `prefix_of` sent (fst (syncAll eng batch)) /\
  sent eng `prefix_of` sent (fst (syncAll eng batch)) /\
  length (sent (fst (syncAll eng batch))) <= length (sent eng) + 2 * length batch.
Proof.
  rewrite syncAll_eq.
  destruct (run_sent remote generateObjectId schedule (2 * length batch)
              (fst (dispatchAll eng batch)) (snd (dispatchAll eng batch))) as [Hp Hl].
  destruct (dispatchAll_sent eng batch) as [Hp' Hl'].
  rewrite dispatchAll_length in Hl.
  split; [done|]. split; [by etrans|lia].
Qed.

(** A batch with no sync entity of collection [c] leaves the requests for
    [c] and the rows of [c] as they are. *)
Lemma syncAll_other eng batch c :
  Forall (fun s => collection s <> c) batch ->
  requests_for c (sent (fst (syncAll eng batch))) = requests_for c (sent eng) /\
  agree_on c (local (fst (syncAll eng batch))) (local eng).
Proof.
  intros Hall. rewrite syncAll_eq.
  destruct (dispatchAll_tasks eng batch) as [_ Hss].
  destruct (run_other remote generateObjectId schedule (2 * length batch)
              (fst (dispatchAll eng batch)) (snd (dispatchAll eng batch)) c)
    as [Hreq Hloc].
  { apply Forall_forall. intros t Ht. rewrite Forall_forall in Hall.
    apply Hall. rewrite <- Hss. by apply list_elem_of_fmap_2. }
  rewrite Hreq, (dispatchAll_requests_other _ _ _ Hall). split; [done|].
  intros x. rewrite Hloc. by rewrite (proj1 (proj2 (dispatchAll_frame eng batch))).
Qed.

(** Requests and rows of [c] that a later part of [push] leaves alone. *)
Lemma tracks_stable t0 S0 L0 st eng eng' :
  tracks t0 S0 L0 st eng ->
  requests_for (collection (task_syncEntity t0)) (sent eng')
    = requests_for (collection (task_syncEntity t0)) (sent eng) ->
  agree_on (collection (task_syncEntity t0)) (local eng') (local eng) ->
  sent eng `prefix_of` sent eng' ->
  tracks t0 S0 L0 st eng'.
Proof.
  intros [Hreq Hloc] Hreq' Hag [extra Hext]. split; [by rewrite Hreq'|].
  destruct st as [r|error rg|saved|r].
  - by eapply agree_on_trans.
  - destruct Hloc as (Hr & Hl & h & rest & Hs & Hrg).
    split; [done|]. split; [by eapply agree_on_trans|].
    exists h, (rest ++ extra). rewrite Hext, Hs. by rewrite <- app_assoc.
  - by eapply agree_on_trans.
  - destruct (repairs t0); [|by eapply agree_on_trans].
    destruct Hloc as (h & rest & Hs & Hl).
    exists h, (rest ++ extra). split; [rewrite Hext, Hs; by rewrite <- app_assoc|].
    destruct (remote h _) as [doc|err].
    + destruct Hl as [n Hl]. exists n. by eapply agree_on_trans.
    + by eapply agree_on_trans.
Qed.

(** The sync entity at position [j] is the only one of its collection in
    the batch: when the batch has settled, the requests for the collection
    and its rows are what the handlers of that task have made them. *)
Lemma syncAll_tracked eng batch j s L0 :
  batch !! j = Some s ->
  (forall k s', batch !! k = Some s' -> k <> j -> collection s' <> collection s) ->
  agree_on (collection s) (local eng) L0 ->
  let eng_j := fst (dispatchAll eng (take j batch)) in
  let t0 := snd (dispatch eng_j s) in
  let S0 := requests_for (collection s) (sent eng)
            ++ match snd (build_request eng_j s) with
               | Some request => [request]
               | None => []
               end in
  exists rs r,
    results (snd (syncAll eng batch)) = Some rs /\ rs !! j = Some r /\
    tracks t0 S0 L0 (Settled r) (fst (syncAll eng batch)).
Proof.
  intros Hj Hothers Hag eng_j t0 S0.
  destruct (dispatchAll_tasks eng batch) as [Hfresh Hss].
  destruct (dispatchAll_lookup eng batch j s Hj) as [Ht0 Heng1].
  fold eng_j in Ht0, Heng1. fold t0 in Ht0.
  destruct (dispatch_frame remote eng_j s) as (_ & _ & _ & _ & Hs).
  fold t0 in Hs.
  assert (Forall (fun s' => collection s' <> collection s) (take j batch)) as Hpre.
  { apply Forall_forall. intros s' [k Hk]%list_elem_of_lookup.
    apply lookup_take_Some in Hk as [Hk Hlt]. apply (Hothers k); [done|lia]. }
  assert (Forall (fun s' => collection s' <> collection s) (drop (S j) batch)) as Hpost.
  { apply Forall_forall. intros s' [k Hk]%list_elem_of_lookup.
    rewrite lookup_drop in Hk. apply (Hothers _ _ Hk). lia. }
  (* when the callbacks have returned *)
  assert (tracks t0 S0 L0 (stage t0) (fst (dispatchAll eng batch))) as Hbase.
  { assert (requests_for (collection s) (sent (fst (dispatchAll eng batch))) = S0)
      as Hreq.
    { rewrite Heng1, (dispatchAll_requests_other _ _ _ Hpost).
      rewrite dispatch_sent. unfold S0.
      rewrite <- (dispatchAll_requests_other eng (take j batch) _ Hpre).
      fold eng_j.
      destruct (build_request eng_j s) as [eng' [request|]] eqn:Hb; simpl.
      - rewrite requests_for_snoc, decide_True; [done|].
        by eapply build_request_collection.
      - by rewrite !app_nil_r. }
    assert (agree_on (collection s) (local (fst (dispatchAll eng batch))) L0)
      as Hloc by (by rewrite (proj1 (proj2 (dispatchAll_frame eng batch)))).
    pose proof (dispatch_fresh eng_j s) as Hf. fold t0 in Hf.
    unfold Sync.tracks, fresh, written, repairs in *. rewrite Hs.
    destruct (stage t0) as [r| | |r] eqn:Hst; try done.
    - split; [by rewrite Hreq, app_nil_r|done].
    - split; [by rewrite Hreq, app_nil_r|].
      unfold t0 in Hst. rewrite dispatch_eq in Hst. cbn zeta in Hst.
      destruct (snd (build_request eng_j s)); simpl in Hst; [done|].
      by injection Hst as <-. }
  rewrite syncAll_eq.
  destruct (run_tracked remote generateObjectId schedule (2 * length batch)
              (fst (dispatchAll eng batch)) (snd (dispatchAll eng batch))
              j t0 S0 L0 Hfresh Ht0) as (t & Ht & Htr); [|done|].
  { intros k tk Hk Hne. rewrite Hs.
    assert (batch !! k = Some (task_syncEntity tk)) as Hk'.
    { rewrite <- Hss, list_lookup_fmap, Hk. done. }
    by apply (Hothers k). }
  destruct (syncAll_results eng batch) as (rs & Hrs & _).
  rewrite syncAll_eq in Hrs.
  apply mapM_Some in Hrs.
  destruct (Forall2_lookup_l _ _ _ _ _ Hrs Ht) as (r & Hr & Hst).
  exists rs, r. split; [by apply mapM_Some|]. split; [done|].
  destruct (stage t); try done. by injection Hst as ->.
Qed.
End BatchFacts.
(** ** The sync table and the sync entities that [push] claims *)

Section JournalFacts.
Implicit Types (t : gmap Z (SyncEntity Entity)) (query : option Query).

Lemma find_sync_elem query t row :
  keyed t -> row ∈ find_sync query t ->
  t !! key row = Some row /\ matches query row = true.
Proof.
  intros Hk [Hm Hin]%list_elem_of_filter.
  apply list_elem_of_fmap in Hin as ([k r] & -> & Hkr). simpl in *.
  apply elem_of_map_to_list in Hkr. split; [|done].
  by rewrite (Hk k r Hkr).
Qed.

Lemma find_sync_NoDup query t : keyed t -> NoDup (key <$> find_sync query t).
Proof.
  intros Hk. unfold find_sync.
  apply (sublist_NoDup _ (key <$> (snd <$> map_to_list t))).
  - rewrite <- list_fmap_compose.
    rewrite (list_fmap_ext (key ∘ snd) fst).
    + apply NoDup_fst_map_to_list.
    + intros i [k r] Hi. simpl. apply (Hk k r).
      apply elem_of_map_to_list. by eapply list_elem_of_lookup_2.
  - apply fmap_sublist, sublist_filter.
Qed.

Lemma drain_lookup_claimed query t row :
  keyed t -> row ∈ find_sync query t -> snd (drain query t) !! key row = None.
Proof.
  intros Hk Hrow. destruct (find_sync_elem _ _ _ Hk Hrow) as [Hl Hm].
  unfold drain. simpl. apply map_lookup_filter_None. right.
  intros r Hr. simpl. rewrite Hl in Hr. injection Hr as <-. by rewrite Hm.
Qed.

Lemma load_lookup (rows : list (SyncEntity Entity)) s :
  s ∈ fst (load rows) ->
  exists row, rows !! entity s = Some row /\ s = with_entity row (entity s).
Proof.
  unfold load. simpl. intros [i Hi]%list_elem_of_lookup.
  rewrite list_lookup_imap in Hi.
  destruct (rows !! i) as [row|] eqn:Hrow; [|done].
  injection Hi as <-. simpl. eauto.
Qed.

Lemma load_NoDup_entity (rows : list (SyncEntity Entity)) :
  NoDup (entity <$> fst (load rows)).
Proof.
  unfold load. simpl. rewrite fmap_imap.
  rewrite (imap_ext _ (fun i _ => i)) by done.
  rewrite imap_seq_0, list_fmap_id. apply NoDup_seq.
Qed.

Lemma load_key (rows : list (SyncEntity Entity)) :
  key <$> fst (load rows) = key <$> rows.
Proof.
  unfold load. simpl. rewrite fmap_imap.
  rewrite (imap_ext _ (const key)) by done.
  by rewrite imap_const.
Qed.

Lemma claimed_elem d query s :
  s ∈ claimed d query ->
  exists row, find_sync query (sync_table d) !! entity s = Some row /\
              s = with_entity row (entity s).
Proof. intros Hs%coalesce_elem_of. by apply load_lookup. Qed.

Lemma claimed_NoDup_entity d query : NoDup (entity <$> claimed d query).
Proof. apply coalesce_NoDup, load_NoDup_entity. Qed.

Lemma claimed_NoDup_key d query :
  keyed (sync_table d) -> NoDup (key <$> claimed d query).
Proof.
  intros Hk. apply coalesce_NoDup. rewrite load_key. by apply find_sync_NoDup.
Qed.

Lemma start_heap d query s row :
  find_sync query (sync_table d) !! entity s = Some row ->
  heap (start d query) !! entity s = Some (entity row).
Proof. intros H. unfold start, load. simpl. by rewrite list_lookup_fmap, H. Qed.

Lemma reinstate_lookup_ne h failed t k :
  (forall s, s ∈ failed -> key s <> k) -> reinstate h failed t !! k = t !! k.
Proof.
  unfold reinstate. revert t. induction failed as [|s failed IH]; intros t Hk; simpl; [done|].
  rewrite IH by (intros s' Hs'; apply Hk; by right).
  apply lookup_insert_ne, Hk. by left.
Qed.

Lemma reinstate_lookup h failed t s :
  s ∈ failed -> (forall s', s' ∈ failed -> key s' = key s -> s' = s) ->
  reinstate h failed t !! key s = Some (with_entity s (h !!! entity s)).
Proof.
  unfold reinstate. revert t. induction failed as [|s0 failed IH]; intros t Hs Hinj; simpl.
  - by apply elem_of_nil in Hs.
  - destruct (decide (s ∈ failed)) as [Hin|Hnin].
    + apply IH; [done|]. intros s' Hs'. apply Hinj. by right.
    + apply elem_of_cons in Hs as [->|Hs]; [|done].
      fold (reinstate h failed (<[key s0 := with_entity s0 (h !!! entity s0)]> t)).
      rewrite reinstate_lookup_ne.
      * apply lookup_insert_eq.
      * intros s' Hs' Heq. apply Hnin. rewrite <- (Hinj s'); [done|by right|done].
Qed.
End JournalFacts.
(** ** [push]: the batches one after the other *)

Section PushFacts.
Variable remote : list NetworkRequest -> NetworkRequest -> Response.
Variable generateObjectId : nat -> string.
Variable schedule : list Task -> nat.
Variable d : Device.
Variable query : option Query.

Abbreviation dispatch := (Sync.dispatch remote).
Abbreviation dispatchAll := (Sync.dispatchAll remote).
Abbreviation syncAll := (Sync.syncAll remote generateObjectId schedule).
Abbreviation batchSync := (Sync.batchSync remote generateObjectId schedule).
Abbreviation push := (Sync.push remote generateObjectId schedule).
Abbreviation batch_start := (Sync.batch_start remote generateObjectId schedule d query).
Abbreviation batch_results := (Sync.batch_results remote generateObjectId schedule d query).
Abbreviation results_upto := (Sync.results_upto remote generateObjectId schedule d query).
Abbreviation engine_before := (Sync.engine_before remote generateObjectId schedule d query).
Abbreviation task_of := (Sync.task_of remote generateObjectId schedule d query).
Abbreviation dispatched := (Sync.dispatched remote generateObjectId schedule d query).
Abbreviation follows := (Sync.follows generateObjectId).
Abbreviation tracks := (Sync.tracks remote generateObjectId).
Abbreviation cl := (claimed d query).

Lemma batchSize_pos : 0 < batchSize.
Proof. unfold batchSize. lia. Qed.

Lemma div_mod_batch i :
  i = i / batchSize * batchSize + i mod batchSize /\ i mod batchSize < batchSize.
Proof.
  pose proof batchSize_pos. split.
  - rewrite Nat.mul_comm. apply Nat.div_mod_eq.
  - apply Nat.mod_upper_bound. lia.
Qed.

Lemma div_batch k j : j < batchSize -> (k * batchSize + j) / batchSize = k.
Proof.
  intros Hj. symmetry. apply (Nat.div_unique _ _ _ j); [done|lia].
Qed.

Lemma mod_batch k j : j < batchSize -> (k * batchSize + j) mod batchSize = j.
Proof.
  intros Hj. symmetry. apply (Nat.mod_unique _ _ k); [done|lia].
Qed.

Lemma div_batch_lt i k : i / batchSize < k <-> i < k * batchSize.
Proof.
  destruct (div_mod_batch i) as [Hi Hm]. pose proof batchSize_pos as Hpos.
  split; intros H.
  - assert (S (i / batchSize) * batchSize <= k * batchSize)
      by (apply Nat.mul_le_mono_r; lia). lia.
  - destruct (Nat.lt_ge_cases (i / batchSize) k) as [|Hge]; [done|].
    assert (k * batchSize <= i / batchSize * batchSize)
      by (by apply Nat.mul_le_mono_r). lia.
Qed.

Lemma batch_lookup (l : list (SyncEntity nat)) k j :
  j < batchSize -> batch l k !! j = l !! (k * batchSize + j).
Proof. intros Hj. unfold batch. by rewrite lookup_take_lt, lookup_drop. Qed.

Lemma batch_lookup_Some (l : list (SyncEntity nat)) k j s :
  batch l k !! j = Some s -> j < batchSize /\ l !! (k * batchSize + j) = Some s.
Proof.
  unfold batch. intros [H Hj]%lookup_take_Some. by rewrite lookup_drop in H.
Qed.

Lemma batch_at (l : list (SyncEntity nat)) i s :
  l !! i = Some s -> batch l (i / batchSize) !! (i mod batchSize) = Some s.
Proof.
  intros Hi. destruct (div_mod_batch i) as [Heq Hlt].
  rewrite batch_lookup by done. by rewrite <- Heq.
Qed.

Lemma batch_length (l : list (SyncEntity nat)) k :
  length (batch l k) = batchSize `min` (length l - k * batchSize).
Proof. unfold batch. by rewrite length_take, length_drop. Qed.

Lemma engine_before_eq k j :
  j < batchSize ->
  engine_before (k * batchSize + j)
    = fst (dispatchAll (batch_start k) (take j (batch cl k))).
Proof.
  intros Hj. unfold Sync.engine_before. by rewrite div_batch, mod_batch.
Qed.

Lemma engine_before_at i :
  engine_before i
    = fst (dispatchAll (batch_start (i / batchSize))
                       (take (i mod batchSize) (batch cl (i / batchSize)))).
Proof. reflexivity. Qed.

(** The task at position [j] of batch [k] is the task of the claimed sync
    entity at position [k * batchSize + j]. *)
Lemma batch_task k j s :
  batch cl k !! j = Some s ->
  snd (dispatchAll (batch_start k) (batch cl k)) !! j
    = Some (task_of (k * batchSize + j) s).
Proof.
  intros Hj. destruct (batch_lookup_Some _ _ _ _ Hj) as [Hlt _].
  rewrite (proj1 (dispatchAll_lookup remote _ _ _ _ Hj)).
  unfold Sync.task_of. by rewrite engine_before_eq.
Qed.

Lemma batch_task_inv k j t0 :
  snd (dispatchAll (batch_start k) (batch cl k)) !! j = Some t0 ->
  exists s, batch cl k !! j = Some s /\ t0 = task_of (k * batchSize + j) s.
Proof.
  intros Ht.
  assert (j < length (batch cl k)) as Hlt.
  { rewrite <- (dispatchAll_length remote (batch_start k)). by eapply lookup_lt_Some. }
  destruct (lookup_lt_is_Some_2 _ _ Hlt) as [s Hs].
  exists s. split; [done|]. rewrite (batch_task _ _ _ Hs) in Ht. congruence.
Qed.

Lemma task_of_syncEntity i s : task_syncEntity (task_of i s) = s.
Proof. unfold Sync.task_of. apply dispatch_frame. Qed.

(** *** [failedSyncEntities] *)

Lemma failed_upto k x :
  x ∈ failedSyncEntities (batch_start k) <->
  exists i s, i < k * batchSize /\ cl !! i = Some s /\
              reinstates (task_of i s) = true /\ x = s.
Proof.
  induction k as [|k IH].
  - simpl. split; [by intros ?%elem_of_nil|]. intros (i & s & Hi & _). lia.
  - cbn [Sync.batch_start]. rewrite syncAll_failed, IH. split.
    + intros [(i & s & Hi & Hs & Hr & ->)|(j & t0 & Ht0 & Hr & ->)].
      * exists i, s. repeat split; try done. lia.
      * destruct (batch_task_inv _ _ _ Ht0) as (s & Hs & ->).
        destruct (batch_lookup_Some _ _ _ _ Hs) as [Hlt Hcl].
        exists (k * batchSize + j), s. rewrite task_of_syncEntity.
        repeat split; try done. lia.
    + intros (i & s & Hi & Hs & Hr & ->).
      destruct (Nat.lt_ge_cases i (k * batchSize)) as [Hlt|Hge].
      * left. by exists i, s.
      * right. destruct (div_mod_batch i) as [Heq Hm].
        assert (i / batchSize = k) as Hk.
        { assert (i / batchSize < S k) by (by apply div_batch_lt).
          assert (~ i / batchSize < k) by (rewrite div_batch_lt; lia). lia. }
        exists (i mod batchSize), (task_of i s).
        rewrite task_of_syncEntity. split; [|done].
        pose proof (batch_at _ _ _ Hs) as Hb. rewrite Hk in Hb.
        rewrite (batch_task _ _ _ Hb). by rewrite <- Hk, <- Heq.
Qed.

(** *** The entity objects *)

Lemma claimed_entity_inj i i' s s' :
  cl !! i = Some s -> cl !! i' = Some s' -> entity s' = entity s -> i' = i.
Proof.
  intros Hi Hi' Heq.
  apply (NoDup_lookup (entity <$> cl) i' i (entity s)).
  - apply claimed_NoDup_entity.
  - by rewrite list_lookup_fmap, Hi', <- Heq.
  - by rewrite list_lookup_fmap, Hi.
Qed.

Lemma not_in_batch_prefix i s k j :
  cl !! i = Some s -> j <= batchSize -> (k * batchSize + j <= i) ->
  entity s ∉ entity <$> take j (batch cl k).
Proof.
  intros Hi Hj Hle [s' [Heq Hin]]%list_elem_of_fmap.
  apply list_elem_of_lookup in Hin as [j' Hj'].
  apply lookup_take_Some in Hj' as [Hj' Hlt].
  destruct (batch_lookup_Some _ _ _ _ Hj') as [_ Hcl].
  pose proof (claimed_entity_inj _ _ _ _ Hi Hcl (eq_sym Heq)). lia.
Qed.

Lemma not_in_batch i s k :
  cl !! i = Some s -> i / batchSize <> k ->
  entity s ∉ entity <$> batch cl k.
Proof.
  intros Hi Hne [s' [Heq Hin]]%list_elem_of_fmap.
  apply list_elem_of_lookup in Hin as [j' Hj'].
  destruct (batch_lookup_Some _ _ _ _ Hj') as [Hlt Hcl].
  pose proof (claimed_entity_inj _ _ _ _ Hi Hcl (eq_sym Heq)) as Hidx.
  apply Hne. rewrite <- Hidx. by apply div_batch.
Qed.

Lemma not_in_batch_suffix i s :
  cl !! i = Some s ->
  entity s ∉ entity <$> drop (S (i mod batchSize)) (batch cl (i / batchSize)).
Proof.
  intros Hi [s' [Heq Hin]]%list_elem_of_fmap.
  apply list_elem_of_lookup in Hin as [j' Hj'].
  rewrite lookup_drop in Hj'.
  destruct (batch_lookup_Some _ _ _ _ Hj') as [Hlt Hcl].
  pose proof (claimed_entity_inj _ _ _ _ Hi Hcl (eq_sym Heq)) as Hidx.
  destruct (div_mod_batch i). lia.
Qed.

Lemma heap_upto k l :
  (forall i s, cl !! i = Some s -> i < k * batchSize -> entity s <> l) ->
  heap (batch_start k) !! l = heap (start d query) !! l.
Proof.
  induction k as [|k IH]; intros Hl; [done|].
  cbn [Sync.batch_start]. rewrite syncAll_heap, dispatchAll_heap_other.
  - apply IH. intros i s Hi Hlt. apply (Hl i s Hi). lia.
  - intros [s [-> Hin]]%list_elem_of_fmap.
    apply list_elem_of_lookup in Hin as [j Hj].
    destruct (batch_lookup_Some _ _ _ _ Hj) as [Hlt Hcl].
    apply (Hl _ _ Hcl); [lia|done].
Qed.

Lemma heap_before i s row :
  cl !! i = Some s ->
  find_sync query (sync_table d) !! entity s = Some row ->
  heap (engine_before i) !! entity s = Some (entity row).
Proof.
  intros Hi Hrow. rewrite engine_before_at.
  destruct (div_mod_batch i) as [Heq Hm].
  rewrite dispatchAll_heap_other
    by (apply (not_in_batch_prefix i); [done|lia|lia]).
  rewrite heap_upto; [by apply start_heap|].
  intros i' s' Hi' Hlt Hent.
  pose proof (claimed_entity_inj _ _ _ _ Hi Hi' Hent). subst i'.
  apply div_batch_lt in Hlt. lia.
Qed.

Lemma heap_after i s k :
  cl !! i = Some s -> i / batchSize < k ->
  heap (batch_start k) !! entity s
    = heap (fst (dispatch (engine_before i) s)) !! entity s.
Proof.
  intros Hi. induction k as [|k IH]; intros Hlt; [lia|].
  cbn [Sync.batch_start]. rewrite syncAll_heap.
  destruct (decide (i / batchSize = k)) as [Hk|Hne].
  - pose proof (batch_at _ _ _ Hi) as Hb.
    rewrite <- Hk.
    rewrite (proj2 (dispatchAll_lookup remote _ _ _ _ Hb)).
    rewrite dispatchAll_heap_other by (by apply (not_in_batch_suffix i)).
    by rewrite <- engine_before_at.
  - rewrite dispatchAll_heap_other by (by apply (not_in_batch i)).
    apply IH. lia.
Qed.

(** *** The results *)

Lemma batch_results_spec k :
  results (snd (syncAll (batch_start k) (batch cl k))) = Some (batch_results k) /\
  Forall2 (fun t0 r => follows t0 (Settled r))
          (snd (dispatchAll (batch_start k) (batch cl k))) (batch_results k).
Proof.
  destruct (syncAll_results remote generateObjectId schedule
              (batch_start k) (batch cl k)) as (rs & Hrs & H2).
  unfold Sync.batch_results. by rewrite Hrs.
Qed.

Lemma batch_results_length k : length (batch_results k) = length (batch cl k).
Proof.
  destruct (batch_results_spec k) as [_ H2].
  rewrite <- (Forall2_length _ _ _ H2). apply dispatchAll_length.
Qed.

Lemma results_upto_length k :
  length (results_upto k) = (k * batchSize) `min` length cl.
Proof.
  induction k as [|k IH]; [done|].
  cbn [Sync.results_upto]. rewrite length_app, IH, batch_results_length, batch_length.
  lia.
Qed.

Lemma results_upto_lookup k i s :
  cl !! i = Some s -> i / batchSize < k ->
  exists r, results_upto k !! i = Some r /\ follows (task_of i s) (Settled r).
Proof.
  intros Hi. induction k as [|k IH]; intros Hlt; [lia|].
  cbn [Sync.results_upto].
  destruct (decide (i / batchSize = k)) as [Hk|Hne].
  - destruct (div_mod_batch i) as [Heq Hm].
    pose proof (batch_at _ _ _ Hi) as Hb. rewrite Hk in Hb, Heq.
    destruct (batch_results_spec k) as [_ H2].
    pose proof (batch_task _ _ _ Hb) as Ht. rewrite <- Heq in Ht.
    destruct (Forall2_lookup_l _ _ _ _ _ H2 Ht) as (r & Hr & Hf).
    exists r. split; [|done].
    apply lookup_lt_Some in Hi.
    rewrite lookup_app_r by (rewrite results_upto_length; lia).
    rewrite results_upto_length.
    by replace (i - (k * batchSize) `min` length cl) with (i mod batchSize) by lia.
  - destruct IH as (r & Hr & Hf); [lia|].
    exists r. split; [|done]. by apply lookup_app_l_Some.
Qed.

(** *** The requests *)

Lemma sent_upto_mono k k' :
  k <= k' -> sent (batch_start k) `prefix_of` sent (batch_start k').
Proof.
  induction 1 as [|k' _ IH]; [done|].
  etrans; [exact IH|]. cbn [Sync.batch_start]. apply syncAll_sent.
Qed.

Lemma sent_upto_length k :
  length (sent (batch_start k)) <= 2 * ((k * batchSize) `min` length cl).
Proof.
  induction k as [|k IH]; [simpl; lia|].
  cbn [Sync.batch_start].
  destruct (syncAll_sent remote generateObjectId schedule
              (batch_start k) (batch cl k)) as (_ & _ & Hl).
  rewrite batch_length in Hl. lia.
Qed.

Lemma sent_dispatched i s k :
  cl !! i = Some s -> i / batchSize < k ->
  sent (fst (dispatch (engine_before i) s)) `prefix_of` sent (batch_start k).
Proof.
  intros Hi Hlt.
  etrans; [|apply (sent_upto_mono (S (i / batchSize))); lia].
  cbn [Sync.batch_start].
  etrans; [|apply (proj1 (syncAll_sent remote generateObjectId schedule _ _))].
  pose proof (batch_at _ _ _ Hi) as Hb.
  rewrite (proj2 (dispatchAll_lookup remote _ _ _ _ Hb)).
  rewrite <- engine_before_at. apply dispatchAll_sent.
Qed.

(** *** A sync entity that is alone in its collection *)

Lemma alone_upto k c :
  (forall i s, cl !! i = Some s -> i < k * batchSize -> collection s <> c) ->
  requests_for c (sent (batch_start k)) = [] /\
  agree_on c (local (batch_start k)) (tables d).
Proof.
  induction k as [|k IH]; intros Hc; [done|].
  cbn [Sync.batch_start].
  destruct IH as [Hreq Hloc]; [intros i s Hi Hlt; apply (Hc i s Hi); lia|].
  destruct (syncAll_other remote generateObjectId schedule
              (batch_start k) (batch cl k) c) as [Hreq' Hloc'].
  { apply Forall_forall. intros s [j Hj]%list_elem_of_lookup.
    destruct (batch_lookup_Some _ _ _ _ Hj) as [Hlt Hcl].
    apply (Hc _ _ Hcl). lia. }
  split; [by rewrite Hreq'|by eapply agree_on_trans].
Qed.

Lemma alone_tracked i s k :
  cl !! i = Some s ->
  (forall j s', cl !! j = Some s' -> j <> i -> collection s' <> collection s) ->
  i / batchSize < k ->
  exists r,
    results_upto k !! i = Some r /\
    tracks (task_of i s)
           (match snd (build_request (engine_before i) s) with
            | Some request => [request]
            | None => []
            end)
           (tables d) (Settled r) (batch_start k).
Proof.
  intros Hi Halone. induction k as [|k IH]; intros Hlt; [lia|].
  destruct (div_mod_batch i) as [Heq Hm].
  destruct (decide (i / batchSize = k)) as [Hk|Hne].
  - pose proof (batch_at _ _ _ Hi) as Hb. rewrite Hk in Hb, Heq.
    destruct (alone_upto k (collection s)) as [Hreq Hloc].
    { intros j s' Hj Hjlt. apply (Halone j s' Hj). lia. }
    destruct (syncAll_tracked remote generateObjectId schedule
                (batch_start k) (batch cl k) (i mod batchSize) s (tables d) Hb)
      as (rs & r & Hrs & Hr & Htr); [|done|].
    { intros j s' Hj Hne. destruct (batch_lookup_Some _ _ _ _ Hj) as [Hjlt Hcl].
      apply (Halone _ _ Hcl). lia. }
    rewrite Hreq in Htr. cbn [app] in Htr.
    rewrite <- engine_before_eq in Htr by done. rewrite <- Heq in Htr.
    exists r. split; [|exact Htr].
    cbn [Sync.results_upto].
    destruct (batch_results_spec k) as [Hrs' _].
    rewrite Hrs in Hrs'. injection Hrs' as ->.
    apply lookup_lt_Some in Hi.
    rewrite lookup_app_r by (rewrite results_upto_length; lia).
    rewrite results_upto_length.
    by replace (i - (k * batchSize) `min` length cl) with (i mod batchSize) by lia.
  - destruct IH as (r & Hr & Htr); [lia|].
    exists r. split; [by apply lookup_app_l_Some|].
    cbn [Sync.batch_start].
    destruct (syncAll_other remote generateObjectId schedule
                (batch_start k) (batch cl k) (collection s)) as [Hreq' Hloc'].
    { apply Forall_forall. intros s' [j Hj]%list_elem_of_lookup.
      destruct (batch_lookup_Some _ _ _ _ Hj) as [Hjlt Hcl].
      apply (Halone _ _ Hcl). intros Hidx. rewrite <- Hidx in Hne.
      rewrite div_batch in Hne by done. lia. }
    eapply tracks_stable; [exact Htr| | |].
    + by rewrite task_of_syncEntity.
    + by rewrite task_of_syncEntity.
    + apply syncAll_sent.
Qed.

(** *** [batchSync] and [push] *)

Lemma batches_spec k :
  (S k * batchSize < length cl <-> S k < batches cl) /\
  (k < batches cl -> ~ S k * batchSize < length cl -> S k = batches cl).
Proof.
  unfold batches. pose proof batchSize_pos.
  pose proof (Nat.div_mod_eq (length cl - 1) batchSize) as Hdm.
  pose proof (Nat.mod_upper_bound (length cl - 1) batchSize) as Hm.
  set (q := (length cl - 1) / batchSize) in *.
  set (r := (length cl - 1) mod batchSize) in *.
  assert (batchSize * q = q * batchSize) as Hc by lia.
  split; [split|]; intros; nia.
Qed.

Lemma batchSync_eq fuel k :
  k < batches cl -> batches cl <= k + fuel ->
  batchSync fuel cl (k * batchSize) (batch_start k) (results_upto k)
    = Some (batch_start (batches cl), results_upto (batches cl)).
Proof.
  revert k. induction fuel as [|fuel IH]; intros k Hk Hfuel; [lia|].
  cbn [Sync.batchSync]. fold (batch cl k).
  destruct (batch_results_spec k) as [Hrs _].
  destruct (syncAll (batch_start k) (batch cl k)) as [eng tasks] eqn:Hsync.
  assert (eng = batch_start (S k)) as -> by (cbn [Sync.batch_start]; by rewrite Hsync).
  simpl in Hrs. rewrite Hrs.
  change (results_upto k ++ batch_results k) with (results_upto (S k)).
  change (k * batchSize + batchSize) with (k * batchSize + batchSize).
  replace (k * batchSize + batchSize) with (S k * batchSize) by lia.
  destruct (batches_spec k) as [Hlt Heq].
  destruct (Nat.ltb_spec (S k * batchSize) (length cl)) as [H|H].
  - apply IH; [by apply Hlt|lia].
  - rewrite (Heq Hk) by lia. done.
Qed.

Lemma syncAll_nil eng : syncAll eng [] = (eng, []).
Proof. reflexivity. Qed.

(** [push] always returns: the device, the results and the log are those
    of the engine when the last batch has settled. *)
Lemma push_eq :
  push d query =
    Some (mkDevice (syncKey d)
                   (reinstate (heap (batch_start (batches cl)))
                              (failedSyncEntities (batch_start (batches cl)))
                              (snd (drain query (sync_table d))))
                   (local (batch_start (batches cl)))
                   (drawn (batch_start (batches cl))),
          view (heap (batch_start (batches cl))) <$> results_upto (batches cl),
          sent (batch_start (batches cl))).
Proof.
  unfold Sync.push.
  assert (drain query (sync_table d)
          = (find_sync query (sync_table d), snd (drain query (sync_table d)))) as ->
    by done.
  cbn [snd].
  destruct (find_sync query (sync_table d)) as [|row rows] eqn:Hrows.
  - assert (cl = []) as Hcl by (unfold claimed; by rewrite Hrows).
    rewrite Hcl. unfold batches. cbn [length Nat.sub Nat.div].
    assert (0 / batchSize = 0) as -> by done.
    cbn [Sync.batch_start Sync.results_upto]. unfold Sync.batch_results.
    rewrite Hcl. unfold batch. rewrite drop_nil, take_nil, syncAll_nil.
    cbn. reflexivity.
  - cbn [length Nat.ltb Nat.leb].
    pose proof (batchSync_eq (S (length cl)) 0) as H.
    cbn [Nat.mul Sync.batch_start Sync.results_upto] in H.
    rewrite H; [done|unfold batches; lia|].
    unfold batches. pose proof batchSize_pos.
    assert ((length cl - 1) / batchSize <= length cl - 1)
      by (apply Nat.Div0.div_le_upper_bound; nia). lia.
Qed.
End PushFacts.
(** ** [push], seen from one claimed sync entity *)

Section PushAt.
Variable remote : list NetworkRequest -> NetworkRequest -> Response.
Variable generateObjectId : nat -> string.
Variable schedule : list Task -> nat.

Abbreviation dispatch := (Sync.dispatch remote).
Abbreviation push := (Sync.push remote generateObjectId schedule).
Abbreviation batch_start := (Sync.batch_start remote generateObjectId schedule).
Abbreviation results_upto := (Sync.results_upto remote generateObjectId schedule).
Abbreviation engine_before := (Sync.engine_before remote generateObjectId schedule).
Abbreviation task_of := (Sync.task_of remote generateObjectId schedule).
Abbreviation dispatched := (Sync.dispatched remote generateObjectId schedule).
Abbreviation follows := (Sync.follows generateObjectId).
Abbreviation tracks := (Sync.tracks remote generateObjectId).

Lemma batches_cover d query i :
  i < length (claimed d query) -> i / batchSize < batches (claimed d query).
Proof.
  intros Hi. unfold batches.
  assert (i / batchSize <= (length (claimed d query) - 1) / batchSize); [|lia].
  apply Nat.Div0.div_le_mono. lia.
Qed.

Lemma failed_are_claimed d query k s :
  s ∈ failedSyncEntities (batch_start d query k) -> s ∈ claimed d query.
Proof.
  intros (i & s' & _ & Hs & _ & ->)%failed_upto. by eapply list_elem_of_lookup_2.
Qed.

(** The sync entity at position [i] of the claimed list: [push] returns;
    its [i]-th result is the one the handlers of its task settle with, read
    with the entity object as its callback left it; the row of the sync
    table under its key is the sync entity with that object when the
    handlers reinstate it, and is absent otherwise; the request of its
    callback is in the log; and, when it is alone in its collection, the
    requests for the collection and the rows of the collection are what its
    handlers have made them. *)
Lemma push_at d query i s :
  keyed (sync_table d) -> claimed d query !! i = Some s ->
  exists row d' results requests r h,
    push d query = Some (d', results, requests) /\
    sync_table d !! key s = Some row /\
    matches query row = true /\
    s = with_entity row (entity s) /\
    heap (engine_before d query i) !! entity s = Some (entity row) /\
    follows (task_of d query i s) (Settled r) /\
    h !! entity s = Some (after_dispatch (state_method s) (entity row)) /\
    results !! i = Some (view h r) /\
    sync_table d' !! key s =
      (if reinstates (task_of d query i s)
       then Some (with_entity s (after_dispatch (state_method s) (entity row)))
       else None) /\
    sent (fst (dispatch (engine_before d query i) s)) `prefix_of` requests /\
    ((forall j s', claimed d query !! j = Some s' -> j <> i ->
                   collection s' <> collection s) ->
     tracks (task_of d query i s)
            (match snd (build_request (engine_before d query i) s) with
             | Some request => [request]
             | None => []
             end)
            (tables d) (Settled r) (mkEngine [] [] requests (tables d') 0)).
Proof.
  intros Hk Hi.
  assert (s ∈ claimed d query) as Hs by (by eapply list_elem_of_lookup_2).
  destruct (claimed_elem _ _ _ Hs) as (row & Hrow & Hwith).
  assert (row ∈ find_sync query (sync_table d)) as Hrin
    by (by eapply list_elem_of_lookup_2).
  destruct (find_sync_elem _ _ _ Hk Hrin) as [Hlook Hmatch].
  assert (key row = key s) as Hkey by (by rewrite Hwith).
  pose proof (lookup_lt_Some _ _ _ Hi) as Hlen.
  pose proof (batches_cover d query i Hlen) as Hcover.
  set (n := batches (claimed d query)) in *.
  destruct (results_upto_lookup remote generateObjectId schedule d query n i s Hi Hcover)
    as (r & Hr & Hf).
  pose proof (heap_before remote generateObjectId schedule d query i s row Hi Hrow)
    as Hbefore.
  pose proof (heap_after remote generateObjectId schedule d query i s n Hi Hcover)
    as Hafter.
  rewrite (dispatch_heap_own remote _ _ _ Hbefore) in Hafter.
  exists row. rewrite push_eq. fold n.
  eexists _, _, _, r, (heap (batch_start d query n)).
  split; [reflexivity|]. split; [by rewrite <- Hkey|].
  split; [done|]. split; [done|]. split; [done|]. split; [done|].
  split; [done|]. split; [by rewrite list_lookup_fmap, Hr|].
  assert (forall s', s' ∈ claimed d query -> key s' = key s -> s' = s) as Hinj.
  { intros s' Hs' Heq.
    eapply (NoDup_fmap_eq key); [by apply claimed_NoDup_key|done|done|done]. }
  assert (s ∈ failedSyncEntities (batch_start d query n)
          <-> reinstates (task_of d query i s) = true) as Hfailed.
  { rewrite failed_upto. split.
    - intros (i' & s' & _ & Hi' & Hre & ->).
      assert (i' = i) as -> by (by eapply claimed_entity_inj). done.
    - intros Hre. exists i, s. repeat split; try done.
      by apply div_batch_lt. }
  split; [|split].
  - cbn [sync_table].
    destruct (reinstates (task_of d query i s)) eqn:Hre.
    + rewrite reinstate_lookup.
      * by rewrite (list_lookup_total_correct _ _ _ Hafter).
      * by apply Hfailed.
      * intros s' Hs' Heq. apply Hinj; [by eapply failed_are_claimed|done].
    + rewrite reinstate_lookup_ne.
      * rewrite <- Hkey. by apply drain_lookup_claimed.
      * intros s' Hs' Heq.
        assert (s' = s) as -> by (apply Hinj; [by eapply failed_are_claimed|done]).
        apply Hfailed in Hs'. congruence.
  - by apply sent_dispatched.
  - intros Halone.
    destruct (alone_tracked remote generateObjectId schedule d query i s n
                Hi Halone Hcover) as (r' & Hr' & Htr).
    rewrite Hr in Hr'. injection Hr' as <-.
    eapply tracks_stable; [exact Htr|done|done|done].
Qed.

(** *** The task of a sync entity *)

Lemma dispatched_Some d query i s e request response :
  claimed d query !! i = Some s ->
  heap (engine_before d query i) !! entity s = Some e ->
  dispatched d query i = Some (request, response) ->
  task_of d query i s
    = mkTask s (new_Metadata e) (_id e) (Dispatched response) /\
  snd (build_request (engine_before d query i) s) = Some request /\
  response = remote (sent (engine_before d query i)) request /\
  sent (fst (dispatch (engine_before d query i) s))
    = sent (engine_before d query i) ++ [request].
Proof.
  intros Hi He. unfold Sync.dispatched, Sync.task_of. rewrite Hi.
  rewrite dispatch_sent, dispatch_eq. cbn zeta. rewrite (read_lookup _ _ _ He).
  pose proof (build_request_sent (engine_before d query i) s) as (Hs & _).
  destruct (build_request _ s) as [eng1 [req|]]; [|done]. simpl in *.
  rewrite Hs. by intros [= <- <-].
Qed.

Lemma dispatched_None d query i s e :
  claimed d query !! i = Some s ->
  heap (engine_before d query i) !! entity s = Some e ->
  state_method s <> DELETE -> state_method s <> POST -> state_method s <> PUT ->
  dispatched d query i = None /\
  task_of d query i s
    = mkTask s (new_Metadata e) (_id e)
             (Settled (mkResult (_id e) (Ref (entity s))
                                (Some (SyncError unrecognized)))) /\
  snd (build_request (engine_before d query i) s) = None.
Proof.
  intros Hi He H1 H2 H3. unfold Sync.dispatched, Sync.task_of. rewrite Hi.
  rewrite dispatch_eq. cbn zeta. rewrite (read_lookup _ _ _ He).
  destruct (build_request _ s) as [eng1 [req|]] eqn:Hb; [|done].
  destruct (build_request_method _ _ _ _ Hb) as [?|[?|?]]; done.
Qed.

Lemma view_Ref h l e id error :
  h !! l = Some e -> view h (mkResult id (Ref l) error) = mkSyncResult id e error.
Proof. intros H. unfold view. simpl. by rewrite (list_lookup_total_correct _ _ _ H). Qed.
End PushAt.
(** ** The claims about [push] *)

Section PushClaims.
Variable remote : list NetworkRequest -> NetworkRequest -> Response.
Variable generateObjectId : nat -> string.
Variable schedule : list Task -> nat.

Abbreviation push := (Sync.push remote generateObjectId schedule).
Abbreviation engine_before := (Sync.engine_before remote generateObjectId schedule).
Abbreviation dispatched := (Sync.dispatched remote generateObjectId schedule).
Abbreviation task_of := (Sync.task_of remote generateObjectId schedule).

Lemma stripped_no_id e : _id (stripped e) = None.
Proof. reflexivity. Qed.

Lemma stripped_no_local e : _kmd (stripped e) ≫= kmd_local = None.
Proof. unfold stripped, delete_kmd_local. simpl. by destruct (_kmd e). Qed.

Lemma with_entity_row (s : SyncEntity nat) (row : SyncEntity Entity) (e : Entity) :
  s = with_entity row (entity s) -> with_entity s e = with_entity row e.
Proof. intros ->. reflexivity. Qed.

Lemma with_entity_same (row : SyncEntity Entity) : with_entity row (entity row) = row.
Proof. by destruct row. Qed.

Lemma dispatched_method d query i s request response :
  claimed d query !! i = Some s ->
  dispatched d query i = Some (request, response) ->
  state_method s = DELETE \/ state_method s = POST \/ state_method s = PUT.
Proof.
  intros Hi. unfold Sync.dispatched. rewrite Hi.
  destruct (build_request _ s) as [eng1 [req|]] eqn:Hb; [|done].
  intros _. by eapply build_request_method.
Qed.

(** The request of a sync entity whose row is [row]. *)
Lemma dispatched_request d query i s row request response :
  claimed d query !! i = Some s ->
  s = with_entity row (entity s) ->
  heap (engine_before d query i) !! entity s = Some (entity row) ->
  dispatched d query i = Some (request, response) ->
  request =
    match state_method row with
    | DELETE =>
        mkRequest DELETE (EntityPath (collection row) (render (_id (entity row)))) None
    | _ =>
        if isLocal (new_Metadata (entity row))
        then mkRequest POST (CollectionPath (collection row))
                       (Some (stripped (entity row)))
        else mkRequest PUT (EntityPath (collection row) (render (_id (entity row))))
                       (Some (entity row))
    end.
Proof.
  intros Hi Hs Hheap Hd.
  destruct (dispatched_method _ _ _ _ _ _ Hi Hd) as [Hm|Hm].
  - pose proof (build_request_delete _ _ _ Hheap Hm) as Hb.
    unfold Sync.dispatched in Hd. rewrite Hi, Hb in Hd. injection Hd as <- _.
    rewrite Hs in Hm |- *. simpl in *. by rewrite Hm.
  - destruct (isLocal (new_Metadata (entity row))) eqn:Hl.
    + pose proof (build_request_local _ _ _ Hheap Hm Hl) as Hb.
      unfold Sync.dispatched in Hd. rewrite Hi, Hb in Hd. injection Hd as <- _.
      rewrite Hs in Hm |- *. simpl in *. by destruct Hm as [-> | ->].
    + pose proof (build_request_known _ _ _ Hheap Hm Hl) as Hb.
      unfold Sync.dispatched in Hd. rewrite Hi, Hb in Hd. injection Hd as <- _.
      rewrite Hs in Hm |- *. simpl in *. by destruct Hm as [-> | ->].
Qed.

Ltac at_record Hk Hi Hrow :=
  let row' := fresh "row'" in
  let Hrow' := fresh "Hrow'" in
  destruct (push_at remote generateObjectId schedule _ _ _ _ Hk Hi)
    as (row' & d' & results & requests & r & h & Hpush & Hrow' & Hmatch & Hs
        & Hheap & Hf & Hh & Hres & Htab & Hsent & Halone);
  rewrite Hrow in Hrow'; injection Hrow' as <-.

(** The save path does what C1 says: after an
    [InsufficientCredentialsError] the sync entity is not in the sync
    table and the result carries the error. *)
Lemma save_insufficient_credentials_not_reinstated d query i s request :
  keyed (sync_table d) ->
  claimed d query !! i = Some s ->
  state_method s = POST \/ state_method s = PUT ->
  dispatched d query i = Some (request, Fail InsufficientCredentialsError) ->
  exists d' results requests r,
    push d query = Some (d', results, requests) /\
    sync_table d' !! key s = None /\
    results !! i = Some r /\
    result_error r = Some InsufficientCredentialsError.
Proof.
  intros Hk Hi Hm Hd.
  destruct (push_at remote generateObjectId schedule _ _ _ _ Hk Hi)
    as (row & d' & results & requests & r & h & Hpush & Hrow & Hmatch & Hs
        & Hheap & Hf & Hh & Hres & Htab & Hsent & Halone).
  destruct (dispatched_Some _ _ _ _ _ _ _ _ _ _ Hi Hheap Hd) as (Ht & _).
  rewrite Ht in Hf, Htab. unfold Sync.follows in Hf. simpl in Hf. subst r.
  unfold reinstates in Htab. simpl in Htab.
  exists d', results, requests, (view h (mkResult (_id (entity row)) (Ref (entity s))
                                             (Some InsufficientCredentialsError))).
  split; [done|]. split; [by destruct Hm as [Hm|Hm]; rewrite Hm in Htab|].
  split; done.
Qed.

(** The DELETE path puts the sync entity back whatever the error is. *)
Lemma delete_failure_is_always_reinstated d query i s request error :
  keyed (sync_table d) ->
  claimed d query !! i = Some s ->
  state_method s = DELETE ->
  dispatched d query i = Some (request, Fail error) ->
  exists row d' results requests,
    sync_table d !! key s = Some row /\
    push d query = Some (d', results, requests) /\
    sync_table d' !! key s = Some row.
Proof.
  intros Hk Hi Hm Hd.
  destruct (push_at remote generateObjectId schedule _ _ _ _ Hk Hi)
    as (row & d' & results & requests & r & h & Hpush & Hrow & Hmatch & Hs
        & Hheap & Hf & Hh & Hres & Htab & Hsent & Halone).
  destruct (dispatched_Some _ _ _ _ _ _ _ _ _ _ Hi Hheap Hd) as (Ht & _).
  rewrite Ht in Htab. unfold reinstates in Htab. simpl in Htab.
  rewrite Hm in Htab. unfold after_dispatch in Htab.
  exists row, d', results, requests. split; [done|]. split; [done|].
  rewrite (with_entity_row _ _ _ Hs), with_entity_same in Htab.
  by destruct error.
Qed.

(** C4: a sync entity whose dispatch fails with an error that is neither
    [NotFoundError] nor [InsufficientCredentialsError] is in the sync
    table after [push], under its original key, with its entity id,
    collection and method; its entity is the one of the original row, or,
    for a save of an entity created on the device, that entity stripped of
    [_id] and [_kmd.local]. *)
Theorem failed_dispatch_is_reinstated d query i s request error :
  keyed (sync_table d) ->
  claimed d query !! i = Some s ->
  dispatched d query i = Some (request, Fail error) ->
  error <> NotFoundError ->
  error <> InsufficientCredentialsError ->
  exists row d' results requests row',
    sync_table d !! key s = Some row /\
    push d query = Some (d', results, requests) /\
    sync_table d' !! key s = Some row' /\
    key row' = key row /\
    entityId row' = entityId row /\
    collection row' = collection row /\
    state_method row' = state_method row /\
    entity row' =
      (if bool_decide (state_method row = DELETE) then entity row
       else if isLocal (new_Metadata (entity row)) then stripped (entity row)
            else entity row).
Proof.
  intros Hk Hi Hd Hnf Hice.
  destruct (push_at remote generateObjectId schedule _ _ _ _ Hk Hi)
    as (row & d' & results & requests & r & h & Hpush & Hrow & Hmatch & Hs
        & Hheap & Hf & Hh & Hres & Htab & Hsent & Halone).
  destruct (dispatched_Some _ _ _ _ _ _ _ _ _ _ Hi Hheap Hd) as (Ht & _).
  destruct (dispatched_method _ _ _ _ _ _ Hi Hd) as [Hm|Hm].
  - rewrite Ht in Htab. unfold reinstates in Htab. simpl in Htab.
    rewrite Hm in Htab. unfold after_dispatch in Htab.
    rewrite (with_entity_row _ _ _ Hs) in Htab.
    assert (state_method row = DELETE) as Hm' by (rewrite Hs in Hm; exact Hm).
    exists row, d', results, requests, (with_entity row (entity row)).
    split; [done|]. split; [done|]. split; [by destruct error|].
    simpl. by rewrite bool_decide_eq_true_2.
  - rewrite Ht in Htab. unfold reinstates in Htab. simpl in Htab.
    rewrite (with_entity_row _ _ _ Hs) in Htab.
    assert (state_method row = state_method s) as Hm' by (by rewrite Hs).
    exists row, d', results, requests,
      (with_entity row (after_dispatch (state_method s) (entity row))).
    split; [done|]. split; [done|].
    split; [destruct Hm as [Hm|Hm]; rewrite Hm in Htab |- *; by destruct error|].
    simpl. rewrite Hm'.
    destruct Hm as [-> | ->]; by rewrite bool_decide_eq_false_2.
Qed.

(** C10: for a locally created entity of a save, [_id] and [_kmd.local]
    are deleted from the entity object before the POST is sent; when the
    POST fails with an error other than [InsufficientCredentialsError],
    the reinstated row and the result both carry the stripped entity. *)
Theorem local_save_failure_keeps_stripped_entity d query i s row request error :
  keyed (sync_table d) ->
  claimed d query !! i = Some s ->
  sync_table d !! key s = Some row ->
  state_method s = POST \/ state_method s = PUT ->
  isLocal (new_Metadata (entity row)) = true ->
  dispatched d query i = Some (request, Fail error) ->
  error <> InsufficientCredentialsError ->
  request = mkRequest POST (CollectionPath (collection row))
                      (Some (stripped (entity row))) /\
  _id (stripped (entity row)) = None /\
  _kmd (stripped (entity row)) ≫= kmd_local = None /\
  exists d' results requests,
    push d query = Some (d', results, requests) /\
    sync_table d' !! key s = Some (with_entity row (stripped (entity row))) /\
    results !! i = Some (mkSyncResult (_id (entity row)) (stripped (entity row))
                                      (Some error)).
Proof.
  intros Hk Hi Hrow Hm Hl Hd Hice. at_record Hk Hi Hrow.
  destruct (dispatched_Some _ _ _ _ _ _ _ _ _ _ Hi Hheap Hd) as (Ht & _).
  pose proof (dispatched_request _ _ _ _ _ _ _ Hi Hs Hheap Hd) as Hreq.
  assert (state_method row = state_method s) as Hm' by (by rewrite Hs).
  rewrite Hl in Hreq.
  rewrite Ht in Hf, Htab. unfold Sync.follows in Hf. simpl in Hf. subst r.
  unfold reinstates in Htab. simpl in Htab.
  rewrite (with_entity_row _ _ _ Hs) in Htab.
  unfold after_dispatch in Htab, Hh. rewrite Hl in Htab, Hh.
  rewrite (view_Ref _ _ _ _ _ Hh) in Hres.
  split. { rewrite Hm' in Hreq. by destruct Hm as [Hm|Hm]; rewrite Hm in Hreq. }
  split; [apply stripped_no_id|]. split; [apply stripped_no_local|].
  exists d', results, requests. split; [done|].
  destruct Hm as [Hm|Hm]; rewrite Hm in Htab, Hres; by destruct error.
Qed.

(** C2, as the code has it: a DELETE that the remote answers with
    [NotFoundError] yields a result that carries the error, with the
    entity's id and the entity of the row. *)
Theorem delete_not_found_result d query i s row request :
  keyed (sync_table d) ->
  claimed d query !! i = Some s ->
  sync_table d !! key s = Some row ->
  state_method s = DELETE ->
  dispatched d query i = Some (request, Fail NotFoundError) ->
  exists d' results requests,
    push d query = Some (d', results, requests) /\
    results !! i = Some (mkSyncResult (_id (entity row)) (entity row)
                                      (Some NotFoundError)).
Proof.
  intros Hk Hi Hrow Hm Hd. at_record Hk Hi Hrow.
  destruct (dispatched_Some _ _ _ _ _ _ _ _ _ _ Hi Hheap Hd) as (Ht & _).
  rewrite Ht in Hf. unfold Sync.follows in Hf. simpl in Hf. subst r.
  rewrite Hm in Hh. unfold after_dispatch in Hh.
  rewrite (view_Ref _ _ _ _ _ Hh) in Hres.
  by exists d', results, requests.
Qed.

End PushClaims.
(** ** [push] on concrete journals *)

Section PushExamples.
Import Examples.

Lemma keyed_empty : keyed ∅.
Proof. apply map_Forall_empty. Qed.

Lemma keyed_insert t (s : SyncEntity Entity) : keyed t -> keyed (<[key s := s]> t).
Proof. intros Hk. by apply map_Forall_insert_2. Qed.

Lemma keyed_enqueue_entity m c d e :
  keyed (sync_table d) -> keyed (sync_table (fst (enqueue_entity m c d e))).
Proof.
  intros Hk. unfold enqueue_entity. destruct e as [e|]; [|done].
  destruct (negb (truthy (_id e))); [done|]. simpl.
  by apply (keyed_insert _ (mkSyncEntity _ _ _ _ _)).
Qed.

Lemma keyed_enqueue_all m c d l :
  keyed (sync_table d) -> keyed (sync_table (fst (enqueue_all m c d l))).
Proof.
  revert d. induction l as [|e l IH]; intros d Hk; simpl; [done|].
  pose proof (keyed_enqueue_entity m c d e Hk) as H1.
  destruct (enqueue_entity m c d e) as [d1 o1]. specialize (IH d1 H1).
  by destruct (enqueue_all m c d1 l).
Qed.

(** Both enqueue operations keep every row under its key. *)
Lemma keyed_createOperation m d c entities :
  keyed (sync_table d) -> keyed (sync_table (fst (createOperation m d c entities))).
Proof.
  intros Hk. unfold createOperation. destruct (negb (truthy c)); [done|].
  pose proof (keyed_enqueue_all m (default EmptyString c) d (to_array entities) Hk) as H.
  by destruct (enqueue_all _ _ _ _).
Qed.

Lemma keyed_save d e : keyed (sync_table d) -> keyed (sync_table (save d e)).
Proof. apply keyed_createOperation. Qed.

Lemma keyed_remove d e : keyed (sync_table d) -> keyed (sync_table (remove d e)).
Proof. apply keyed_createOperation. Qed.

Lemma keyed_reinstate h failed t : keyed t -> keyed (reinstate h failed t).
Proof.
  unfold reinstate. revert t.
  induction failed as [|s failed IH]; intros t Hk; simpl; [done|].
  apply IH. by apply (keyed_insert _ (with_entity s _)).
Qed.

(** [push] keeps every row under its key. *)
Lemma keyed_push remote schedule d query d' results requests :
  keyed (sync_table d) ->
  Sync.push remote generateObjectId schedule d query = Some (d', results, requests) ->
  keyed (sync_table d').
Proof.
  intros Hk. unfold Sync.push.
  assert (keyed (snd (drain query (sync_table d)))) as Hdrain.
  { unfold drain. simpl. intros k row [Hrow _]%map_lookup_filter_Some.
    by apply Hk. }
  destruct (drain query (sync_table d)) as [rows table]. simpl in Hdrain.
  destruct (0 <? length rows)%nat.
  - destruct (batchSync _ _ _ _ _ _ _ _) as [[eng rs]|]; [|done].
    intros [= <- _ _]. simpl. by apply keyed_reinstate.
  - by intros [= <- _ _].
Qed.

(** C1: a DELETE whose remote call fails with
    [InsufficientCredentialsError] is put back into the sync table: the
    guard of the [catch] handler holds for every error.  The result does
    carry the error, and the repair has run. *)
Theorem delete_insufficient_credentials_is_reinstated :
  forall schedule, exists d' r,
    Sync.push (refusing InsufficientCredentialsError (Ok (known "e" "9")))
              generateObjectId schedule device_delete_e None
      = Some (d', [r],
              [mkRequest DELETE (EntityPath "books" "e") None;
               mkRequest GET (EntityPath "books" "e") None]) /\
    result_error r = Some InsufficientCredentialsError /\
    sync_table d' !! 1%Z = Some (mkSyncEntity 1 "e" "books" DELETE (known "e" "1")) /\
    tables d' !! ("books", "e") = Some (known "e" "9").
Proof.
  intros schedule. eexists _, _. split; [vm_compute; reflexivity|]. by vm_compute.
Qed.

Ltac keyed_by_computation := apply (bool_decide_unpack _); vm_compute; exact I.

(** C2, counterexample: the remote answers the DELETE of [e] with
    [NotFoundError]; the result carries the error and the sync entity is
    back in the sync table. *)
Lemma delete_not_found_is_an_error :
  exists d' r requests,
    Sync.push (refusing NotFoundError (Fail NotFoundError))
              generateObjectId first_outstanding device_delete_e None
      = Some (d', [r], requests) /\
    result_error r = Some NotFoundError /\
    sync_table d' !! 1%Z = Some (mkSyncEntity 1 "e" "books" DELETE (known "e" "1")).
Proof.
  eexists _, _, _. split; [vm_compute; reflexivity|]. by vm_compute.
Qed.

Lemma delete_not_found_result_witness :
  exists d' results requests,
    Sync.push (refusing NotFoundError (Fail NotFoundError))
              generateObjectId first_outstanding device_delete_e None
      = Some (d', results, requests) /\
    results !! 0 = Some (mkSyncResult (Some "e") (known "e" "1") (Some NotFoundError)).
Proof.
  apply (delete_not_found_result
           (refusing NotFoundError (Fail NotFoundError)) generateObjectId
           first_outstanding device_delete_e None 0
           (mkSyncEntity 1 "e" "books" DELETE 0)
           (mkSyncEntity 1 "e" "books" DELETE (known "e" "1"))
           (mkRequest DELETE (EntityPath "books" "e") None)).
  - keyed_by_computation.
  - reflexivity.
  - reflexivity.
  - reflexivity.
  - reflexivity.
Defined.

(** C3: the DELETE of an entity created on the device fails with
    [InsufficientCredentialsError].  The entity is local-marked, and the
    repair runs all the same: a GET for the entity is sent and the document
    it returns is written to the collection table. *)
Theorem delete_of_local_entity_is_repaired :
  forall schedule,
    isLocal (new_Metadata (created "local_ab" "2")) = true /\
    exists d' r,
      Sync.push (refusing InsufficientCredentialsError (Ok (known "local_ab" "9")))
                generateObjectId schedule device_delete_local None
        = Some (d', [r],
                [mkRequest DELETE (EntityPath "books" "local_ab") None;
                 mkRequest GET (EntityPath "books" "local_ab") None]) /\
      result_error r = Some InsufficientCredentialsError /\
      tables device_delete_local !! ("books", "local_ab") = None /\
      tables d' !! ("books", "local_ab") = Some (known "local_ab" "9").
Proof.
  intros schedule. split; [reflexivity|].
  eexists _, _. split; [vm_compute; reflexivity|]. by vm_compute.
Qed.

Lemma failed_dispatch_is_reinstated_witness :
  exists row d' results requests row',
    sync_table device_save_local !! 1%Z = Some row /\
    Sync.push (refusing (OtherError "500") (Fail NotFoundError))
              generateObjectId first_outstanding device_save_local None
      = Some (d', results, requests) /\
    sync_table d' !! 1%Z = Some row' /\
    key row' = key row /\
    entityId row' = entityId row /\
    collection row' = collection row /\
    state_method row' = state_method row /\
    entity row' =
      (if bool_decide (state_method row = DELETE) then entity row
       else if isLocal (new_Metadata (entity row)) then stripped (entity row)
            else entity row).
Proof.
  apply (failed_dispatch_is_reinstated
           (refusing (OtherError "500") (Fail NotFoundError)) generateObjectId
           first_outstanding device_save_local None 0
           (mkSyncEntity 1 "local_ab" "books" POST 0)
           (mkRequest POST (CollectionPath "books")
                      (Some (stripped (created "local_ab" "2"))))
           (OtherError "500")).
  - keyed_by_computation.
  - reflexivity.
  - reflexivity.
  - discriminate.
  - discriminate.
Defined.


Lemma local_save_failure_keeps_stripped_entity_witness :
  let remote := refusing (OtherError "500") (Fail NotFoundError) in
  let row := mkSyncEntity 1%Z "local_ab" "books" POST (created "local_ab" "2") in
  mkRequest POST (CollectionPath "books") (Some (stripped (created "local_ab" "2")))
    = mkRequest POST (CollectionPath (collection row)) (Some (stripped (entity row))) /\
  _id (stripped (entity row)) = None /\
  _kmd (stripped (entity row)) ≫= kmd_local = None /\
  exists d' results requests,
    Sync.push remote generateObjectId first_outstanding device_save_local None
      = Some (d', results, requests) /\
    sync_table d' !! 1%Z = Some (with_entity row (stripped (entity row))) /\
    results !! 0 = Some (mkSyncResult (Some "local_ab") (stripped (entity row))
                                      (Some (OtherError "500"))).
Proof.
  apply (local_save_failure_keeps_stripped_entity
           (refusing (OtherError "500") (Fail NotFoundError)) generateObjectId
           first_outstanding device_save_local None 0
           (mkSyncEntity 1 "local_ab" "books" POST 0)
           (mkSyncEntity 1 "local_ab" "books" POST (created "local_ab" "2"))
           (mkRequest POST (CollectionPath "books")
                      (Some (stripped (created "local_ab" "2"))))
           (OtherError "500")).
  - keyed_by_computation.
  - reflexivity.
  - reflexivity.
  - left. reflexivity.
  - reflexivity.
  - reflexivity.
  - discriminate.
Defined.
End PushExamples.
(** ** [count] and the enqueue operations *)

Section JournalClaims.
Import Examples.

(** C6: after saves of [a], [b] and [a] again, two entities wait to be
    synced and [count] returns 3: ordered by key the two sync entities of
    [a] are not adjacent, and [sortedUniqBy] only drops an element equal
    to the one before it. *)
Theorem count_of_interleaved_entities :
  (key <$> find_sync None (sync_table device_aba),
   entityId <$> orderBy_desc key (find_sync None (sync_table device_aba)))
    = ([3; 2; 1]%Z, ["a"; "b"; "a"]) /\
  distinct_entityIds device_aba None = 2 /\
  count device_aba None = 3.
Proof. by vm_compute. Qed.

(** When every matching sync entity is of one entity, [count] is 1. *)
Lemma count_single_entity d query id :
  find_sync query (sync_table d) <> [] ->
  Forall (fun s => entityId s = id) (find_sync query (sync_table d)) ->
  count d query = 1.
Proof.
  intros Hne Hall. unfold count.
  apply (sortedUniqBy_constant entityId id).
  - intros Hnil. apply Hne. apply Permutation_nil_r.
    rewrite <- Hnil. symmetry. apply orderBy_desc_Permutation.
  - by rewrite orderBy_desc_Permutation.
Qed.

Lemma sync_table_save d e id :
  _id e = Some id -> id <> EmptyString ->
  sync_table (save d e)
    = <[js_add (default 0%Z (syncKey d)) 1 :=
          mkSyncEntity (js_add (default 0%Z (syncKey d)) 1) id "books" POST e]>
        (sync_table d).
Proof.
  intros He Hid. unfold save, createSaveOperation, createOperation. simpl.
  unfold enqueue_entity. rewrite He. simpl.
  by destruct (String.eqb_spec id EmptyString).
Qed.

Lemma saves_entityId id versions d :
  id <> EmptyString ->
  Forall (fun e => _id e = Some id) versions ->
  map_Forall (fun _ row => entityId row = id) (sync_table d) ->
  map_Forall (fun _ row => entityId row = id) (sync_table (foldl save d versions)).
Proof.
  intros Hid Hall. revert d.
  induction Hall as [|e l He _ IH]; intros d Hd; simpl; [done|].
  apply IH. rewrite (sync_table_save d e id He Hid). by apply map_Forall_insert_2.
Qed.

Lemma saves_nonempty id versions d :
  id <> EmptyString -> versions <> [] ->
  Forall (fun e => _id e = Some id) versions ->
  sync_table (foldl save d versions) <> ∅.
Proof.
  intros Hid Hne Hall.
  destruct (exists_last Hne) as (l & e & ->).
  apply Forall_app in Hall as [_ He]. apply Forall_inv in He.
  rewrite foldl_app. simpl. rewrite (sync_table_save _ e id He Hid).
  apply insert_non_empty.
Qed.

(** Saves of one entity, from the empty journal: [count] is 1. *)
Lemma count_after_repeated_saves (versions : list Entity) id :
  versions <> [] -> id <> EmptyString ->
  Forall (fun e => _id e = Some id) versions ->
  count (foldl save empty_device versions) None = 1.
Proof.
  intros Hne Hid Hall.
  pose proof (saves_entityId id versions empty_device Hid Hall (map_Forall_empty _)) as Hids.
  pose proof (saves_nonempty id versions empty_device Hid Hne Hall) as Hnonempty.
  apply (count_single_entity _ _ id).
  - apply map_choose in Hnonempty as (k & row & Hrow).
    intros Hnil. apply (elem_of_nil row). rewrite <- Hnil.
    apply list_elem_of_filter. split; [done|].
    apply list_elem_of_fmap. exists (k, row). split; [done|].
    by apply elem_of_map_to_list.
  - apply Forall_forall. intros row [_ Hin]%list_elem_of_filter.
    apply list_elem_of_fmap in Hin as ([k r] & -> & Hkr).
    apply elem_of_map_to_list in Hkr. by apply (Hids k r).
Qed.

Lemma enqueue_all_rejects method c d (l : list (option Entity)) e :
  Some e ∈ l -> truthy (_id e) = false ->
  snd (enqueue_all method c d l) = Rejected (SyncError missing_id).
Proof.
  intros Hin Hid. revert d.
  induction l as [|x l IH]; intros d; [by apply elem_of_nil in Hin|].
  simpl.
  destruct (enqueue_entity method c d x) as [d1 o1] eqn:E1.
  assert (o1 = Rejected (SyncError missing_id) \/ o1 = Resolved tt) as Ho1.
  { unfold enqueue_entity in E1. destruct x as [x|]; [|injection E1; auto].
    destruct (negb (truthy (_id x))); injection E1; auto. }
  apply elem_of_cons in Hin as [Hx|Hin].
  - subst x. unfold enqueue_entity in E1. rewrite Hid in E1. simpl in E1.
    injection E1 as <- <-. by destruct (enqueue_all method c d l).
  - specialize (IH Hin d1). destruct (enqueue_all method c d1 l) as [d2 o2].
    simpl in *. destruct Ho1 as [-> | ->]; [done|exact IH].
Qed.

(** C7: both enqueue operations throw a [SyncError] and write nothing
    when the collection name is missing, and throw a [SyncError] when some
    entity that was provided has no [_id]. *)
Theorem enqueue_validation d collection entities :
  (truthy collection = false ->
     createSaveOperation d collection entities
       = (d, Rejected (SyncError missing_collection)) /\
     createDeleteOperation d collection entities
       = (d, Rejected (SyncError missing_collection))) /\
  (truthy collection = true ->
     (exists e, Some e ∈ to_array entities /\ truthy (_id e) = false) ->
     snd (createSaveOperation d collection entities)
       = Rejected (SyncError missing_id) /\
     snd (createDeleteOperation d collection entities)
       = Rejected (SyncError missing_id)).
Proof.
  unfold createSaveOperation, createDeleteOperation, createOperation. split.
  - intros ->. done.
  - intros -> (e & Hin & Hid). simpl.
    split.
    + pose proof (enqueue_all_rejects POST (default EmptyString collection) d _ e Hin Hid) as H.
      destruct (enqueue_all POST _ d _) as [d' o]. simpl in *. by rewrite H.
    + pose proof (enqueue_all_rejects DELETE (default EmptyString collection) d _ e Hin Hid) as H.
      destruct (enqueue_all DELETE _ d _) as [d' o]. simpl in *. by rewrite H.
Qed.

Lemma enqueue_validation_witness :
  (createSaveOperation device_aba None (One (Some (known "z" "1")))
     = (device_aba, Rejected (SyncError missing_collection)) /\
   createDeleteOperation device_aba None (One (Some (known "z" "1")))
     = (device_aba, Rejected (SyncError missing_collection))) /\
  (snd (createSaveOperation device_aba (Some "books")
          (Many [Some (known "z" "1"); None; Some (mkEntity None None [])]))
     = Rejected (SyncError missing_id) /\
   snd (createDeleteOperation device_aba (Some "books")
          (Many [Some (known "z" "1"); None; Some (mkEntity None None [])]))
     = Rejected (SyncError missing_id)).
Proof.
  split.
  - apply (enqueue_validation device_aba None (One (Some (known "z" "1")))).
    reflexivity.
  - apply (enqueue_validation device_aba (Some "books")
             (Many [Some (known "z" "1"); None; Some (mkEntity None None [])])).
    + reflexivity.
    + exists (mkEntity None None []). split; [|reflexivity].
      simpl. do 2 right. left.
Defined.
End JournalClaims.

(** ** The local store and the WebSQL adapter *)

Section StoreClaims.
Import Pattern Examples.

(** The test of the code: the name starts with a character of the class. *)
Lemma validCollectionRegex_test_spec s :
  validCollectionRegex_test s = true <->
  exists c rest, s = String c rest /\ in_class c = true.
Proof.
  unfold validCollectionRegex_test. split.
  - destruct s as [|c rest]; [done|]. simpl.
    destruct (in_class c) eqn:Hc; [eauto|done].
  - intros (c & rest & -> & Hc). simpl. by rewrite Hc.
Qed.

(** Every name the specification's pattern accepts passes the test. *)
Lemma spec_name_pattern_accepted s :
  spec_name_pattern s = true -> validCollectionRegex_test s = true.
Proof.
  unfold spec_name_pattern. intros H. apply validCollectionRegex_test_spec.
  destruct s as [|c rest]; [done|]. simpl in H.
  exists c, rest. split; [done|].
  apply andb_true_iff in H as [_ H]. by apply andb_true_iff in H as [H _].
Qed.

(** C8: the pattern of the specification rejects the database name [a!]
    and a collection name of 129 characters, and the constructor builds
    the store: the regular expression has no end anchor. *)
Theorem store_accepts_invalid_names :
  spec_name_pattern "a!" = false /\
  Store.constructor (fun _ => true) [Store.StoreAdapter_IndexedDB]
    (Store.mkDbInfo (Some (Store.JString "a!")) None)
    = Store.Built Store.IndexedDBAdapter (Store.JString "a!") (Store.JString "data") /\
  let long := String.concat EmptyString (repeat "a" 129) in
  String.length long = 129 /\
  spec_name_pattern long = false /\
  Store.constructor (fun _ => true) [Store.StoreAdapter_IndexedDB]
    (Store.mkDbInfo None (Some (Store.JString long)))
    = Store.Built Store.IndexedDBAdapter (Store.JString "kinvey") (Store.JString long).
Proof. by vm_compute. Qed.

(** [clearAll] leaves every database as it is and rejects: its SELECT still
    holds the placeholder [#{collection}], which [execute] does not
    replace. *)
Lemma clearAll_changes_nothing db : WebSQL.clearAll db = (db, WebSQL.Rejected).
Proof. reflexivity. Qed.

(** With the placeholder [execute] knows, the SELECT runs, and the promise
    of [execute] stays pending: nothing resolves it. *)
Lemma execute_never_resolves db tableName sqlQueries write response :
  snd (WebSQL.execute db tableName sqlQueries write) <> WebSQL.Resolved response.
Proof.
  unfold WebSQL.execute.
  destruct (if write && negb _ then _ else _) as [db1|]; [|done].
  by destruct (WebSQL.run _ db1 sqlQueries) as [[db2 rs]|].
Qed.

(** The filter of [clearAll] keeps a table by the first character of its
    name: a user table whose name starts with an underscore gets no DROP. *)
Lemma drop_queries_skips_underscore :
  WebSQL.drop_queries ["_cache"; "books"] = [("DROP TABLE IF EXISTS 'books'", [])].
Proof. reflexivity. Qed.

(** C9: the database holds the user table [books]; after [clearAll] the
    table is still there with its row, and [clearAll] has rejected. *)
Theorem clearAll_leaves_user_table :
  WebSQL.db_tables database_books !! "books" = Some [("1", "one")] /\
  snd (WebSQL.clearAll database_books) = WebSQL.Rejected /\
  WebSQL.db_tables (fst (WebSQL.clearAll database_books)) !! "books"
    = Some [("1", "one")].
Proof. by vm_compute. Qed.
End StoreClaims.

(** * Further properties of the code *)

(** ** [push] as a whole *)

Section PushWhole.
Variable remote : list NetworkRequest -> NetworkRequest -> Response.
Variable generateObjectId : nat -> string.
Variable schedule : list Task -> nat.

Abbreviation push' := (Sync.push remote generateObjectId schedule).
Abbreviation batch_start' := (Sync.batch_start remote generateObjectId schedule).

Lemma claimed_nil d query :
  find_sync query (sync_table d) = [] -> claimed d query = [].
Proof. intros H. unfold claimed. by rewrite H. Qed.

Lemma batches_enough (l : list (SyncEntity nat)) : length l <= batches l * batchSize.
Proof.
  unfold batches, batchSize.
  pose proof (Nat.div_mod_eq (length l - 1) 100) as Hdm.
  pose proof (Nat.mod_upper_bound (length l - 1) 100) as Hm. lia.
Qed.

(** X1: [push] resolves for every journal, query and remote, with exactly one
    result for each claimed sync entity; it sends at most two requests for
    each of them and leaves the key counter as it was. *)
Theorem push_one_result_per_entity d query :
  exists d' results requests,
    push' d query = Some (d', results, requests) /\
    length results = length (claimed d query) /\
    length requests <= 2 * length (claimed d query) /\
    syncKey d' = syncKey d.
Proof.
  rewrite push_eq.
  pose proof (batches_enough (claimed d query)) as Hcover.
  pose proof (results_upto_length remote generateObjectId schedule d query
                (batches (claimed d query))) as Hlen.
  pose proof (sent_upto_length remote generateObjectId schedule d query
                (batches (claimed d query))) as Hsent.
  eexists _, _, _. split; [reflexivity|].
  split; [rewrite length_fmap; lia|]. split; [lia|done].
Qed.

Lemma drain_without_match query (t : gmap Z (SyncEntity Entity)) :
  find_sync query t = [] -> snd (drain query t) = t.
Proof.
  intros Hrows. unfold drain. simpl. apply map_filter_id. intros k row Hk. simpl.
  destruct (matches query row) eqn:Hm; [|done].
  exfalso. apply (elem_of_nil row). rewrite <- Hrows.
  apply list_elem_of_filter. split; [done|].
  apply list_elem_of_fmap. exists (k, row). split; [done|].
  by apply elem_of_map_to_list.
Qed.

(** X2: when no row of the sync table matches the query, [push] resolves
    with no result, sends nothing and leaves the device as it is. *)
Theorem push_without_matching_rows d query :
  find_sync query (sync_table d) = [] ->
  push' d query = Some (d, [], []).
Proof.
  intros Hrows. unfold Sync.push.
  assert (drain query (sync_table d)
          = (find_sync query (sync_table d), snd (drain query (sync_table d)))) as ->
    by done.
  rewrite Hrows. cbn [length Nat.ltb Nat.leb].
  rewrite (drain_without_match _ _ Hrows). by destruct d.
Qed.

Lemma claimed_row d query s :
  keyed (sync_table d) -> s ∈ claimed d query ->
  exists row, sync_table d !! key s = Some row /\ matches query row = true.
Proof.
  intros Hk Hs. destruct (claimed_elem _ _ _ Hs) as (row & Hrow & Hwith).
  assert (row ∈ find_sync query (sync_table d)) as Hin
    by (by eapply list_elem_of_lookup_2).
  destruct (find_sync_elem _ _ _ Hk Hin) as [Hl Hm].
  exists row. split; [|done]. by rewrite Hwith.
Qed.

(** X3: a row of the sync table that the query does not match is still
    there, unchanged, after [push]. *)
Theorem push_leaves_other_rows d query k row :
  keyed (sync_table d) ->
  sync_table d !! k = Some row ->
  matches query row = false ->
  exists d' results requests,
    push' d query = Some (d', results, requests) /\
    sync_table d' !! k = Some row.
Proof.
  intros Hk Hrow Hm. rewrite push_eq.
  pose proof (failed_are_claimed remote generateObjectId schedule d query
                (batches (claimed d query))) as Hfailed.
  eexists _, _, _. split; [reflexivity|]. simpl.
  rewrite reinstate_lookup_ne.
  - apply map_lookup_filter_Some. split; [done|]. simpl. done.
  - intros s Hs Heq. apply Hfailed in Hs.
    destruct (claimed_row _ _ _ Hk Hs) as (row' & Hrow' & Hm').
    rewrite Heq, Hrow in Hrow'. injection Hrow' as <-. congruence.
Qed.

(** X4: a matching row that the coalescer drops (no claimed sync entity has
    its key) is removed from the sync table and never put back, whatever
    happens to the sync entity that superseded it. *)
Theorem push_discards_superseded d query k row :
  keyed (sync_table d) ->
  sync_table d !! k = Some row ->
  matches query row = true ->
  (forall s, s ∈ claimed d query -> key s <> k) ->
  exists d' results requests,
    push' d query = Some (d', results, requests) /\
    sync_table d' !! k = None.
Proof.
  intros Hk Hrow Hm Hnot. rewrite push_eq.
  pose proof (failed_are_claimed remote generateObjectId schedule d query
                (batches (claimed d query))) as Hfailed.
  eexists _, _, _. split; [reflexivity|]. simpl.
  rewrite reinstate_lookup_ne.
  - apply map_lookup_filter_None. right. intros row' Hrow'. simpl.
    rewrite Hrow in Hrow'. injection Hrow' as <-. by rewrite Hm.
  - intros s Hs. apply Hnot. by apply Hfailed.
Qed.

(** X5: [push] keeps the sync table well formed: every row stays under its
    key and no key exceeds the key counter. *)
Theorem push_keeps_journal_invariants d query :
  keyed (sync_table d) -> bounded d ->
  exists d' results requests,
    push' d query = Some (d', results, requests) /\
    keyed (sync_table d') /\ bounded d'.
Proof.
  intros Hk Hb. rewrite push_eq.
  pose proof (failed_are_claimed remote generateObjectId schedule d query
                (batches (claimed d query))) as Hfailed.
  set (eng := batch_start' d query (batches (claimed d query))) in *.
  eexists _, _, _. split; [reflexivity|]. simpl.
  assert (keyed (snd (drain query (sync_table d)))) as Hdrain.
  { unfold drain. simpl. intros k row [Hrow _]%map_lookup_filter_Some.
    by apply Hk. }
  split; [by apply keyed_reinstate|].
  unfold bounded. simpl. intros k row Hrow.
  destruct (decide (k ∈ key <$> failedSyncEntities eng)) as [Hin|Hno].
  - apply list_elem_of_fmap in Hin as (s & -> & Hs).
    apply Hfailed in Hs. destruct (claimed_row _ _ _ Hk Hs) as (row' & Hrow' & _).
    by apply (Hb _ _ Hrow').
  - rewrite reinstate_lookup_ne in Hrow
      by (intros s Hs Heq; apply Hno; rewrite <- Heq; by apply list_elem_of_fmap_2).
    apply map_lookup_filter_Some in Hrow as [Hrow _]. by apply (Hb _ _ Hrow).
Qed.
End PushWhole.

(** ** [push], one sync entity at a time: the paths the claims leave out *)

Section PushPaths.
Variable remote : list NetworkRequest -> NetworkRequest -> Response.
Variable generateObjectId : nat -> string.
Variable schedule : list Task -> nat.

Abbreviation push2 := (Sync.push remote generateObjectId schedule).
Abbreviation engine_before2 := (Sync.engine_before remote generateObjectId schedule).
Abbreviation dispatched2 := (Sync.dispatched remote generateObjectId schedule).
Abbreviation task_of2 := (Sync.task_of remote generateObjectId schedule).

Ltac at_entity Hk Hi Hrow :=
  let row' := fresh "row'" in
  let Hrow' := fresh "Hrow'" in
  destruct (push_at remote generateObjectId schedule _ _ _ _ Hk Hi)
    as (row' & d' & results & requests & r & h & Hpush & Hrow' & Hmatch & Hs
        & Hheap & Hf & Hh & Hres & Htab & Hsent & Halone);
  rewrite Hrow in Hrow'; injection Hrow' as <-.

Lemma settled_result_id d query i s e r :
  heap (engine_before2 d query i) !! entity s = Some e ->
  follows generateObjectId (task_of2 d query i s) (Settled r) ->
  res_id r = _id e.
Proof.
  intros He. unfold Sync.task_of. rewrite dispatch_eq. cbn zeta.
  rewrite (read_lookup _ _ _ He).
  destruct (snd (build_request _ s)) as [request|]; unfold Sync.follows; simpl.
  - destruct (remote _ request) as [data|error]; [|by intros ->].
    destruct (decide _) as [Hdel|Hdel]; [by intros ->|]. by intros [k ->].
  - by intros [= ->].
Qed.

Lemma stripped_not_local e : isLocal (new_Metadata (stripped e)) = false.
Proof.
  unfold isLocal, new_Metadata, stripped, delete_kmd_local. simpl.
  by destruct (_kmd e).
Qed.

(** X6: the result at position [i] belongs to the sync entity at position
    [i] of the claimed list: its [_id] is the [_id] of that entity as the
    sync table held it. *)
Theorem push_results_follow_claimed d query i s row :
  keyed (sync_table d) ->
  claimed d query !! i = Some s ->
  sync_table d !! key s = Some row ->
  exists d' results requests r,
    push2 d query = Some (d', results, requests) /\
    results !! i = Some r /\
    result_id r = _id (entity row).
Proof.
  intros Hk Hi Hrow. at_entity Hk Hi Hrow.
  eexists d', results, requests, _. split; [done|]. split; [exact Hres|].
  unfold view. simpl. by apply (settled_result_id d query i s).
Qed.

(** X7: a sync entity whose method is neither DELETE, POST nor PUT gets an
    error result with a [SyncError], no request is built for it and it is
    not put back into the sync table; when no other sync entity of the push
    belongs to its collection, [push] sends no request for the collection
    and leaves the rows of the collection as they were. *)
Theorem push_unrecognized_method d query i s row :
  keyed (sync_table d) ->
  claimed d query !! i = Some s ->
  sync_table d !! key s = Some row ->
  state_method s <> DELETE -> state_method s <> POST -> state_method s <> PUT ->
  dispatched2 d query i = None /\
  exists d' results requests,
    push2 d query = Some (d', results, requests) /\
    results !! i = Some (mkSyncResult (_id (entity row)) (entity row)
                                      (Some (SyncError unrecognized))) /\
    sync_table d' !! key s = None /\
    ((forall j s', claimed d query !! j = Some s' -> j <> i ->
                   collection s' <> collection row) ->
     requests_for (collection row) requests = [] /\
     forall x, tables d' !! (collection row, x) = tables d !! (collection row, x)).
Proof.
  intros Hk Hi Hrow H1 H2 H3. at_entity Hk Hi Hrow.
  destruct (dispatched_None remote generateObjectId schedule _ _ _ _ _ Hi Hheap H1 H2 H3)
    as (Hd & Ht & Hb).
  assert (collection s = collection row) as Hc by (by rewrite Hs).
  assert (state_method s = state_method row) as Hm by (by rewrite Hs).
  rewrite Ht, Hb in Halone. rewrite Ht in Hf, Htab.
  unfold Sync.follows in Hf. simpl in Hf. injection Hf as ->.
  unfold reinstates in Htab. simpl in Htab.
  assert (after_dispatch (state_method s) (entity row) = entity row) as Hsame
    by (unfold after_dispatch; by destruct (state_method s)).
  rewrite Hsame in Hh. rewrite (view_Ref _ _ _ _ _ Hh) in Hres.
  split; [done|]. exists d', results, requests.
  split; [done|]. split; [done|]. split; [done|]. intros Hothers.
  destruct Halone as [Hreqs Hloc].
  { intros j s' Hj Hji. rewrite Hc. by apply (Hothers j). }
  unfold repairs, written in Hreqs, Hloc. simpl in Hreqs, Hloc.
  rewrite Hc in Hreqs, Hloc. split; [exact Hreqs|exact Hloc].
Qed.

(** X8: a DELETE that the remote accepts is sent to the path of the entity,
    yields a result without error that carries the entity of the row, and
    the sync entity is gone from the sync table; when no other sync entity
    of the push belongs to its collection, the DELETE is the only request
    [push] sends for the collection, and the rows of the collection are left
    as they were. *)
Theorem push_delete_acknowledged d query i s row request data :
  keyed (sync_table d) ->
  claimed d query !! i = Some s ->
  sync_table d !! key s = Some row ->
  state_method s = DELETE ->
  dispatched2 d query i = Some (request, Ok data) ->
  request = mkRequest DELETE
              (EntityPath (collection row) (render (_id (entity row)))) None /\
  exists d' results requests,
    push2 d query = Some (d', results, requests) /\
    request ∈ requests /\
    results !! i = Some (mkSyncResult (_id (entity row)) (entity row) None) /\
    sync_table d' !! key s = None /\
    ((forall j s', claimed d query !! j = Some s' -> j <> i ->
                   collection s' <> collection row) ->
     requests_for (collection row) requests = [request] /\
     forall x, tables d' !! (collection row, x) = tables d !! (collection row, x)).
Proof.
  intros Hk Hi Hrow Hm Hd. at_entity Hk Hi Hrow.
  destruct (dispatched_Some remote generateObjectId schedule _ _ _ _ _ _ _ Hi Hheap Hd)
    as (Ht & Hb & _ & Hsent').
  pose proof (dispatched_request _ _ _ _ _ _ _ _ _ _ Hi Hs Hheap Hd) as Hreq.
  assert (collection s = collection row) as Hc by (by rewrite Hs).
  assert (state_method row = DELETE) as Hm' by (rewrite Hs in Hm; exact Hm).
  rewrite Hm' in Hreq.
  rewrite Ht, Hb in Halone. rewrite Ht in Hf, Htab.
  unfold Sync.follows in Hf. simpl in Hf.
  rewrite decide_True in Hf by done. subst r.
  unfold reinstates in Htab. simpl in Htab.
  rewrite Hm in Hh. unfold after_dispatch in Hh.
  rewrite (view_Ref _ _ _ _ _ Hh) in Hres.
  split; [done|]. exists d', results, requests. split; [done|].
  split. { eapply elem_of_prefix; [|exact Hsent]. rewrite Hsent'.
           apply elem_of_app. right. by left. }
  split; [done|]. split; [done|]. intros Hothers.
  destruct Halone as [Hreqs Hloc].
  { intros j s' Hj Hji. rewrite Hc. by apply (Hothers j). }
  unfold repairs, written in Hreqs, Hloc. simpl in Hreqs, Hloc.
  rewrite Hc in Hreqs, Hloc. split; [exact Hreqs|exact Hloc].
Qed.

(** X9: a save of a server-known entity that the remote accepts is sent as a
    PUT of the entity to its own path, the result carries the returned
    document under the original [_id], and the sync entity is gone from the
    sync table; when no other sync entity of the push belongs to its
    collection, the PUT is the only request [push] sends for the collection,
    and the collection table that [push] leaves holds the returned document
    under its [_id] and its other rows as they were. *)
Theorem push_update_acknowledged d query i s row request doc id :
  keyed (sync_table d) ->
  claimed d query !! i = Some s ->
  sync_table d !! key s = Some row ->
  state_method s = POST \/ state_method s = PUT ->
  isLocal (new_Metadata (entity row)) = false ->
  dispatched2 d query i = Some (request, Ok doc) ->
  _id doc = Some id -> id <> EmptyString ->
  request = mkRequest PUT (EntityPath (collection row) (render (_id (entity row))))
                      (Some (entity row)) /\
  exists d' results requests,
    push2 d query = Some (d', results, requests) /\
    request ∈ requests /\
    results !! i = Some (mkSyncResult (_id (entity row)) doc None) /\
    sync_table d' !! key s = None /\
    ((forall j s', claimed d query !! j = Some s' -> j <> i ->
                   collection s' <> collection row) ->
     requests_for (collection row) requests = [request] /\
     tables d' !! (collection row, id) = Some doc /\
     forall x, x <> id ->
               tables d' !! (collection row, x) = tables d !! (collection row, x)).
Proof.
  intros Hk Hi Hrow Hm Hl Hd Hdoc Hne. at_entity Hk Hi Hrow.
  destruct (dispatched_Some remote generateObjectId schedule _ _ _ _ _ _ _ Hi Hheap Hd)
    as (Ht & Hb & _ & Hsent').
  pose proof (dispatched_request _ _ _ _ _ _ _ _ _ _ Hi Hs Hheap Hd) as Hreq.
  assert (collection s = collection row) as Hc by (by rewrite Hs).
  assert (state_method row = state_method s) as Hm' by (by rewrite Hs).
  assert (state_method s <> DELETE) as Hnd by (destruct Hm as [-> | ->]; done).
  rewrite Hl in Hreq.
  assert (request = mkRequest PUT
                      (EntityPath (collection row) (render (_id (entity row))))
                      (Some (entity row))) as Hrequest.
  { rewrite Hm' in Hreq. by destruct Hm as [Hm|Hm]; rewrite Hm in Hreq. }
  rewrite Ht, Hb in Halone. rewrite Ht in Hf, Htab.
  unfold Sync.follows in Hf. simpl in Hf.
  rewrite decide_False in Hf by done. destruct Hf as [n ->].
  rewrite (saved_as_id generateObjectId n doc id Hdoc Hne) in *.
  unfold reinstates in Htab. simpl in Htab.
  split; [done|]. exists d', results, requests. split; [done|].
  split. { eapply elem_of_prefix; [|exact Hsent]. rewrite Hsent'.
           apply elem_of_app. right. by left. }
  split; [done|]. split; [done|]. intros Hothers.
  destruct Halone as [Hreqs Hloc].
  { intros j s' Hj Hji. rewrite Hc. by apply (Hothers j). }
  unfold repairs, written in Hreqs, Hloc. simpl in Hreqs, Hloc.
  rewrite Hl, Hc, Hdoc in Hloc. rewrite Hc in Hreqs. simpl in Hloc.
  split; [exact Hreqs|]. split.
  - rewrite Hloc. apply lookup_insert_eq.
  - intros x Hx. rewrite Hloc. rewrite lookup_insert_ne by congruence. done.
Qed.

(** X10: a save that fails with [InsufficientCredentialsError] is dropped:
    the sync table no longer holds the sync entity, and the result carries
    the error together with the entity object as the dispatch left it. *)
Theorem save_credentials_failure_drops_record d query i s row request :
  keyed (sync_table d) ->
  claimed d query !! i = Some s ->
  sync_table d !! key s = Some row ->
  state_method s = POST \/ state_method s = PUT ->
  dispatched2 d query i = Some (request, Fail InsufficientCredentialsError) ->
  exists d' results requests,
    push2 d query = Some (d', results, requests) /\
    sync_table d' !! key s = None /\
    results !! i =
      Some (mkSyncResult (_id (entity row))
              (if isLocal (new_Metadata (entity row))
               then stripped (entity row) else entity row)
              (Some InsufficientCredentialsError)).
Proof.
  intros Hk Hi Hrow Hm Hd. at_entity Hk Hi Hrow.
  destruct (dispatched_Some remote generateObjectId schedule _ _ _ _ _ _ _ Hi Hheap Hd)
    as (Ht & _).
  rewrite Ht in Hf, Htab. unfold Sync.follows in Hf. simpl in Hf. subst r.
  unfold reinstates in Htab. simpl in Htab.
  rewrite (view_Ref _ _ _ _ _ Hh) in Hres. unfold after_dispatch in Hres.
  exists d', results, requests. split; [done|].
  destruct Hm as [Hm|Hm]; rewrite Hm in Htab, Hres; done.
Qed.

(** X11: a save whose entity has gone through the stripping of a failed
    create (no [_id], no [_kmd.local]) is sent as a PUT to the path of the
    id [undefined], with the stripped entity as body. *)
Theorem stripped_entity_is_put_to_undefined d query i s row e :
  keyed (sync_table d) ->
  claimed d query !! i = Some s ->
  sync_table d !! key s = Some row ->
  state_method s = POST \/ state_method s = PUT ->
  entity row = stripped e ->
  exists response,
    dispatched2 d query i
      = Some (mkRequest PUT (EntityPath (collection row) "undefined")
                        (Some (stripped e)),
              response).
Proof.
  intros Hk Hi Hrow Hm He. at_entity Hk Hi Hrow.
  assert (collection s = collection row) as Hc by (by rewrite Hs).
  rewrite He in Hheap.
  unfold Sync.dispatched. rewrite Hi.
  rewrite (build_request_known _ _ _ Hheap Hm (stripped_not_local e)).
  rewrite Hc. simpl. eauto.
Qed.

End PushPaths.
(** ** [count], [clear] and the enqueue operations *)

Section JournalMore.
Context {A B : Type} `{EqDecision B}.
Implicit Types (f : A -> B) (l : list A).

Lemma baseSortedUniq_covers f seen l x :
  x ∈ l -> f x ∈ f <$> baseSortedUniq f seen l \/ seen = Some (f x).
Proof.
  revert seen. induction l as [|y l IH]; intros seen Hx; [by apply elem_of_nil in Hx|].
  cbn [baseSortedUniq]. apply elem_of_cons in Hx as [Hxy|Hx].
  - subst y. destruct seen as [s|].
    + destruct (decide (f x = s)) as [Heq|Hne]; [right; by rewrite Heq|].
      left. rewrite fmap_cons. by left.
    + left. rewrite fmap_cons. by left.
  - assert (f x ∈ f <$> (y :: baseSortedUniq f (Some (f y)) l)) as Hkept.
    { rewrite fmap_cons.
      destruct (IH (Some (f y)) Hx) as [Hin|Heq]; [by right|].
      injection Heq as Heq. rewrite Heq. by left. }
    destruct seen as [s|]; [|by left].
    destruct (decide (f y = s)) as [Heq|Hne]; [by apply IH|by left].
Qed.

Lemma baseSortedUniq_NoDup f seen l :
  NoDup (f <$> l) -> (forall s, seen = Some s -> s ∉ f <$> l) ->
  baseSortedUniq f seen l = l.
Proof.
  revert seen. induction l as [|y l IH]; intros seen Hnd Hseen; [done|].
  simpl. rewrite fmap_cons in Hnd. apply NoDup_cons in Hnd as [Hy Hnd].
  assert (baseSortedUniq f (Some (f y)) l = l) as Hrest.
  { apply IH; [done|]. by intros s [= <-]. }
  destruct seen as [s|]; [|by rewrite Hrest].
  destruct (decide (f y = s)) as [<-|Hne]; [|by rewrite Hrest].
  exfalso. apply (Hseen (f y) eq_refl). rewrite fmap_cons. by left.
Qed.
End JournalMore.

Section CountAndClear.
Implicit Types (d : Device) (query : option Query).

(** X12: [count] is never below the number of distinct entity ids among the
    matching rows and never above the number of matching rows. *)
Theorem count_bounds d query :
  distinct_entityIds d query <= count d query /\
  count d query <= length (find_sync query (sync_table d)).
Proof.
  unfold distinct_entityIds, count.
  set (rows := find_sync query (sync_table d)). split.
  - rewrite <- (length_fmap entityId (sortedUniqBy entityId _)).
    apply submseteq_length, NoDup_submseteq; [apply NoDup_remove_dups|].
    intros id Hid. rewrite elem_of_remove_dups in Hid.
    apply list_elem_of_fmap in Hid as (row & -> & Hrow).
    rewrite <- (orderBy_desc_Permutation key rows) in Hrow.
    by destruct (baseSortedUniq_covers entityId None _ _ Hrow).
  - rewrite <- (Permutation_length (orderBy_desc_Permutation key rows)).
    apply sublist_length, baseSortedUniq_sublist.
Qed.

(** X13: when the matching rows are of pairwise distinct entities, [count]
    is their number. *)
Theorem count_of_distinct_entities d query :
  NoDup (entityId <$> find_sync query (sync_table d)) ->
  count d query = length (find_sync query (sync_table d)) /\
  count d query = distinct_entityIds d query.
Proof.
  intros Hnd. unfold distinct_entityIds, count.
  set (rows := find_sync query (sync_table d)) in *.
  assert (sortedUniqBy entityId (orderBy_desc key rows) = orderBy_desc key rows) as ->.
  { apply baseSortedUniq_NoDup; [|done].
    by rewrite (orderBy_desc_Permutation key rows). }
  rewrite (Permutation_length (orderBy_desc_Permutation key rows)).
  split; [done|].
  rewrite <- (length_fmap entityId rows).
  apply Permutation_length, NoDup_Permutation; [done|apply NoDup_remove_dups|].
  intros id. by rewrite elem_of_remove_dups.
Qed.

Lemma find_sync_after_drain query t :
  find_sync query (snd (drain query t)) = [].
Proof.
  apply elem_of_nil_inv. intros row [Hm Hin]%list_elem_of_filter.
  apply list_elem_of_fmap in Hin as ([k r] & -> & Hkr). simpl in *.
  apply elem_of_map_to_list in Hkr. unfold drain in Hkr. simpl in Hkr.
  apply map_lookup_filter_Some in Hkr as [_ Hno]. simpl in Hno. congruence.
Qed.

(** X14: [clear(query)] answers with the matching rows and removes exactly
    them: afterwards no row matches the query, [count(query)] is 0, a
    [push(query)] has nothing to do, every other row is as before and the
    key counter is untouched. *)
Theorem clear_removes_matching_rows remote generateObjectId schedule d query :
  snd (Sync.clear d query) = find_sync query (sync_table d) /\
  find_sync query (sync_table (fst (Sync.clear d query))) = [] /\
  count (fst (Sync.clear d query)) query = 0 /\
  Sync.push remote generateObjectId schedule (fst (Sync.clear d query)) query
    = Some (fst (Sync.clear d query), [], []) /\
  syncKey (fst (Sync.clear d query)) = syncKey d /\
  forall k row,
    sync_table d !! k = Some row ->
    sync_table (fst (Sync.clear d query)) !! k
      = if matches query row then None else Some row.
Proof.
  assert (Sync.clear d query
          = (set_sync_table d (snd (drain query (sync_table d))),
             find_sync query (sync_table d))) as -> by done.
  cbn [fst snd]. pose proof (find_sync_after_drain query (sync_table d)) as Hnil.
  split; [done|]. split; [done|]. split.
  { unfold count, set_sync_table. cbn [sync_table]. by rewrite Hnil. }
  split.
  { set (d' := set_sync_table d (snd (drain query (sync_table d)))).
    assert (find_sync query (sync_table d') = []) as Hnil' by done.
    unfold Sync.push.
    assert (drain query (sync_table d')
            = (find_sync query (sync_table d'), snd (drain query (sync_table d'))))
      as -> by done.
    rewrite Hnil'. cbn [length Nat.ltb Nat.leb].
    rewrite (drain_without_match _ _ Hnil'). by destruct d'. }
  split; [done|]. intros k row Hrow. simpl.
  destruct (matches query row) eqn:Hm.
  - apply map_lookup_filter_None. right. intros r Hr. simpl.
    rewrite Hrow in Hr. injection Hr as <-. by rewrite Hm.
  - apply map_lookup_filter_Some. by split.
Qed.
End CountAndClear.

Section EnqueueMore.
Implicit Types (d : Device) (method : HttpMethod).

Lemma enqueue_entity_valid method c d e id :
  _id e = Some id -> id <> EmptyString ->
  enqueue_entity method c d (Some e) =
    (mkDevice (Some (js_add (counter d) 1))
              (<[js_add (counter d) 1
                 := mkSyncEntity (js_add (counter d) 1) id c method e]>
                 (sync_table d))
              (tables d) (generated d),
     Resolved tt).
Proof.
  intros He Hid. unfold enqueue_entity. rewrite He. simpl.
  by destruct (String.eqb_spec id EmptyString).
Qed.

(** What one entity of an [entities] argument does to the key counter: it
    advances by at most one. *)
Lemma enqueue_entity_keeps method c d e :
  bounded d ->
  (- 2 ^ 53 <= counter d)%Z ->
  (counter d + Z.of_nat (length (omap id [e])) <= 2 ^ 53)%Z ->
  bounded (fst (enqueue_entity method c d e)) /\
  (counter d <= counter (fst (enqueue_entity method c d e))
             <= counter d + Z.of_nat (length (omap id [e])))%Z /\
  forall k row, sync_table d !! k = Some row ->
                sync_table (fst (enqueue_entity method c d e)) !! k = Some row.
Proof.
  intros Hb Hlo Hhi. unfold enqueue_entity.
  destruct e as [e|]; [|simpl; split; [done|split; [lia|done]]].
  change (omap id [Some e]) with [e] in *. cbn [length] in *.
  destruct (negb (truthy (_id e))); [simpl; split; [done|split; [lia|done]]|].
  fold (counter d). rewrite js_add_exact by lia.
  simpl. unfold bounded, counter in *. simpl. split; [|split].
  - apply map_Forall_insert_2; [lia|].
    intros k row Hrow. specialize (Hb k row Hrow). simpl in Hb. lia.
  - lia.
  - intros k row Hrow. rewrite lookup_insert_ne; [done|].
    specialize (Hb k row Hrow). simpl in Hb. lia.
Qed.

Lemma enqueue_all_keeps method c d l :
  bounded d ->
  (- 2 ^ 53 <= counter d)%Z ->
  (counter d + Z.of_nat (length (omap id l)) <= 2 ^ 53)%Z ->
  bounded (fst (enqueue_all method c d l)) /\
  (counter d <= counter (fst (enqueue_all method c d l))
             <= counter d + Z.of_nat (length (omap id l)))%Z /\
  forall k row, sync_table d !! k = Some row ->
                sync_table (fst (enqueue_all method c d l)) !! k = Some row.
Proof.
  revert d. induction l as [|e l IH]; intros d Hb Hlo Hhi.
  - simpl. split; [done|split; [lia|done]].
  - assert (length (omap id (e :: l))
            = length (omap id [e]) + length (omap id l)) as Hlen
      by (by destruct e).
    rewrite Hlen in Hhi |- *. rewrite Nat2Z.inj_add in Hhi |- *.
    destruct (enqueue_entity_keeps method c d e Hb Hlo) as (Hb1 & Hc1 & Hr1); [lia|].
    cbn [enqueue_all].
    destruct (enqueue_entity method c d e) as [d1 o1]. cbn [fst snd] in *.
    destruct (IH d1 Hb1) as (Hb2 & Hc2 & Hr2); [lia|lia|].
    destruct (enqueue_all method c d1 l) as [d2 o2]. cbn [fst snd] in *.
    split; [done|]. split; [lia|]. intros k row Hrow. by apply Hr2, Hr1.
Qed.

Lemma truthy_Some (s : option string) :
  truthy s = true -> exists id, s = Some id /\ id <> EmptyString.
Proof.
  destruct s as [id|]; [|done]. simpl.
  destruct (String.eqb_spec id EmptyString); [done|]. eauto.
Qed.

Lemma enqueue_all_valid method c d (l : list (option Entity)) :
  (forall e, Some e ∈ l -> truthy (_id e) = true) ->
  (- 2 ^ 53 <= counter d)%Z ->
  (counter d + Z.of_nat (length (omap id l)) <= 2 ^ 53)%Z ->
  snd (enqueue_all method c d l) = Resolved tt /\
  counter (fst (enqueue_all method c d l))
    = (counter d + Z.of_nat (length (omap id l)))%Z.
Proof.
  revert d. induction l as [|x l IH]; intros d Hall Hlo Hhi; cbn [enqueue_all].
  - split; [done|]. cbn. lia.
  - assert (forall e, Some e ∈ l -> truthy (_id e) = true) as Hall'
      by (intros e He; apply Hall; by right).
    destruct x as [e|].
    + assert (truthy (_id e) = true) as He by (apply Hall; by left).
      apply truthy_Some in He as (i & He & Hi).
      change (omap id (Some e :: l)) with (e :: omap id l) in *.
      cbn [length] in *. rewrite Nat2Z.inj_succ in Hhi |- *.
      rewrite (enqueue_entity_valid method c d e i He Hi).
      rewrite js_add_exact by lia.
      set (d1 := mkDevice _ _ _ _).
      assert (counter d1 = (counter d + 1)%Z) as Hd1 by done.
      destruct (IH d1 Hall') as [Ho Hc]; [rewrite Hd1; lia..|].
      destruct (enqueue_all method c d1 l) as [d2 o2]. cbn [fst snd] in *.
      split; [done|]. rewrite Hc, Hd1. lia.
    + cbn [enqueue_entity].
      change (omap id (None :: l)) with (omap id l) in *.
      destruct (IH d Hall' Hlo Hhi) as [Ho Hc].
      destruct (enqueue_all method c d l) as [d2 o2]. cbn [fst snd] in *.
      by split.
Qed.

(** X15: when a collection name is given and every entity provided has an
    [_id], both enqueue operations resolve with their [entities] argument
    as it was given; as long as the key counter stays among the integers
    that [key += 1] steps through exactly (up to 2^53), it has advanced by
    the number of entities that are not null. *)
Theorem enqueue_resolves_with_its_argument d collection entities :
  truthy collection = true ->
  (forall e, Some e ∈ to_array entities -> truthy (_id e) = true) ->
  (- 2 ^ 53 <= counter d)%Z ->
  (counter d + Z.of_nat (length (provided entities)) <= 2 ^ 53)%Z ->
  snd (createSaveOperation d collection entities) = Resolved entities /\
  snd (createDeleteOperation d collection entities) = Resolved entities /\
  default 0%Z (syncKey (fst (createSaveOperation d collection entities)))
    = (default 0 (syncKey d) + Z.of_nat (length (provided entities)))%Z /\
  default 0%Z (syncKey (fst (createDeleteOperation d collection entities)))
    = (default 0 (syncKey d) + Z.of_nat (length (provided entities)))%Z.
Proof.
  intros Hc Hall Hlo Hhi.
  unfold createSaveOperation, createDeleteOperation, createOperation, provided in *.
  rewrite Hc. cbn [negb].
  destruct (enqueue_all_valid POST (default EmptyString collection) d _ Hall Hlo Hhi)
    as [Ho1 Hc1].
  destruct (enqueue_all_valid DELETE (default EmptyString collection) d _ Hall Hlo Hhi)
    as [Ho2 Hc2].
  destruct (enqueue_all POST _ d _) as [d1 o1].
  destruct (enqueue_all DELETE _ d _) as [d2 o2]. simpl in *.
  subst o1 o2. by repeat split.
Qed.

Lemma createOperation_keeps method d collection entities :
  bounded d ->
  (- 2 ^ 53 <= counter d)%Z ->
  (counter d + Z.of_nat (length (provided entities)) <= 2 ^ 53)%Z ->
  bounded (fst (createOperation method d collection entities)) /\
  (counter d <= counter (fst (createOperation method d collection entities)))%Z /\
  forall k row,
    sync_table d !! k = Some row ->
    sync_table (fst (createOperation method d collection entities)) !! k = Some row.
Proof.
  intros Hb Hlo Hhi. unfold createOperation.
  destruct (negb (truthy collection)); [simpl; split; [done|split; [lia|done]]|].
  destruct (enqueue_all_keeps method (default EmptyString collection) d
              (to_array entities) Hb Hlo Hhi) as (Hb' & Hc' & Hr').
  destruct (enqueue_all _ _ _ _). simpl in *. split; [done|]. split; [lia|done].
Qed.

(** X16: whatever they are given and whether they resolve or reject, the
    enqueue operations never overwrite or remove a row, as long as the key
    counter stays among the integers that [key += 1] steps through exactly
    (up to 2^53): with no key above the counter before, every row is still
    there afterwards, the counter has not gone down and no key is above
    it. *)
Theorem enqueue_never_overwrites d collection entities :
  bounded d ->
  (- 2 ^ 53 <= counter d)%Z ->
  (counter d + Z.of_nat (length (provided entities)) <= 2 ^ 53)%Z ->
  (bounded (fst (createSaveOperation d collection entities)) /\
   (counter d <= counter (fst (createSaveOperation d collection entities)))%Z /\
   forall k row,
     sync_table d !! k = Some row ->
     sync_table (fst (createSaveOperation d collection entities)) !! k = Some row) /\
  (bounded (fst (createDeleteOperation d collection entities)) /\
   (counter d <= counter (fst (createDeleteOperation d collection entities)))%Z /\
   forall k row,
     sync_table d !! k = Some row ->
     sync_table (fst (createDeleteOperation d collection entities)) !! k = Some row).
Proof.
  intros Hb Hlo Hhi. split.
  - by apply (createOperation_keeps POST).
  - by apply (createOperation_keeps DELETE).
Qed.

Lemma enqueue_all_writes method c d (l : list (option Entity)) e eid :
  bounded d ->
  (- 2 ^ 53 <= counter d)%Z ->
  (counter d + Z.of_nat (length (omap id l)) <= 2 ^ 53)%Z ->
  Some e ∈ l -> _id e = Some eid -> eid <> EmptyString ->
  exists k, (counter d < k)%Z /\
    sync_table (fst (enqueue_all method c d l)) !! k
      = Some (mkSyncEntity k eid c method e).
Proof.
  intros Hb Hlo Hhi Hin He Hid. revert d Hb Hlo Hhi.
  induction l as [|x l IH]; intros d Hb Hlo Hhi; [by apply elem_of_nil in Hin|].
  assert (length (omap id (x :: l))
          = length (omap id [x]) + length (omap id l)) as Hlen
    by (by destruct x).
  rewrite Hlen, Nat2Z.inj_add in Hhi.
  destruct (enqueue_entity_keeps method c d x Hb Hlo) as (Hb1 & Hc1 & _); [lia|].
  simpl. apply elem_of_cons in Hin as [<-|Hin].
  - change (omap id [Some e]) with [e] in *. cbn [length] in *.
    rewrite (enqueue_entity_valid method c d e eid He Hid) in Hb1, Hc1 |- *.
    rewrite js_add_exact in Hb1, Hc1 |- * by lia.
    set (d1 := mkDevice _ _ _ _) in *.
    assert (counter d1 = (counter d + 1)%Z) as Hd1 by done.
    destruct (enqueue_all_keeps method c d1 l Hb1) as (_ & _ & Hr);
      [rewrite Hd1; lia..|].
    destruct (enqueue_all method c d1 l) as [d2 o2]. simpl in *.
    exists (counter d + 1)%Z. split; [lia|]. apply Hr. unfold d1. simpl.
    apply lookup_insert_eq.
  - destruct (enqueue_entity method c d x) as [d1 o1]. simpl in *.
    destruct (IH Hin d1 Hb1) as (k & Hk & Hrow); [lia|lia|].
    destruct (enqueue_all method c d1 l) as [d2 o2]. simpl in *.
    exists k. split; [lia|done].
Qed.

Lemma createOperation_writes method d c entities e id :
  bounded d -> c <> EmptyString ->
  (- 2 ^ 53 <= counter d)%Z ->
  (counter d + Z.of_nat (length (provided entities)) <= 2 ^ 53)%Z ->
  Some e ∈ to_array entities ->
  _id e = Some id -> id <> EmptyString ->
  exists k,
    (counter d < k)%Z /\
    sync_table (fst (createOperation method d (Some c) entities)) !! k
      = Some (mkSyncEntity k id c method e).
Proof.
  intros Hb Hc Hlo Hhi Hin He Hid. unfold createOperation. simpl.
  destruct (String.eqb_spec c EmptyString); [done|]. simpl.
  destruct (enqueue_all_writes method c d (to_array entities) e id Hb Hlo Hhi Hin He Hid)
    as (k & Hk & Hrow).
  destruct (enqueue_all method c d (to_array entities)) as [d' o]. simpl in *.
  by exists k.
Qed.

(** X17: as long as the key counter stays among the integers that
    [key += 1] steps through exactly (up to 2^53), an entity with an [_id]
    is written to the sync table, under a key above the old counter, with
    its id, the collection and the operation's method (POST for a save,
    DELETE for a delete), whatever happens to the other entities of the same
    call: a rejection because another entity has no [_id] does not undo
    it. *)
Theorem enqueue_writes_each_valid_entity d c entities e id :
  bounded d -> c <> EmptyString ->
  (- 2 ^ 53 <= counter d)%Z ->
  (counter d + Z.of_nat (length (provided entities)) <= 2 ^ 53)%Z ->
  Some e ∈ to_array entities ->
  _id e = Some id -> id <> EmptyString ->
  (exists k,
     (counter d < k)%Z /\
     sync_table (fst (createSaveOperation d (Some c) entities)) !! k
       = Some (mkSyncEntity k id c POST e)) /\
  (exists k,
     (counter d < k)%Z /\
     sync_table (fst (createDeleteOperation d (Some c) entities)) !! k
       = Some (mkSyncEntity k id c DELETE e)).
Proof.
  intros Hb Hc Hlo Hhi Hin He Hid. split.
  - by apply (createOperation_writes POST).
  - by apply (createOperation_writes DELETE).
Qed.

End EnqueueMore.

(** ** Strings *)

Section StringFacts.
Implicit Types (p q s : string).

Ltac step_append :=
  repeat match goal with
    | |- context [String ?c ?p +:+ ?q] =>
        change (String c p +:+ q) with (String c (p +:+ q))
    | |- context [EmptyString +:+ ?q] => change (EmptyString +:+ q) with q
    end.

Lemma length_append p s :
  String.length (p +:+ s) = String.length p + String.length s.
Proof. induction p as [|c p IH]; step_append; simpl; [done|]. by rewrite IH. Qed.

Lemma append_assoc p q s : (p +:+ q) +:+ s = p +:+ (q +:+ s).
Proof. induction p as [|c p IH]; step_append; [done|]. by rewrite IH. Qed.

Lemma prefix_append p s : String.prefix p (p +:+ s) = true.
Proof.
  induction p as [|c p IH]; step_append; simpl; [by destruct s|].
  by destruct (ascii_dec c c).
Qed.

Lemma substring_all s : String.substring 0 (String.length s) s = s.
Proof. induction s as [|c s IH]; simpl; [done|]. by rewrite IH. Qed.

Lemma substring_skip p m s :
  String.substring (String.length p) m (p +:+ s) = String.substring 0 m s.
Proof. induction p as [|c p IH]; step_append; simpl; [done|]. exact IH. Qed.

Lemma substring_take s q : String.substring 0 (String.length s) (s +:+ q) = s.
Proof.
  induction s as [|c s IH]; step_append; simpl; [by destruct q|]. by rewrite IH.
Qed.

Lemma strip_prefix_append p s : WebSQL.strip_prefix p (p +:+ s) = Some s.
Proof.
  unfold WebSQL.strip_prefix. rewrite prefix_append, length_append.
  replace (String.length p + String.length s - String.length p)
    with (String.length s) by lia.
  by rewrite substring_skip, substring_all.
Qed.

Lemma strip_suffix_append s q : WebSQL.strip_suffix q (s +:+ q) = Some s.
Proof.
  unfold WebSQL.strip_suffix. rewrite length_append.
  replace (String.length s + String.length q - String.length q)
    with (String.length s) by lia.
  rewrite substring_skip, substring_all, String.eqb_refl, substring_take.
  by destruct (Nat.leb_spec (String.length q) (String.length s + String.length q));
    [|lia].
Qed.

Lemma index_without_first_char c p s n :
  Forall (fun x => x <> c) (list_ascii_of_string s) ->
  String.index n (String c p) s = None.
Proof.
  revert n. induction s as [|b s IH]; intros n Hall; simpl.
  - by destruct n.
  - simpl in Hall. apply Forall_cons in Hall as [Hb Hall].
    destruct n as [|n].
    + destruct (ascii_dec c b) as [->|_]; [done|]. by rewrite IH.
    + by rewrite IH.
Qed.

Lemma list_ascii_of_append p s :
  list_ascii_of_string (p +:+ s) = list_ascii_of_string p ++ list_ascii_of_string s.
Proof. induction p as [|c p IH]; step_append; simpl; [done|]. by rewrite IH. Qed.

Lemma all_in_class_Forall s :
  Pattern.all_in_class s = true ->
  Forall (fun c => Pattern.in_class c = true) (list_ascii_of_string s).
Proof.
  induction s as [|c s IH]; simpl; [constructor|].
  intros [Hc Hs]%andb_true_iff. constructor; auto.
Qed.
End StringFacts.

(** ** The local store *)

Section StoreMore.
Import Pattern.
Variable isSupported : Store.AdapterClass -> bool.

(** X18: the constructor builds the store for every pair of names that
    match the pattern of the specification, and for the default names, as
    soon as one listed adapter is supported. *)
Theorem constructor_accepts_valid_names Adapters n c a :
  spec_name_pattern n = true ->
  spec_name_pattern c = true ->
  Store.select isSupported Adapters = Some a ->
  Store.constructor isSupported Adapters
    (Store.mkDbInfo (Some (Store.JString n)) (Some (Store.JString c)))
    = Store.Built a (Store.JString n) (Store.JString c) /\
  Store.constructor isSupported Adapters (Store.mkDbInfo None None)
    = Store.Built a (Store.JString "kinvey") (Store.JString "data").
Proof.
  intros Hn Hc Ha. unfold Store.constructor. simpl.
  rewrite (spec_name_pattern_accepted _ Hn), (spec_name_pattern_accepted _ Hc), Ha.
  done.
Qed.

(** X19: the adapter bound is the first element of [Adapters] that stands
    for a supported adapter class; names outside the enumeration and
    unsupported classes before it are passed over; no adapter is bound
    exactly when no element stands for a supported class. *)
Theorem select_first_supported Adapters :
  match Store.select isSupported Adapters with
  | Some a =>
      exists before x after,
        Adapters = before ++ x :: after /\
        Store.resolve x = Some a /\ isSupported a = true /\
        forall y b, y ∈ before -> Store.resolve y = Some b -> isSupported b = false
  | None =>
      forall y b, y ∈ Adapters -> Store.resolve y = Some b -> isSupported b = false
  end.
Proof.
  induction Adapters as [|x rest IH].
  - simpl. by intros y b ?%elem_of_nil.
  - assert (Store.select isSupported (x :: rest) =
            match Store.resolve x with
            | Some a => if isSupported a then Some a
                        else Store.select isSupported rest
            | None => Store.select isSupported rest
            end) as -> by (by destruct x).
    destruct (Store.resolve x) as [a|] eqn:Hx.
    + destruct (isSupported a) eqn:Ha.
      * exists [], x, rest. repeat split; [done|done|]. by intros y b ?%elem_of_nil.
      * destruct (Store.select isSupported rest) as [a'|].
        -- destruct IH as (before & x' & after & -> & Hx' & Ha' & Hbefore).
           exists (x :: before), x', after. repeat split; [done|done|].
           intros y b [->|Hy]%elem_of_cons Hy'; [congruence|by eapply Hbefore].
        -- intros y b [->|Hy]%elem_of_cons Hy'; [congruence|by eapply IH].
    + destruct (Store.select isSupported rest) as [a'|].
      * destruct IH as (before & x' & after & -> & Hx' & Ha' & Hbefore).
        exists (x :: before), x', after. repeat split; [done|done|].
        intros y b [->|Hy]%elem_of_cons Hy'; [congruence|by eapply Hbefore].
      * intros y b [->|Hy]%elem_of_cons Hy'; [congruence|by eapply IH].
Qed.

Lemma hex_at pos :
  pos < 16 ->
  exists c, String.substring pos 1 Store.chars = String c EmptyString /\
            Store.hex_digit c = true.
Proof.
  intros Hpos.
  do 16 (destruct pos as [|pos]; [eexists; split; reflexivity|]). lia.
Qed.

Lemma generate_loop_shape random i n result :
  (forall k, random k < 16) ->
  exists suffix,
    Store.generate_loop random i n result = result +:+ suffix /\
    String.length suffix = n /\ Store.all_hex suffix = true.
Proof.
  intros Hrandom. revert i result.
  induction n as [|n IH]; intros i result; cbn [Store.generate_loop].
  - exists EmptyString. split; [|done].
    clear. induction result as [|c r IHr]; [done|].
    change (String c r +:+ EmptyString) with (String c (r +:+ EmptyString)).
    by rewrite <- IHr.
  - destruct (hex_at (random i) (Hrandom i)) as (c & -> & Hc).
    destruct (IH (S i) (result +:+ String c EmptyString)) as (suffix & -> & Hlen & Hhex).
    exists (String c suffix). split; [|split].
    + by rewrite append_assoc.
    + simpl. by rewrite Hlen.
    + simpl. by rewrite Hc, Hhex.
Qed.

(** X20: with [Math.random] below 1, [generateObjectId(length)] is the
    prefix [local_] followed by exactly [length] characters, each a
    hexadecimal digit in lower case. *)
Theorem generateObjectId_shape random n :
  (forall k, random k < 16) ->
  exists suffix,
    Store.generateObjectId random n = "local_" +:+ suffix /\
    String.length suffix = n /\
    Store.all_hex suffix = true.
Proof.
  intros Hrandom. unfold Store.generateObjectId, Store.objectIdPrefix.
  destruct (generate_loop_shape random 0 n EmptyString Hrandom)
    as (suffix & -> & Hlen & Hhex).
  by exists suffix.
Qed.

(** X21: [findAndModify] rejects every [fn] that is a function: its
    [isFunction] is lodash's [isArray], so only an array gets through to
    the adapter. *)
Theorem findAndModify_rejects_functions toString id fn :
  Store.findAndModify toString id Store.AFunction
    = Store.Reject "fn argument must be a function" /\
  ((exists call, Store.findAndModify toString id fn = Store.Delegate call)
   <-> fn = Store.AnArray).
Proof.
  split; [done|]. unfold Store.findAndModify. split.
  - intros [call H]. by destruct fn.
  - intros ->. simpl. eauto.
Qed.

(** X22: [save] of one document hands the adapter a document that has an
    [_id]: its own when it has one, and then the document is unchanged,
    else a generated one, [local_] and 24 hexadecimal digits, with the rest
    of the document unchanged.  [save] of an array hands the array over as
    it is, and [save] of a falsy value resolves with [null] without a call
    to the adapter. *)
Theorem save_assigns_an_id random doc docs :
  (forall k, random k < 16) ->
  (exists saved,
      Store.save random (Store.Document doc) = Store.Delegate (Store.adapter_save saved) /\
      truthy (_id saved) = true /\
      _kmd saved = _kmd doc /\ attributes saved = attributes doc /\
      (truthy (_id doc) = true -> saved = doc) /\
      (truthy (_id doc) = false ->
         exists suffix, _id saved = Some ("local_" +:+ suffix) /\
                        String.length suffix = 24 /\ Store.all_hex suffix = true)) /\
  Store.save random (Store.Documents docs) = Store.Delegate (Store.adapter_batch docs) /\
  Store.save random Store.Nothing = Store.ResolveNull.
Proof.
  intros Hrandom. split; [|done]. unfold Store.save.
  destruct (truthy (_id doc)) eqn:Hid.
  - exists doc. destruct doc as [i k a]. simpl in *. by repeat split.
  - assert (exists suffix,
              Store.generateObjectId random 24 = "local_" +:+ suffix /\
              String.length suffix = 24 /\ Store.all_hex suffix = true)
      as (suffix & Hgen & Hlen & Hhex).
    { unfold Store.generateObjectId, Store.objectIdPrefix.
      destruct (generate_loop_shape random 0 24 EmptyString Hrandom)
        as (suffix & -> & Hlen & Hhex).
      by exists suffix. }
    eexists. split; [reflexivity|]. simpl. rewrite Hgen.
    split; [done|]. split; [done|]. split; [done|]. split; [done|].
    intros _. by exists suffix.
Qed.
End StoreMore.

(** ** The WebSQL adapter *)

Section WebSQLMore.
Import Pattern WebSQL.

Lemma in_class_not_hash c : in_class c = true -> c <> "#"%char.
Proof. intros H ->. discriminate H. Qed.

Lemma drop_statement_has_no_placeholder tableName escapedTableName :
  all_in_class tableName = true ->
  replace "#{table}" escapedTableName (drop_prefix +:+ tableName +:+ drop_suffix)
    = drop_prefix +:+ tableName +:+ drop_suffix.
Proof.
  intros Hname. unfold replace.
  rewrite (index_without_first_char "#" "{table}"); [done|].
  rewrite !list_ascii_of_append. repeat apply Forall_app_2.
  - apply (bool_decide_unpack _). by vm_compute.
  - eapply Forall_impl; [by apply all_in_class_Forall|]. apply in_class_not_hash.
  - apply (bool_decide_unpack _). by vm_compute.
Qed.

Lemma parse_drop tableName :
  parse (drop_prefix +:+ tableName +:+ drop_suffix) = Some (DropTable tableName).
Proof.
  unfold parse, between.
  assert (strip_prefix create_prefix (drop_prefix +:+ tableName +:+ drop_suffix) = None)
    as -> by done.
  assert (strip_prefix select_names_prefix (drop_prefix +:+ tableName +:+ drop_suffix)
          = None) as -> by done.
  by rewrite strip_prefix_append, strip_suffix_append.
Qed.

(** X23: for a table name of letters, digits and dashes,
    [clear(dbName, tableName)] drops that table and no other, and the
    promise it returns stays pending: [execute] never resolves. *)
Theorem clear_drops_the_table_and_stays_pending db tableName :
  all_in_class tableName = true ->
  WebSQL.clear db tableName
    = (mkDatabase (delete tableName (db_tables db)), Pending).
Proof.
  intros Hname. unfold WebSQL.clear, execute. simpl.
  rewrite (drop_statement_has_no_placeholder _ _ Hname).
  unfold executeSql. rewrite parse_drop.
  destruct (String.eqb_spec tableName MASTER_TABLE_NAME) as [->|_]; [done|].
  reflexivity.
Qed.
End WebSQLMore.

(** ** The further properties on concrete inputs *)

Section MoreExamples.
Import Examples.

Ltac by_computation := apply (bool_decide_unpack _); vm_compute; exact I.


Lemma push_without_matching_rows_witness :
  Sync.push accepting generateObjectId first_outstanding empty_device None
    = Some (empty_device, [], []).
Proof.
  apply (push_without_matching_rows accepting generateObjectId first_outstanding
           empty_device None).
  reflexivity.
Defined.

Lemma push_leaves_other_rows_witness :
  exists d' results requests,
    Sync.push accepting generateObjectId first_outstanding device_aba only_a
      = Some (d', results, requests) /\
    sync_table d' !! 2%Z = Some (mkSyncEntity 2 "b" "books" POST (known "b" "1")).
Proof.
  apply (push_leaves_other_rows accepting generateObjectId first_outstanding
           device_aba only_a 2%Z
           (mkSyncEntity 2 "b" "books" POST (known "b" "1"))).
  - by_computation.
  - reflexivity.
  - reflexivity.
Defined.

Lemma push_discards_superseded_witness :
  exists d' results requests,
    Sync.push (refusing (OtherError "500") (Fail NotFoundError)) generateObjectId
              first_outstanding device_aa None
      = Some (d', results, requests) /\
    sync_table d' !! 1%Z = None.
Proof.
  apply (push_discards_superseded
           (refusing (OtherError "500") (Fail NotFoundError)) generateObjectId
           first_outstanding device_aa None 1%Z
           (mkSyncEntity 1 "a" "books" POST (known "a" "1"))).
  - by_computation.
  - reflexivity.
  - reflexivity.
  - intros s Hs.
    change (claimed device_aa None)
      with [mkSyncEntity 2%Z "a" "books" POST 0] in Hs.
    apply list_elem_of_singleton in Hs. subst s. discriminate.
Defined.

Lemma push_keeps_journal_invariants_witness :
  exists d' results requests,
    Sync.push (refusing (OtherError "500") (Fail NotFoundError)) generateObjectId
              first_outstanding device_aba None
      = Some (d', results, requests) /\
    keyed (sync_table d') /\ bounded d'.
Proof.
  apply (push_keeps_journal_invariants
           (refusing (OtherError "500") (Fail NotFoundError)) generateObjectId
           first_outstanding device_aba None).
  - by_computation.
  - by_computation.
Defined.

Lemma push_results_follow_claimed_witness :
  exists d' results requests r,
    Sync.push accepting generateObjectId first_outstanding device_aba None
      = Some (d', results, requests) /\
    results !! 1 = Some r /\
    result_id r = Some "b".
Proof.
  apply (push_results_follow_claimed accepting generateObjectId first_outstanding
           device_aba None 1
           (mkSyncEntity 2 "b" "books" POST 1)
           (mkSyncEntity 2 "b" "books" POST (known "b" "1"))).
  - by_computation.
  - reflexivity.
  - reflexivity.
Defined.

Lemma push_unrecognized_method_witness :
  Sync.dispatched accepting generateObjectId first_outstanding
                  device_patch_and_save None 1 = None /\
  exists d' results requests,
    Sync.push accepting generateObjectId first_outstanding device_patch_and_save None
      = Some (d', results, requests) /\
    results !! 1 = Some (mkSyncResult (Some "p") (known "p" "1")
                                      (Some (SyncError unrecognized))) /\
    sync_table d' !! 1%Z = None /\
    requests_for "books" requests = [] /\
    forall x, tables d' !! ("books", x) = tables device_patch_and_save !! ("books", x).
Proof.
  destruct (push_unrecognized_method accepting generateObjectId first_outstanding
              device_patch_and_save None 1
              (mkSyncEntity 1 "p" "books" PATCH 1)
              (mkSyncEntity 1 "p" "books" PATCH (known "p" "1")))
    as (Hnone & d' & results & requests & Hpush & Hres & Htab & Halone).
  - by_computation.
  - reflexivity.
  - reflexivity.
  - discriminate.
  - discriminate.
  - discriminate.
  - split; [exact Hnone|]. exists d', results, requests.
    destruct Halone as (Hreqs & Hloc).
    { intros [|[|j]] s' Hj Hji; [|done|done].
      injection Hj as <-. discriminate. }
    repeat split; assumption.
Defined.

Lemma push_delete_acknowledged_witness :
  let request := mkRequest DELETE (EntityPath "books" "e") None in
  exists d' results requests,
    Sync.push accepting generateObjectId first_outstanding device_delete_and_save None
      = Some (d', results, requests) /\
    request ∈ requests /\
    results !! 1 = Some (mkSyncResult (Some "e") (known "e" "1") None) /\
    sync_table d' !! 1%Z = None /\
    requests_for "books" requests = [request] /\
    forall x, tables d' !! ("books", x) = tables device_delete_and_save !! ("books", x).
Proof.
  intros request.
  destruct (push_delete_acknowledged accepting generateObjectId first_outstanding
              device_delete_and_save None 1
              (mkSyncEntity 1 "e" "books" DELETE 1)
              (mkSyncEntity 1 "e" "books" DELETE (known "e" "1"))
              request (mkEntity None None []))
    as (_ & d' & results & requests & Hpush & Hin & Hres & Htab & Halone).
  - by_computation.
  - reflexivity.
  - reflexivity.
  - reflexivity.
  - reflexivity.
  - exists d', results, requests.
    destruct Halone as (Hreqs & Hloc).
    { intros [|[|j]] s' Hj Hji; [|done|done].
      injection Hj as <-. discriminate. }
    repeat split; assumption.
Defined.

Lemma push_update_acknowledged_witness :
  let request := mkRequest PUT (EntityPath "authors" "k") (Some (known "k" "1")) in
  tables device_two_collections !! ("authors", "k") = Some (known "k" "0") /\
  exists d' results requests,
    Sync.push accepting generateObjectId first_outstanding device_two_collections None
      = Some (d', results, requests) /\
    request ∈ requests /\
    results !! 0 = Some (mkSyncResult (Some "k") (known "k" "1") None) /\
    sync_table d' !! 2%Z = None /\
    requests_for "authors" requests = [request] /\
    tables d' !! ("authors", "k") = Some (known "k" "1").
Proof.
  intros request. split; [reflexivity|].
  destruct (push_update_acknowledged accepting generateObjectId first_outstanding
              device_two_collections None 0
              (mkSyncEntity 2 "k" "authors" POST 0)
              (mkSyncEntity 2 "k" "authors" POST (known "k" "1"))
              request (known "k" "1") "k")
    as (_ & d' & results & requests & Hpush & Hin & Hres & Htab & Halone).
  - by_computation.
  - reflexivity.
  - reflexivity.
  - left. reflexivity.
  - reflexivity.
  - reflexivity.
  - reflexivity.
  - discriminate.
  - exists d', results, requests.
    destruct Halone as (Hreqs & Hloc & _).
    { intros [|[|j]] s' Hj Hji; [done| |done].
      injection Hj as <-. discriminate. }
    repeat split; assumption.
Defined.

Lemma save_credentials_failure_drops_record_witness :
  exists d' results requests,
    Sync.push (refusing InsufficientCredentialsError (Fail NotFoundError))
              generateObjectId first_outstanding device_save_c None
      = Some (d', results, requests) /\
    sync_table d' !! 1%Z = None /\
    results !! 0 = Some (mkSyncResult (Some "c") (known "c" "1")
                                      (Some InsufficientCredentialsError)).
Proof.
  apply (save_credentials_failure_drops_record
           (refusing InsufficientCredentialsError (Fail NotFoundError))
           generateObjectId first_outstanding device_save_c None 0
           (mkSyncEntity 1 "c" "books" POST 0)
           (mkSyncEntity 1 "c" "books" POST (known "c" "1"))
           (mkRequest PUT (EntityPath "books" "c") (Some (known "c" "1")))).
  - by_computation.
  - reflexivity.
  - reflexivity.
  - left. reflexivity.
  - reflexivity.
Defined.

Lemma stripped_entity_is_put_to_undefined_witness :
  exists response,
    Sync.dispatched accepting generateObjectId first_outstanding
                    device_after_failed_create None 0
      = Some (mkRequest PUT (EntityPath "books" "undefined")
                        (Some (stripped (created "local_ab" "2"))),
              response).
Proof.
  apply (stripped_entity_is_put_to_undefined accepting generateObjectId
           first_outstanding device_after_failed_create None 0
           (mkSyncEntity 1 "local_ab" "books" POST 0)
           (mkSyncEntity 1 "local_ab" "books" POST (stripped (created "local_ab" "2")))
           (created "local_ab" "2")).
  - by_computation.
  - reflexivity.
  - reflexivity.
  - left. reflexivity.
  - reflexivity.
Defined.


Lemma count_of_distinct_entities_witness :
  count device_ab None = length (find_sync None (sync_table device_ab)) /\
  count device_ab None = distinct_entityIds device_ab None.
Proof.
  apply (count_of_distinct_entities device_ab None). by_computation.
Defined.

Lemma enqueue_resolves_with_its_argument_witness :
  let entities := Many [Some (known "x" "1"); None; Some (known "y" "1")] in
  snd (createSaveOperation device_ab (Some "books") entities) = Resolved entities /\
  snd (createDeleteOperation device_ab (Some "books") entities) = Resolved entities /\
  default 0%Z (syncKey (fst (createSaveOperation device_ab (Some "books") entities)))
    = (default 0 (syncKey device_ab) + Z.of_nat (length (provided entities)))%Z /\
  default 0%Z (syncKey (fst (createDeleteOperation device_ab (Some "books") entities)))
    = (default 0 (syncKey device_ab) + Z.of_nat (length (provided entities)))%Z.
Proof.
  apply (enqueue_resolves_with_its_argument device_ab (Some "books")
           (Many [Some (known "x" "1"); None; Some (known "y" "1")])).
  - reflexivity.
  - intros e He. unfold to_array in He.
    apply elem_of_cons in He as [[= ->]|He]; [reflexivity|].
    apply elem_of_cons in He as [He|He]; [discriminate|].
    apply list_elem_of_singleton in He. injection He as ->. reflexivity.
  - vm_compute. discriminate.
  - vm_compute. discriminate.
Defined.

Lemma enqueue_never_overwrites_witness :
  let entities := Many [Some (known "x" "1"); Some (mkEntity None None [])] in
  (bounded (fst (createSaveOperation device_ab (Some "books") entities)) /\
   (counter device_ab
    <= counter (fst (createSaveOperation device_ab (Some "books") entities)))%Z /\
   forall k row,
     sync_table device_ab !! k = Some row ->
     sync_table (fst (createSaveOperation device_ab (Some "books") entities)) !! k
       = Some row) /\
  (bounded (fst (createDeleteOperation device_ab (Some "books") entities)) /\
   (counter device_ab
    <= counter (fst (createDeleteOperation device_ab (Some "books") entities)))%Z /\
   forall k row,
     sync_table device_ab !! k = Some row ->
     sync_table (fst (createDeleteOperation device_ab (Some "books") entities)) !! k
       = Some row).
Proof.
  apply (enqueue_never_overwrites device_ab (Some "books")
           (Many [Some (known "x" "1"); Some (mkEntity None None [])])).
  - by_computation.
  - vm_compute. discriminate.
  - vm_compute. discriminate.
Defined.

Lemma enqueue_writes_each_valid_entity_witness :
  let entities := Many [Some (mkEntity None None []); Some (known "x" "1")] in
  snd (createSaveOperation device_ab (Some "books") entities)
    = Rejected (SyncError missing_id) /\
  (exists k,
     (counter device_ab < k)%Z /\
     sync_table (fst (createSaveOperation device_ab (Some "books") entities)) !! k
       = Some (mkSyncEntity k "x" "books" POST (known "x" "1"))) /\
  (exists k,
     (counter device_ab < k)%Z /\
     sync_table (fst (createDeleteOperation device_ab (Some "books") entities)) !! k
       = Some (mkSyncEntity k "x" "books" DELETE (known "x" "1"))).
Proof.
  split; [reflexivity|].
  apply (enqueue_writes_each_valid_entity device_ab "books"
           (Many [Some (mkEntity None None []); Some (known "x" "1")])
           (known "x" "1") "x").
  - by_computation.
  - discriminate.
  - vm_compute. discriminate.
  - vm_compute. discriminate.
  - simpl. right. left.
  - reflexivity.
  - discriminate.
Defined.

Lemma constructor_accepts_valid_names_witness :
  Store.constructor only_websql
    [Store.StoreAdapter_IndexedDB; Store.OtherName "Memory"; Store.StoreAdapter_WebSQL]
    (Store.mkDbInfo (Some (Store.JString "my-app")) (Some (Store.JString "books")))
    = Store.Built Store.WebSQLAdapter (Store.JString "my-app") (Store.JString "books") /\
  Store.constructor only_websql
    [Store.StoreAdapter_IndexedDB; Store.OtherName "Memory"; Store.StoreAdapter_WebSQL]
    (Store.mkDbInfo None None)
    = Store.Built Store.WebSQLAdapter (Store.JString "kinvey") (Store.JString "data").
Proof.
  apply (constructor_accepts_valid_names
           only_websql
           [Store.StoreAdapter_IndexedDB; Store.OtherName "Memory";
            Store.StoreAdapter_WebSQL]
           "my-app" "books" Store.WebSQLAdapter).
  - reflexivity.
  - reflexivity.
  - reflexivity.
Defined.

Lemma draws_below_16 k : draws k < 16.
Proof. unfold draws. apply Nat.mod_upper_bound. lia. Qed.

Lemma generateObjectId_shape_witness :
  exists suffix,
    Store.generateObjectId draws 24 = "local_" +:+ suffix /\
    String.length suffix = 24 /\
    Store.all_hex suffix = true.
Proof. apply (generateObjectId_shape draws 24), draws_below_16. Defined.

Lemma save_assigns_an_id_witness :
  (exists saved,
      Store.save draws (Store.Document (mkEntity None None [("v", "1")]))
        = Store.Delegate (Store.adapter_save saved) /\
      truthy (_id saved) = true /\
      _kmd saved = None /\ attributes saved = [("v", "1")] /\
      (truthy (_id (mkEntity None None [("v", "1")])) = true ->
         saved = mkEntity None None [("v", "1")]) /\
      (truthy (_id (mkEntity None None [("v", "1")])) = false ->
         exists suffix, _id saved = Some ("local_" +:+ suffix) /\
                        String.length suffix = 24 /\ Store.all_hex suffix = true)) /\
  Store.save draws (Store.Documents [mkEntity None None []])
    = Store.Delegate (Store.adapter_batch [mkEntity None None []]) /\
  Store.save draws Store.Nothing = Store.ResolveNull.
Proof.
  apply (save_assigns_an_id draws (mkEntity None None [("v", "1")])
           [mkEntity None None []]), draws_below_16.
Defined.

Lemma clear_drops_the_table_and_stays_pending_witness :
  WebSQL.clear database_books "books"
    = (WebSQL.mkDatabase (delete "books" (WebSQL.db_tables database_books)),
       WebSQL.Pending).
Proof.
  apply (clear_drops_the_table_and_stays_pending database_books "books").
  reflexivity.
Defined.
End MoreExamples.
